(** * Session layer of the respoke / brightstream client

    A shallow embedding of the identity classes ([Presentable], [Endpoint],
    [User]) and of [LocalMedia], with the properties of presence
    resolution, the active-call collection, signalling and the shared
    stream cache that the specification states about them.

    JavaScript objects are records; every mutable object that is shared
    between several holders (a media stream, a call) carries an explicit
    identity, and [===] on objects compares identities.  Notifications
    published with [fire] are appended to the emitter's [fired] list. *)

From Stdlib Require DecimalString DecimalN.
From stdpp Require Import base numbers strings list sorting gmap.

Open Scope string_scope.
Open Scope list_scope.
Open Scope Z_scope.

(** ** JavaScript values and completions *)

Module Js.

Inductive Error :=
| mkError (message : string)     (* [new Error(message)] *)
| TypeError (what : string)      (* property access on null / undefined *)
| RangeError (message : string). (* an array length that is not a length *)

(** [e.message] *)
Definition message (e : Error) : string :=
  match e with
  | mkError m => m
  | TypeError what => what
  | RangeError m => m
  end.

(** A call either returns normally or throws. *)
Inductive Completion (A : Type) :=
| Normal (a : A)
| Throw (e : Error).
Arguments Normal {A} a.
Arguments Throw {A} e.

#[export] Instance Completion_ret : MRet Completion := λ A a, Normal a.
#[export] Instance Completion_bind : MBind Completion := λ A B f c,
  match c with
  | Normal a => f a
  | Throw e => Throw e
  end.

(** Truthiness of a string: only the empty string is falsy. *)
Definition truthy (s : string) : bool := negb (String.eqb s "").

(** Truthiness of a possibly [undefined] string. *)
Definition truthy_opt (o : option string) : bool :=
  match o with Some s => truthy s | None => false end.

(** [o || d] for a possibly [undefined] string [o]. *)
Definition or_default (o : option string) (d : string) : string :=
  match o with
  | Some s => if truthy s then s else d
  | None => d
  end.

(** [l.indexOf(x)] with the equality test [eqb]: the first index whose
    element equals [x], or [-1]. *)
Fixpoint indexOf_from {A} (eqb : A → A → bool) (l : list A) (x : A) (i : Z) : Z :=
  match l with
  | [] => -1
  | y :: l' => if eqb y x then i else indexOf_from eqb l' x (i + 1)
  end.
Definition indexOf {A} (eqb : A → A → bool) (l : list A) (x : A) : Z :=
  indexOf_from eqb l x 0.

(** [l.sort(cmp)]: the elements of [l] ordered so that [cmp a b <= 0] holds
    between neighbours, elements that compare equal keeping the order they
    had in [l].  For a consistent comparison this is the one outcome that a
    stable sort can have, whatever the engine's algorithm; an insertion
    sort computes it.  (Stability is required of [Array.prototype.sort]
    since ECMAScript 2019; before, the order of elements that compare equal
    was the engine's choice.) *)
Definition before {A} (cmp : A → A → Z) : relation A := λ a b, cmp a b ≤ 0.
#[export] Instance before_dec {A} (cmp : A → A → Z) a b : Decision (before cmp a b).
Proof. unfold before. apply _. Defined.

(** [x], which stood before every element of the sorted [l], goes before the
    first element it does not have to follow. *)
Fixpoint sort_insert {A} (cmp : A → A → Z) (x : A) (l : list A) : list A :=
  match l with
  | [] => [x]
  | y :: l' => if 0 <? cmp x y then y :: sort_insert cmp x l' else x :: l
  end.

Definition sort {A} (cmp : A → A → Z) (l : list A) : list A :=
  foldr (sort_insert cmp) [] l.

(** A deferred of the promise library ([Q.defer], [makeDeferred]); settling
    it a second time has no effect. *)
Inductive Deferred :=
| pending
| fulfilled
| rejected (e : Error).

Definition reject (e : Error) (d : Deferred) : Deferred :=
  match d with pending => rejected e | _ => d end.
Definition resolve (d : Deferred) : Deferred :=
  match d with pending => fulfilled | _ => d end.

(** Numeric field that may hold [undefined] or [NaN]: [None] stands for
    both, since [undefined + 1], [undefined - 1], [NaN + 1] and [NaN - 1]
    are all [NaN], and [NaN === 0] is false. *)
Definition num := option Z.
Definition num_add (n : num) (k : Z) : num := (λ z, z + k) <$> n.
Definition num_is (n : num) (k : Z) : bool :=
  match n with Some z => Z.eqb z k | None => false end.

End Js.

(** ** EventEmitter: published notifications and registered listeners

    The emitter mixed into every entity is not among the sources; the three
    methods the sources call are modelled from what the specification says
    of notifications. *)

Module EventEmitter.

Inductive Event :=
| presence_event (presence : string)
| call_event (endpoint : option string) (call : nat)
| direct_connection_event (directConnection : nat) (endpoint : option string)
| mute_event (type : string) (muted : bool)
| stop_event
| allow_event
| requesting_media_event.

Definition name (e : Event) : string :=
  match e with
  | presence_event _ => "presence"
  | call_event _ _ => "call"
  | direct_connection_event _ _ => "direct-connection"
  | mute_event _ _ => "mute"
  | stop_event => "stop"
  | allow_event => "allow"
  | requesting_media_event => "requesting-media"
  end.

Record t := mk {
  listeners : list string;     (* event names with a registered listener, one per listener *)
  fired : list Event           (* every notification published so far, oldest first *)
}.

Definition empty : t := {| listeners := []; fired := [] |}.

(** Modelled from the spec: [fire] of the missing EventEmitter publishes one
    notification of the given name and payload to the subscribers; the
    notification is recorded whether or not anybody listens. *)
Definition fire (e : Event) (em : t) : t :=
  {| listeners := listeners em; fired := fired em ++ [e] |}.

(** Modelled from the spec: [listen] of the missing EventEmitter registers
    one more subscriber for the name. *)
Definition listen (evname : string) (em : t) : t :=
  {| listeners := listeners em ++ [evname]; fired := fired em |}.

(** Modelled from the spec: [hasListeners] of the missing EventEmitter tells
    whether the name has at least one registered subscriber. *)
Definition hasListeners (evname : string) (em : t) : bool :=
  bool_decide (evname ∈ listeners em).

(** The notifications called [evname] among the published ones. *)
Definition published (evname : string) (em : t) : list Event :=
  filter (λ e, name e = evname) (fired em).

End EventEmitter.

(** ** Presentable *)

Module Presentable.
Import Js.

Record Session := mkSession {
  connectionId : string;
  presence : string
}.

(** The [sessions] object, an Array ([var sessions = []]) that the code
    uses as a map from connection ids to sessions: its own enumerable
    properties in the order [Object.keys] lists them, which is array indices
    in ascending order and then the other keys in the order of their
    creation.  The array's [length] is never read and is left out. *)
Definition Sessions := list (string * Session).

(** [sessions[k]] for an own property [k] *)
Fixpoint get (k : string) (o : Sessions) : option Session :=
  match o with
  | [] => None
  | (k', v) :: o' => if String.eqb k' k then Some v else get k o'
  end.

(** [Object.keys(sessions)] *)
Definition keys (o : Sessions) : list string := o.*1.

(** [k] as an array index: [k] parses as a number below 2^32 - 1 and is the
    string that this number prints as (so "7" is the index 7, and "07",
    "+7", "7.0" and "4294967295" are ordinary keys). *)
Definition array_index (k : string) : option N :=
  match DecimalString.NilZero.uint_of_string k with
  | Some d =>
      let n := N.of_uint d in
      if String.eqb (DecimalString.NilZero.string_of_uint (N.to_uint n)) k
         && (n <? 4294967295)%N
      then Some n
      else None
  | None => None
  end.

(** Assignment to an own property: the property keeps its place. *)
Fixpoint overwrite (k : string) (v : Session) (o : Sessions) : Sessions :=
  match o with
  | [] => []
  | (k', v') :: o' =>
      if String.eqb k' k then (k, v) :: o' else (k', v') :: overwrite k v o'
  end.

(** A new array index is listed before the first key that is not an array
    index or is a larger one. *)
Fixpoint insert_index (n : N) (k : string) (v : Session) (o : Sessions) : Sessions :=
  match o with
  | [] => [(k, v)]
  | (k', v') :: o' =>
      match array_index k' with
      | Some n' => if (n' <? n)%N then (k', v') :: insert_index n k v o' else (k, v) :: o
      | None => (k, v) :: o
      end
  end.

(** [sessions[k] = v] on the Array, [v] being an object.  ['length'] is
    the array's own length: setting it to an object throws a RangeError.
    An own property is overwritten.  ['__proto__'], when it is not an own
    property, reaches the setter of [Object.prototype]: [v] becomes the
    array's prototype and no property is created; nothing in the sources
    reads a property of [sessions] that is not its own, so the prototype is
    not recorded.  Every other key becomes a new own property. *)
Definition set (k : string) (v : Session) (o : Sessions) : Completion Sessions :=
  if String.eqb k "length" then Throw (RangeError "Invalid array length")
  else
    match get k o with
    | Some _ => Normal (overwrite k v o)
    | None =>
        if String.eqb k "__proto__" then Normal o
        else
          match array_index k with
          | Some n => Normal (insert_index n k v o)
          | None => Normal (o ++ [(k, v)])
          end
    end.

Record t := mk {
  sessions : Sessions;
  resolved : string;                               (* the private [presence] variable *)
  resolvePresence : option (Sessions → string);    (* [that.resolvePresence], when a function *)
  emitter : EventEmitter.t
}.

(** A new Presentable: [sessions = []], [presence = 'unavailable']. *)
Definition new (resolver : option (Sessions → string)) : t :=
  {| sessions := []; resolved := "unavailable";
     resolvePresence := resolver; emitter := EventEmitter.empty |}.

Record SetPresenceParams := mkParams {
  p_presence : option string;
  p_connectionId : option string
}.

(** The presentable as [setPresence] leaves it, and how the invocation
    completes.  When the assignment to [sessions] throws, nothing of the
    presentable has changed yet. *)
Definition setPresence (params : SetPresenceParams) (that : t) : t * Completion () :=
  let presence := or_default (p_presence params) "available" in
  let connectionId := or_default (p_connectionId params) "local" in
  match set connectionId {| connectionId := connectionId; presence := presence |}
            (sessions that) with
  | Throw e => (that, Throw e)
  | Normal sessions' =>
      let resolved' :=
        match resolvePresence that with
        | Some resolve => resolve sessions'
        | None => presence
        end in
      ({| sessions := sessions';
          resolved := resolved';
          resolvePresence := resolvePresence that;
          emitter := EventEmitter.fire (EventEmitter.presence_event resolved')
                                       (emitter that) |},
       Normal ())
  end.

Definition getPresence (that : t) : string := resolved that.

End Presentable.

(** ** Endpoint *)

Module Endpoint.
Import Js.

(** *** resolvePresence *)

Definition options : list string :=
  ["chat"; "available"; "away"; "dnd"; "xa"; "unavailable"].

(** [params.sessions[a].presence].  The sorter and the final selection only
    read keys returned by [Object.keys], for which the property exists (see
    [get_keys]); the default is never reached there. *)
Definition presence_of (sessions : Presentable.Sessions) (a : string) : string :=
  from_option Presentable.presence "" (Presentable.get a sessions).

(** [options.indexOf(p)], with [-1] replaced by [1000]. *)
Definition priority (p : string) : Z :=
  let index := indexOf String.eqb options p in
  if Z.eqb index (-1) then 1000 else index.

Definition sorter (sessions : Presentable.Sessions) (a b : string) : Z :=
  let indexA := priority (presence_of sessions a) in
  let indexB := priority (presence_of sessions b) in
  if indexA <? indexB then -1 else if indexB <? indexA then 1 else 0.

Definition resolvePresence (sessions : Presentable.Sessions) : string :=
  let connectionIds := sort (sorter sessions) (Presentable.keys sessions) in
  match connectionIds with
  | first :: _ =>
      (* [connectionIds[0] ? ... : 'unavailable'] tests the key's truthiness *)
      if truthy first then presence_of sessions first else "unavailable"
  | [] => "unavailable"
  end.

(** An Endpoint is a Presentable that has [resolvePresence]. *)
Definition new_presentable : Presentable.t := Presentable.new (Some resolvePresence).

(** *** The signaling channel, as the list of requests handed to it *)

Inductive Signal :=
| signal_string (s : string)
| signal_object (fields : list (string * string)).

(** [!!params.signal] *)
Definition signal_truthy (o : option Signal) : bool :=
  match o with
  | Some (signal_string s) => truthy s
  | Some (signal_object _) => true
  | None => false
  end.

Inductive TransportCall :=
| sendMessage_call (connectionId : option string) (message : option string)
                   (recipient : option string)
| sendSignal_call (connectionId : option string) (signal : option Signal)
                  (recipient : option string).

Record DirectConnection := mkDC {
  dc_ref : nat;                     (* identity of the object *)
  dc_initiator : bool;
  dc_servers : list string
}.

(** Methods of a direct connection invoked by the endpoint. *)
Inductive DCOp := dc_accept | dc_reject | dc_listen_close | dc_ignore.

Record t := mk {
  id : option string;
  directConnection : option DirectConnection
}.

(** What an endpoint's methods read and change besides the endpoint.  The
    client, the signaling channel and the DirectConnection class are not
    among the sources: a request handed to the channel and a method invoked
    on a connection are recorded in the order they are made. *)
Record World := mkWorld {
  that : t;
  user : EventEmitter.t;                     (* [clientObj.user] as an emitter *)
  default_servers : list string;             (* [clientObj.getCallSettings().servers] *)
  next_ref : nat;                            (* identity of the next constructed object *)
  dc_ops : list (nat * DCOp);                (* method calls on direct connections *)
  channel : list TransportCall;              (* requests handed to the signaling channel *)
  log : list (string * string)               (* [log.warn] / [log.error] lines *)
}.

Definition with_that (x : t) (w : World) : World :=
  mkWorld x (user w) (default_servers w) (next_ref w) (dc_ops w) (channel w) (log w).
Definition with_user (u : EventEmitter.t) (w : World) : World :=
  mkWorld (that w) u (default_servers w) (next_ref w) (dc_ops w) (channel w) (log w).
(** Modelled from the spec: the missing constructor
    [brightstream.DirectConnection(params)] returns a new object, distinct
    from every object constructed before. *)
Definition alloc (w : World) : World :=
  mkWorld (that w) (user w) (default_servers w) (S (next_ref w)) (dc_ops w) (channel w) (log w).
(** Modelled from the spec: [accept], [reject], [listen] and [ignore] of the
    missing DirectConnection class, as invocations on the object [r]. *)
Definition dc_call (r : nat) (op : DCOp) (w : World) : World :=
  mkWorld (that w) (user w) (default_servers w) (next_ref w) (dc_ops w ++ [(r, op)])
          (channel w) (log w).
(** Modelled from the spec: [sendMessage] and [sendSignal] of the missing
    signaling channel take the request and complete it asynchronously. *)
Definition transport (c : TransportCall) (w : World) : World :=
  mkWorld (that w) (user w) (default_servers w) (next_ref w) (dc_ops w)
          (channel w ++ [c]) (log w).
Definition logged (level msg : string) (w : World) : World :=
  mkWorld (that w) (user w) (default_servers w) (next_ref w) (dc_ops w) (channel w)
          (log w ++ [(level, msg)]).

(** *** sendSignal *)

Record SendSignalParams := mkSendSignal {
  s_signal : option Signal;
  s_connectionId : option string
}.

(** The synchronous part of [sendSignal]: the state of the returned
    promise's deferred when the method returns, and the world. *)
Definition sendSignal (params : SendSignalParams) (w : World) : Deferred * World :=
  let deferred := pending in
  let deferred :=
    if negb (signal_truthy (s_signal params))
    then reject (mkError "Can't send a signal without a 'signal' paramter.") deferred
    else deferred in
  (* no [return] after the rejection: the request is issued in both cases *)
  let w := transport (sendSignal_call (s_connectionId params) (s_signal params)
                                      (id (that w))) w in
  (deferred, w).

(** The [done] handlers attached to the channel's promise. *)
Definition sendSignal_done (outcome : option Error) (deferred : Deferred) : Deferred :=
  match outcome with
  | None => resolve deferred
  | Some err => reject err deferred
  end.

(** *** getDirectConnection *)

Record DirectConnectionParams := mkDCParams {
  d_initiator : option bool;          (* [undefined] means [true] *)
  d_servers : option (list string)
}.

Definition getDirectConnection (params : DirectConnectionParams) (w : World)
  : option DirectConnection * World :=
  match directConnection (that w) with
  | Some cached => (Some cached, w)
  | None =>
      let initiator := default true (d_initiator params) in
      if negb (truthy_opt (id (that w))) then
        (None, logged "error" "Can't start a direct connection without endpoint ID!" w)
      else
        let servers := default (default_servers w) (d_servers params) in
        let dc := mkDC (next_ref w) initiator servers in
        let w := with_that (mk (id (that w)) (Some dc)) (alloc w) in
        let w :=
          if initiator then dc_call (dc_ref dc) dc_accept w
          else
            let w := with_user
                       (EventEmitter.fire
                          (EventEmitter.direct_connection_event (dc_ref dc) (id (that w)))
                          (user w)) w in
            if negb (EventEmitter.hasListeners "direct-connection" (user w)) then
              dc_call (dc_ref dc) dc_reject
                (logged "warn"
                   "Got an incoming direct connection with no handlers to accept it!" w)
            else w in
        let w := dc_call (dc_ref dc) dc_listen_close w in
        (Some dc, w)
  end.

(** The listener registered on the connection's ['close'] notification. *)
Definition on_close (w : World) : Completion World :=
  match directConnection (that w) with
  | Some dc =>
      Normal (with_that (mk (id (that w)) None) (dc_call (dc_ref dc) dc_ignore w))
  | None => Throw (TypeError "that.directConnection.ignore")
  end.

End Endpoint.

(** ** User *)

Module User.
Import Js.

(** A call or direct connection held by the user.  The Call class is not
    among the sources: of a call the user reads [id], [className] and
    [initiator], and invokes [reject()], which is recorded in [rejected];
    what the call does in its [reject()] is its own. *)
Record Call := mkCall {
  ref : nat;                 (* identity of the object *)
  id : option string;
  className : string;
  initiator : bool           (* truthiness of [call.initiator] *)
}.

(** [a === b] on call objects. *)
Definition same (a b : Call) : bool := Nat.eqb (ref a) (ref b).

Record t := mk {
  calls : list Call;
  emitter : EventEmitter.t;
  rejected : list nat;               (* calls on which [reject()] was invoked *)
  log : list (string * string)
}.

Definition new : t :=
  {| calls := []; emitter := EventEmitter.empty; rejected := []; log := [] |}.

Record AddCallParams := mkAddCall {
  a_call : Call;
  a_endpoint : option string
}.

Definition addCall (params : AddCallParams) (that : t) : t :=
  let call := a_call params in
  if Z.eqb (indexOf same (calls that) call) (-1) then
    let calls' := calls that ++ [call] in
    if String.eqb (className call) "brightstream.Call" then
      if negb (initiator call) && negb (EventEmitter.hasListeners "call" (emitter that)) then
        mk calls' (emitter that) (rejected that ++ [ref call])
           (log that ++ [("warn", "Got an incoming call with no handlers to accept it!")])
      else
        mk calls'
           (EventEmitter.fire (EventEmitter.call_event (a_endpoint params) (ref call))
                              (emitter that))
           (rejected that) (log that)
    else mk calls' (emitter that) (rejected that) (log that)
  else that.

Record RemoveCallParams := mkRemoveCall {
  r_id : option string;
  r_call : option Call
}.

(** [calls[i].id === params.id || (params.call && calls[i] === params.call)] *)
Definition matches (params : RemoveCallParams) (c : Call) : bool :=
  bool_decide (id c = r_id params)
  || match r_call params with Some c' => same c c' | None => false end.

(** The entry that [removeCall(params)] is about, in the words of the
    specification ("locates call(s) by id or by reference"): an entry with
    the id given, when an id is given, or the call given, when a call is
    given.  It is stated apart from the loop's test, to compare the two. *)
Definition located (params : RemoveCallParams) (c : Call) : bool :=
  match r_id params with Some i => bool_decide (id c = Some i) | None => false end
  || match r_call params with Some c' => same c c' | None => false end.

(** The loop [for (i = n - 1; i >= 0; i -= 1)], entered with [n = i + 1];
    [calls.splice(i)] keeps the first [i] entries.  The result is the
    array as the loop leaves it and how the loop completes. *)
Fixpoint removeCall_loop (params : RemoveCallParams) (n : nat)
         (calls : list Call) (matched : bool) : list Call * Completion bool :=
  match n with
  | O => (calls, Normal matched)
  | S i =>
      match calls !! i with
      | None => (calls, Throw (TypeError "calls[i].id"))
      | Some c =>
          if matches params c
          then removeCall_loop params i (take i calls) true
          else removeCall_loop params i calls matched
      end
  end.

(** The user as [removeCall] leaves it, and how the call completes. *)
Definition removeCall (params : RemoveCallParams) (that : t) : t * Completion () :=
  if negb (truthy_opt (r_id params)) && negb (bool_decide (is_Some (r_call params))) then
    (that, Throw (mkError "Must specify endpointId of Call to remove or the call itself."))
  else
    let '(calls', completion) :=
      removeCall_loop params (length (calls that)) (calls that) false in
    match completion with
    | Throw e => (mk calls' (emitter that) (rejected that) (log that), Throw e)
    | Normal matched =>
        (mk calls' (emitter that) (rejected that)
            (if matched then log that
             else log that ++ [("warn", "No call removed.")]),
         Normal ())
    end.

Definition getCalls (that : t) : list Call := calls that.

(** A sequence of [addCall] invocations, first to last. *)
Definition addCalls (ps : list AddCallParams) (that : t) : t :=
  foldl (λ u p, addCall p u) that ps.

End User.

(** ** LocalMedia *)

Module LocalMedia.
Import Js.

(** *** Capture constraints

    The fields of a constraints object are the ones the code reads or
    writes.  Constraints are values: an instance's constraints change only
    inside [requestMedia] and the chooser's callback, before the stream is
    cached under them. *)

Record Mandatory := mkMandatory {
  m_chromeMediaSource : option string;
  chromeMediaSourceId : option string
}.

(** The value of [constraints.audio] or [constraints.video]. *)
Inductive Media :=
| media_flag (b : bool)
| media_object (mandatory : option Mandatory)
               (chromeMediaSource : option string) (mediaSource : option string).

Record Constraints := mkConstraints {
  audio : option Media;
  video : option Media;
  fake : bool                 (* [constraints.fake === true] *)
}.

#[export] Instance Mandatory_eq_dec : EqDecision Mandatory.
Proof. solve_decision. Defined.
#[export] Instance Media_eq_dec : EqDecision Media.
Proof. solve_decision. Defined.
#[export] Instance Constraints_eq_dec : EqDecision Constraints.
Proof. solve_decision. Defined.

(** Modelled from the spec: [respoke.isEqual], missing from the sources,
    compares two constraints objects (or [undefined]) by structure. *)
Definition isEqual (a b : option Constraints) : bool := bool_decide (a = b).

(** Modelled from the spec: [respoke.clone], missing from the sources,
    returns a structural copy; constraints being values here, the copy is
    the value. *)
Definition clone (c : option Constraints) : option Constraints := c.

(** [delete sConstraints.video.mandatory.chromeMediaSourceId] under its three
    truthiness guards, in [getStream]. *)
Definition strip (c : Constraints) : Constraints :=
  match video c with
  | Some (media_object (Some m) cms ms) =>
      if truthy_opt (chromeMediaSourceId m)
      then mkConstraints (audio c)
             (Some (media_object (Some (mkMandatory (m_chromeMediaSource m) None)) cms ms))
             (fake c)
      else c
  | _ => c
  end.

(** [constraints.video.mandatory.chromeMediaSourceId], when the path exists. *)
Definition sourceId_of (c : Constraints) : option string :=
  match video c with
  | Some (media_object (Some m) _ _) => chromeMediaSourceId m
  | _ => None
  end.

(** *** Streams, tracks and the process-wide cache *)

Record Track := mkTrack { enabled : bool }.

(** A [MediaStream] object.  [numPc] is the count the cache keeps on the
    stream itself; [stopped] records that [stream.stop()] was called; an
    ['ended'] notification is delivered by the engine later, never from
    inside [stream.stop()]. *)
Record Stream := mkStream {
  numPc : num;
  audioTracks : list Track;
  videoTracks : list Track;
  stopped : bool;
  ended_listeners : list string     (* ids of the instances whose [stop] listens for ['ended'] *)
}.

(** An element of [respoke.streams]. *)
Record CacheEntry := mkEntry {
  e_stream : nat;                           (* reference to the stream object *)
  e_constraints : option Constraints
}.

Record Platform := mkPlatform {
  useFakeMedia : bool;
  isNwjs : bool;
  needsChromeExtension : bool;
  hasChromeExtension : bool;
  needsFirefoxExtension : bool;
  hasFirefoxExtension : bool
}.

(** The [respoke] namespace: the stream objects, the cache, the platform. *)
Record Respoke := mkRespoke {
  heap : gmap nat Stream;
  streams : list CacheEntry;
  platform : Platform
}.

Definition with_heap (h : gmap nat Stream) (w : Respoke) : Respoke :=
  mkRespoke h (streams w) (platform w).
Definition with_streams (l : list CacheEntry) (w : Respoke) : Respoke :=
  mkRespoke (heap w) l (platform w).

(** Field updates of a stream object. *)
Definition set_numPc (n : num) (s : Stream) : Stream :=
  mkStream n (audioTracks s) (videoTracks s) (stopped s) (ended_listeners s).
Definition set_audioTracks (l : list Track) (s : Stream) : Stream :=
  mkStream (numPc s) l (videoTracks s) (stopped s) (ended_listeners s).
Definition set_videoTracks (l : list Track) (s : Stream) : Stream :=
  mkStream (numPc s) (audioTracks s) l (stopped s) (ended_listeners s).
Definition set_stopped (s : Stream) : Stream :=
  mkStream (numPc s) (audioTracks s) (videoTracks s) true (ended_listeners s).
Definition add_ended_listener (i : string) (s : Stream) : Stream :=
  mkStream (numPc s) (audioTracks s) (videoTracks s) (stopped s) (ended_listeners s ++ [i]).

(** Reads through a stream reference. *)
Definition numPc_of (w : Respoke) (r : nat) : num := heap w !! r ≫= numPc.
Definition getVideoTracks (w : Respoke) (r : nat) : list Track :=
  from_option videoTracks [] (heap w !! r).
Definition getAudioTracks (w : Respoke) (r : nat) : list Track :=
  from_option audioTracks [] (heap w !! r).
Definition is_stopped (w : Respoke) (r : nat) : bool :=
  from_option stopped false (heap w !! r).

(** Writes through a stream reference. *)
Definition update (r : nat) (f : Stream → Stream) (w : Respoke) : Respoke :=
  with_heap (alter f r (heap w)) w.

Record Element := mkElement {
  attached : option nat;
  muted : bool;
  autoplay : bool
}.

(** [document.createElement('video')] *)
Definition createElement : Element := mkElement None false false.

(** *** The instance *)

Record t := mk {
  id : string;
  constraints : option Constraints;
  temporary : bool;
  stream : option nat;
  element : option Element;
  screenShareSource : option string;
  deferred : Deferred;
  allowTimer : nat;                   (* the handle kept in [allowTimer], [0] at first *)
  timers : list nat;                  (* the timers of this instance that are pending *)
  timer_seq : nat;                    (* how many timers this instance has set *)
  emitter : EventEmitter.t
}.

Definition with_constraints (c : option Constraints) (x : t) : t :=
  mk (id x) c (temporary x) (stream x) (element x) (screenShareSource x)
     (deferred x) (allowTimer x) (timers x) (timer_seq x) (emitter x).
Definition with_stream (s : option nat) (x : t) : t :=
  mk (id x) (constraints x) (temporary x) s (element x) (screenShareSource x)
     (deferred x) (allowTimer x) (timers x) (timer_seq x) (emitter x).
Definition with_element (e : option Element) (x : t) : t :=
  mk (id x) (constraints x) (temporary x) (stream x) e (screenShareSource x)
     (deferred x) (allowTimer x) (timers x) (timer_seq x) (emitter x).
Definition with_deferred (d : Deferred) (x : t) : t :=
  mk (id x) (constraints x) (temporary x) (stream x) (element x) (screenShareSource x)
     d (allowTimer x) (timers x) (timer_seq x) (emitter x).
Definition with_timers (l : list nat) (x : t) : t :=
  mk (id x) (constraints x) (temporary x) (stream x) (element x) (screenShareSource x)
     (deferred x) (allowTimer x) l (timer_seq x) (emitter x).
Definition fire (e : EventEmitter.Event) (x : t) : t :=
  mk (id x) (constraints x) (temporary x) (stream x) (element x) (screenShareSource x)
     (deferred x) (allowTimer x) (timers x) (timer_seq x) (EventEmitter.fire e (emitter x)).

(** [allowTimer = setTimeout(delayPermissionsRequest, 500)].  The handles
    that [setTimeout] returns are positive and pairwise distinct; those given
    to this instance are numbered 1, 2, ... here.  The handle kept before is
    overwritten, and its timer is not cleared. *)
Definition setTimeout (x : t) : t :=
  let handle := S (timer_seq x) in
  mk (id x) (constraints x) (temporary x) (stream x) (element x) (screenShareSource x)
     (deferred x) handle (timers x ++ [handle]) handle (emitter x).

(** [clearTimeout(allowTimer)]: the timer of the handle kept, if it is still
    pending, will not expire; [0] is the handle of no timer. *)
Definition clearTimeout (x : t) : t :=
  with_timers (filter (λ handle, handle ≠ allowTimer x) (timers x)) x.

(** A new instance with the given constraints. *)
Definition new (i : string) (c : option Constraints) : t :=
  mk i c false None None None pending 0 [] 0 EventEmitter.empty.

(** *** The cache *)

(** [getStream(theConstraints)]: the stream of the first entry whose
    stripped clone equals [theConstraints].  Reading [.video] of an entry
    stored without constraints throws. *)
Fixpoint getStream (theConstraints : option Constraints) (l : list CacheEntry)
  : Completion (option nat) :=
  match l with
  | [] => Normal None
  | s :: l' =>
      match clone (e_constraints s) with
      | None => Throw (TypeError "sConstraints.video")
      | Some sConstraints =>
          if isEqual (Some (strip sConstraints)) theConstraints
          then Normal (Some (e_stream s))
          else getStream theConstraints l'
      end
  end.

(** The search loop of [removeStream]: the first index whose stored
    constraints equal [theConstraints], unstripped. *)
Fixpoint toRemoveIndex (theConstraints : option Constraints) (l : list CacheEntry)
  : option nat :=
  match l with
  | [] => None
  | s :: l' =>
      if isEqual (e_constraints s) theConstraints then Some O
      else S <$> toRemoveIndex theConstraints l'
  end.

Definition removeStream (theConstraints : option Constraints) (l : list CacheEntry)
  : list CacheEntry :=
  match toRemoveIndex theConstraints l with
  | Some i => delete i l            (* [splice(i, 1)] *)
  | None => l
  end.

(** *** Capture

    The methods below return the instance and the namespace as they leave
    them; what a method that throws a [TypeError] has changed before the
    throw is not tracked. *)

Definition onReceiveUserMedia (theStream : nat) (that : t) (w : Respoke)
  : Completion (t * Respoke) :=
  let that := with_stream (Some theStream) that in
  let that := clearTimeout that in
  let that := fire EventEmitter.allow_event that in
  let that := with_element (Some (default createElement (element that))) that in
  aStream ← getStream (constraints that) (streams w);
  match aStream with
  | Some aStream =>
      let w := update aStream (λ s, set_numPc (num_add (numPc s) 1) s) w in
      let that := with_element (Some (mkElement (Some theStream) true true)) that in
      let w := update aStream (add_ended_listener (id that)) w in
      Normal (with_deferred (resolve (deferred that)) that, w)
  | None =>
      let w := update theStream (set_numPc (Some 1)) w in
      let w := with_streams (streams w ++ [mkEntry theStream (constraints that)]) w in
      let that := with_element (Some (mkElement (Some theStream) true true)) that in
      let w := update theStream (add_ended_listener (id that)) w in
      Normal (with_deferred (resolve (deferred that)) that, w)
  end.

(** What the synchronous part of [start] leaves in flight. *)
Inductive Request :=
| no_request
| gum_request (c : Constraints)               (* [getUserMedia(that.constraints, ...)] *)
| chooser_request (source : option string).   (* [respoke.chooseDesktopMedia({source}, ...)] *)

Definition requestingScreenShare (c : Constraints) : Completion bool :=
  match video c with
  | None => Throw (TypeError "that.constraints.video.mandatory")
  | Some (media_flag _) => Normal false
  | Some (media_object m cms ms) =>
      Normal (match m with Some m => truthy_opt (m_chromeMediaSource m) | None => false end
              || truthy_opt cms || truthy_opt ms)
  end.

(** [if (respoke.useFakeMedia === true) { that.constraints.fake = true; }] *)
Definition apply_fake (p : Platform) (c : Constraints) : Constraints :=
  if useFakeMedia p then mkConstraints (audio c) (video c) true else c.

Definition requestMedia (that : t) (w : Respoke) : Completion (t * Respoke * Request) :=
  match constraints that with
  | None =>
      Normal (with_deferred (reject (mkError "No constraints.") (deferred that)) that,
              w, no_request)
  | Some c =>
      let c := apply_fake (platform w) c in
      let that := with_constraints (Some c) that in
      theStream ← getStream (Some c) (streams w);
      match theStream with
      | Some theStream =>
          '(that, w) ← onReceiveUserMedia theStream that w;
          Normal (that, w, no_request)
      | None =>
          let that := setTimeout that in
          screen ← requestingScreenShare c;
          if screen : bool then
            let p := platform w in
            if isNwjs p || (needsChromeExtension p && hasChromeExtension p) then
              Normal (that, w, chooser_request (screenShareSource that))
            else if needsFirefoxExtension p && hasFirefoxExtension p then
              Normal (that, w, gum_request c)
            else
              Normal (with_deferred
                        (reject (mkError "Screen sharing not implemented on this platform yet.")
                                (deferred that)) that,
                      w, no_request)
          else Normal (that, w, gum_request c)
      end
  end.

(** The callback given to [respoke.chooseDesktopMedia]. *)
Definition on_desktop_media (sourceId : option string) (error : string) (that : t)
  : Completion (t * Request) :=
  if negb (truthy_opt sourceId) then
    Normal (with_deferred
              (reject (mkError ("Error trying to get screensharing source: " +:+ error))
                      (deferred that)) that,
            no_request)
  else
    match constraints that with
    | Some (mkConstraints a (Some (media_object (Some m) cms ms)) f) =>
        let c := mkConstraints a
                   (Some (media_object (Some (mkMandatory (m_chromeMediaSource m) sourceId))
                                       cms ms)) f in
        Normal (with_constraints (Some c) that, gum_request c)
    | _ => Throw (TypeError "that.constraints.video.mandatory.chromeMediaSourceId")
    end.

Definition onUserMediaError (code : Z) (that : t) : t :=
  let errorMessage := if Z.eqb code 1 then "Permission denied." else "Unknown." in
  with_deferred
    (reject (mkError ("Error getting user media: " +:+ errorMessage)) (deferred that)) that.

(** The timer with the given handle, set in [requestMedia], expiring:
    [delayPermissionsRequest] runs if the timer is pending. *)
Definition on_allow_timer (handle : nat) (that : t) : t :=
  if bool_decide (handle ∈ timers that)
  then fire EventEmitter.requesting_media_event
            (with_timers (filter (λ h, h ≠ handle) (timers that)) that)
  else that.

Definition start (that : t) (w : Respoke) : Completion (t * Respoke * Request) :=
  if temporary that then
    Normal (with_deferred
              (reject (mkError "Temporary local media started!") (deferred that)) that,
            w, no_request)
  else requestMedia that w.

(** The answers of the source chooser and of the media engine to one
    [start()]. *)
Record Answers := mkAnswers {
  chosen_sourceId : option string;
  chooser_error : string;
  captured : nat                   (* the stream object handed to [onReceiveUserMedia] *)
}.

(** [start()] with the chooser and the engine answering successfully before
    anything else runs. *)
Definition start_and_capture (a : Answers) (that : t) (w : Respoke)
  : Completion (t * Respoke) :=
  '(that, w, req) ← start that w;
  match req with
  | no_request => Normal (that, w)
  | gum_request _ => onReceiveUserMedia (captured a) that w
  | chooser_request _ =>
      '(that, req) ← on_desktop_media (chosen_sourceId a) (chooser_error a) that;
      match req with
      | gum_request _ => onReceiveUserMedia (captured a) that w
      | _ => Normal (that, w)
      end
  end.

(** *** Mute *)

(** [undefined] is [None]. *)
Definition all_disabled (tracks : list Track) : option bool :=
  match tracks with
  | [] => None
  | _ => Some (forallb (λ track, negb (enabled track)) tracks)
  end.

Definition isVideoMuted (that : t) (w : Respoke) : option bool :=
  match stream that with
  | None => None
  | Some r => all_disabled (getVideoTracks w r)
  end.

Definition isAudioMuted (that : t) (w : Respoke) : option bool :=
  match stream that with
  | None => None
  | Some r => all_disabled (getAudioTracks w r)
  end.

(** Truthiness of [true], [false] or [undefined]. *)
Definition truthy_bool (o : option bool) : bool := default false o.

(** [tracks.forEach(track => track.enabled = b)] *)
Definition eachTrack (b : bool) (tracks : list Track) : list Track :=
  (λ _, mkTrack b) <$> tracks.

Definition muteVideo (that : t) (w : Respoke) : Completion (t * Respoke) :=
  if truthy_bool (isVideoMuted that w) then Normal (that, w)
  else
    match stream that with
    | None => Throw (TypeError "that.stream.getVideoTracks")
    | Some r =>
        Normal (fire (EventEmitter.mute_event "video" true) that,
                update r (λ s, set_videoTracks (eachTrack false (videoTracks s)) s) w)
    end.

Definition unmuteVideo (that : t) (w : Respoke) : Completion (t * Respoke) :=
  if negb (truthy_bool (isVideoMuted that w)) then Normal (that, w)
  else
    match stream that with
    | None => Throw (TypeError "that.stream.getVideoTracks")
    | Some r =>
        Normal (fire (EventEmitter.mute_event "video" false) that,
                update r (λ s, set_videoTracks (eachTrack true (videoTracks s)) s) w)
    end.

Definition muteAudio (that : t) (w : Respoke) : Completion (t * Respoke) :=
  if truthy_bool (isAudioMuted that w) then Normal (that, w)
  else
    match stream that with
    | None => Throw (TypeError "that.stream.getAudioTracks")
    | Some r =>
        Normal (fire (EventEmitter.mute_event "audio" true) that,
                update r (λ s, set_audioTracks (eachTrack false (audioTracks s)) s) w)
    end.

Definition unmuteAudio (that : t) (w : Respoke) : Completion (t * Respoke) :=
  if negb (truthy_bool (isAudioMuted that w)) then Normal (that, w)
  else
    match stream that with
    | None => Throw (TypeError "that.stream.getAudioTracks")
    | Some r =>
        Normal (fire (EventEmitter.mute_event "audio" false) that,
                update r (λ s, set_audioTracks (eachTrack true (audioTracks s)) s) w)
    end.

(** *** stop *)

Definition stop (that : t) (w : Respoke) : t * Respoke :=
  match stream that with
  | None => (that, w)
  | Some r =>
      let w := update r (λ s, set_numPc (num_add (numPc s) (-1)) s) w in
      let w :=
        if num_is (numPc_of w r) 0
        then with_streams (removeStream (constraints that) (streams w))
                          (update r set_stopped w)
        else w in
      (fire EventEmitter.stop_event (with_stream None that), w)
  end.

Definition hasMedia (that : t) : bool := bool_decide (is_Some (stream that)).

End LocalMedia.

(** ** SignalingChannel (the abstract base class) *)

Module SignalingChannel.

(** The private [state] variable. *)
Definition t := string.

Definition new : t := "new".

Definition open (state : t) : t := "open".

Definition close (state : t) : t := "closed".

Definition getState (state : t) : string := state.

Definition isOpen (state : t) : bool := String.eqb state "open".

(** [send] has an empty body. *)
Definition send (message : string) (state : t) : t := state.

(** The methods that a caller may invoke on a channel. *)
Inductive Method :=
| call_open
| call_close
| call_send (message : string).

Definition invoke (state : t) (m : Method) : t :=
  match m with
  | call_open => open state
  | call_close => close state
  | call_send message => send message state
  end.

(** A sequence of invocations, first to last. *)
Definition run (ms : list Method) (state : t) : t := foldl invoke state ms.

End SignalingChannel.

(** ** User: presence *)

Module UserPresence.
Import Js.

(** [User.setPresence]: the request handed to [signalingChannel.sendPresence]
    (its [presence]), and [params] as the method leaves them for the success
    handler.  The user's own state changes only in that handler. *)
Definition setPresence (params : Presentable.SetPresenceParams) (sent : list string)
  : Presentable.SetPresenceParams * list string :=
  let presence := or_default (Presentable.p_presence params) "available" in
  (Presentable.mkParams (Some presence) (Presentable.p_connectionId params),
   sent ++ [presence]).

(** The [onSuccess] handler given to [sendPresence]:
    [superClass.setPresence(params)]; what that throws, the handler
    throws. *)
Definition on_presence_sent (params : Presentable.SetPresenceParams) (that : Presentable.t)
  : Presentable.t * Completion () :=
  Presentable.setPresence params that.

Definition setOnline (params : Presentable.SetPresenceParams) (sent : list string)
  : Presentable.SetPresenceParams * list string :=
  let presence := or_default (Presentable.p_presence params) "available" in
  setPresence (Presentable.mkParams (Some presence) (Presentable.p_connectionId params)) sent.

(** A sequence of [Presentable.setPresence] invocations, first to last,
    each made on the presentable as the one before left it, whether that one
    returned or threw. *)
Definition setPresences (ps : list Presentable.SetPresenceParams) (that : Presentable.t)
  : Presentable.t :=
  foldl (λ x p, (Presentable.setPresence p x).1) that ps.

(** The order of [Object.keys] on an array: an array index is listed before
    every larger one and before every key that is not an array index. *)
Definition key_before (a b : string) : Prop :=
  match Presentable.array_index a, Presentable.array_index b with
  | Some n, Some m => (n < m)%N
  | Some _, None => True
  | None, Some _ => False
  | None, None => True
  end.

(** What [Presentable.setPresence] keeps true of the sessions: one property
    per connection id, listed in the order of [Object.keys], none under the
    empty id, each session filed under its own id. *)
Definition well_formed (o : Presentable.Sessions) : Prop :=
  NoDup (Presentable.keys o)
  ∧ StronglySorted key_before (Presentable.keys o)
  ∧ (∀ k, k ∈ Presentable.keys o → k ≠ "")
  ∧ (∀ k s, Presentable.get k o = Some s → Presentable.connectionId s = k).

End UserPresence.

(** ** Placing and finding calls: [Endpoint.call], its hangup listener and
    [User.getCall] *)

Module Calling.
Import Js.

Record CallSettings := mkSettings {
  cs_constraints : option LocalMedia.Constraints;
  cs_servers : list string
}.

Record CallParams := mkCallParams {
  c_initiator : option bool;                       (* [undefined] means [true] *)
  c_constraints : option LocalMedia.Constraints;
  c_servers : option (list string)
}.

(** Methods of a call invoked by the endpoint. *)
Inductive CallOp := call_answer | call_listen_hangup.

Record World := mkWorld {
  user : User.t;                          (* [clientObj.user] *)
  defaults : CallSettings;                (* [clientObj.getCallSettings()] *)
  next_ref : nat;                         (* identity of the next constructed object *)
  call_ops : list (nat * CallOp);         (* method calls on calls, in order *)
  settings : list (nat * CallSettings);   (* the settings each call was constructed with *)
  log : list (string * string)
}.

(** [Endpoint.call(params)] on the endpoint with id [endpoint]: the world as
    the method leaves it and how it completes.  [params] is [None] when the
    method is invoked without an argument.

    Modelled from the spec: the missing constructor [brightstream.Call(params)]
    returns a new object of class 'brightstream.Call' with the given
    [initiator]; [call_id] is the id that the constructor gives it.  The
    missing [clientObj.getCallSettings()] returns an object of its own on
    each invocation, holding [defaults w]; the two writes to it give
    [combined], and the client's defaults stay as they are. *)
Definition call (params : option CallParams) (endpoint : option string)
           (call_id : option string) (w : World) : World * Completion (option User.Call) :=
  match params with
  | None => (w, Throw (TypeError "params.initiator"))
  | Some params =>
      let initiator := default true (c_initiator params) in
      if negb (truthy_opt endpoint) then
        (mkWorld (user w) (defaults w) (next_ref w) (call_ops w) (settings w)
                 (log w ++ [("error", "Can't start a call without endpoint ID!")]),
         Normal None)
      else
        let combined :=
          mkSettings
            (match c_constraints params with
             | Some c => Some c
             | None => cs_constraints (defaults w)
             end)
            (default (cs_servers (defaults w)) (c_servers params)) in
        let c := User.mkCall (next_ref w) call_id "brightstream.Call" initiator in
        let ops := if initiator then call_ops w ++ [(User.ref c, call_answer)] else call_ops w in
        let user' := User.addCall (User.mkAddCall c endpoint) (user w) in
        (mkWorld user' (defaults w) (S (next_ref w))
                 (ops ++ [(User.ref c, call_listen_hangup)])
                 (settings w ++ [(User.ref c, combined)]) (log w),
         Normal (Some c))
  end.

(** The listener that [Endpoint.call] registers on the call's 'hangup':
    [user.removeCall({id: call.id})]. *)
Definition hangupListener (c : User.Call) (w : World) : World * Completion () :=
  let '(user', completion) := User.removeCall (User.mkRemoveCall (User.id c) None) (user w) in
  (mkWorld user' (defaults w) (next_ref w) (call_ops w) (settings w) (log w), completion).

(** The scan of [User.getCall]: [forEach] visits every call and keeps the
    last one that passes.  [remote one] is [one.remoteEndpoint.getID()] and
    [state one] is [one.getState()], both answered by the call. *)
Definition findCall (remote : User.Call → option string) (state : User.Call → Z)
           (id : option string) (calls : list User.Call) : option User.Call :=
  foldl (λ call one,
           if bool_decide (remote one = id)
           then if 6 <=? state one then call else Some one
           else call)
        None calls.

Record GetCallParams := mkGetCall {
  g_id : option string;
  g_create : bool                  (* [params.create === true] *)
}.

(** [User.getCall(params)].  The endpoint that [clientObj.getEndpoint] returns
    for [params.id] carries that id; what [endpoint.call] throws is caught
    and logged. *)
Definition getCall (remote : User.Call → option string) (state : User.Call → Z)
           (params : GetCallParams) (call_id : option string) (w : World)
  : World * option User.Call :=
  match findCall remote state (g_id params) (User.calls (user w)) with
  | Some found => (w, Some found)
  | None =>
      if g_create params then
        match call (Some (mkCallParams (Some false) None None)) (g_id params) call_id w with
        | (w', Normal result) => (w', result)
        | (w', Throw e) =>
            (mkWorld (user w') (defaults w') (next_ref w') (call_ops w') (settings w')
                     (log w' ++ [("error", "Couldn't create Call: " +:+ message e)]),
             None)
        end
      else (w, None)
  end.

End Calling.

(** ** LocalMedia: capability queries *)

Module Capabilities.

(** The private variables that the queries fall back on. *)
Record Flags := mkFlags {
  hasScreenShare_requested : bool;       (* truthiness of [params.hasScreenShare] *)
  sdpHasAudio : bool;
  sdpHasVideo : bool
}.

Definition hasScreenShare (f : Flags) (that : LocalMedia.t) (w : LocalMedia.Respoke) : bool :=
  match LocalMedia.stream that with
  | Some r =>
      bool_decide (0 < length (LocalMedia.getVideoTracks w r))%nat
      && hasScreenShare_requested f
  | None => hasScreenShare_requested f
  end.

Definition hasVideo (f : Flags) (that : LocalMedia.t) (w : LocalMedia.Respoke) : bool :=
  match LocalMedia.stream that with
  | Some r => bool_decide (0 < length (LocalMedia.getVideoTracks w r))%nat
  | None => sdpHasVideo f
  end.

Definition hasAudio (f : Flags) (that : LocalMedia.t) (w : LocalMedia.Respoke) : bool :=
  match LocalMedia.stream that with
  | Some r => bool_decide (0 < length (LocalMedia.getAudioTracks w r))%nat
  | None => sdpHasAudio f
  end.

End Capabilities.

(** * Properties *)

(** ** Presence *)

Section PresenceProperties.
Import Js Presentable Endpoint.

Lemma truthy_ne (s : string) : truthy s = true ↔ s ≠ "".
Proof.
  unfold truthy. destruct (String.eqb_spec s ""); simpl; split; congruence.
Qed.

(** Every key listed by [Object.keys] is a property of the object. *)
Lemma get_keys (k : string) (o : Sessions) :
  k ∈ keys o ↔ is_Some (get k o).
Proof.
  unfold keys. induction o as [|[k' v] o IH]; simpl.
  - split; [intros H; inversion H | intros [? ?]; discriminate].
  - destruct (String.eqb_spec k' k) as [->|Hne].
    + split; [eauto | intros _; left].
    + rewrite <- IH. split.
      * intros H. apply elem_of_cons in H as [?|?]; [congruence | done].
      * intros H. by right.
Qed.

(** The rank of a presence value in the sort: its index in [options], or
    [1000]. *)
Lemma priority_range (p : string) :
  (p ∈ options ∧ 0 ≤ priority p ∧ priority p ≤ 5)
  ∨ ((p ∉ options) ∧ priority p = 1000).
Proof.
  unfold priority, indexOf, options. cbn -[String.eqb].
  repeat match goal with
         | |- context [String.eqb ?a p] =>
             destruct (String.eqb_spec a p) as [<-|?];
             [left; split; [rewrite !elem_of_cons; tauto | simpl; lia] |]
         end.
  right. split; [|reflexivity].
  rewrite !elem_of_cons, elem_of_nil. intuition congruence.
Qed.

Lemma before_sorter (sessions : Sessions) (a b : string) :
  before (sorter sessions) a b ↔
  priority (presence_of sessions a) ≤ priority (presence_of sessions b).
Proof.
  unfold before, sorter.
  destruct (Z.ltb_spec (priority (presence_of sessions a))
                       (priority (presence_of sessions b))); [lia|].
  destruct (Z.ltb_spec (priority (presence_of sessions b))
                       (priority (presence_of sessions a))); lia.
Qed.

(** The sorter is a consistent comparison: the order it induces is total
    and transitive. *)
Lemma sorter_total (sessions : Sessions) : Total (before (sorter sessions)).
Proof. intros a b. rewrite !before_sorter. lia. Qed.

Lemma sorter_trans (sessions : Sessions) : Transitive (before (sorter sessions)).
Proof. intros a b c. rewrite !before_sorter. lia. Qed.

(** [sort] returns a permutation of its argument, sorted when the
    comparison is consistent. *)
Lemma sort_insert_Permutation {A} (cmp : A → A → Z) (x : A) (l : list A) :
  sort_insert cmp x l ≡ₚ x :: l.
Proof.
  induction l as [|y l IH]; simpl; [done|].
  destruct (0 <? cmp x y); [|done]. rewrite IH. apply Permutation_swap.
Qed.

Lemma sort_Permutation {A} (cmp : A → A → Z) (l : list A) : sort cmp l ≡ₚ l.
Proof.
  induction l as [|x l IH]; simpl; [done|].
  fold (sort cmp l). by rewrite sort_insert_Permutation, IH.
Qed.

Lemma sort_insert_sorted {A} (cmp : A → A → Z) (x : A) (l : list A) :
  Total (before cmp) → Transitive (before cmp) →
  StronglySorted (before cmp) l → StronglySorted (before cmp) (sort_insert cmp x l).
Proof.
  intros Htotal Htrans. induction 1 as [|y l Hsorted IH Hall]; simpl.
  - by repeat constructor.
  - destruct (Z.ltb_spec 0 (cmp x y)) as [Hafter|Hbefore].
    + constructor; [done|]. rewrite sort_insert_Permutation. constructor; [|done].
      destruct (Htotal x y) as [Hxy|Hyx]; [unfold before in Hxy; lia | done].
    + constructor; [by constructor|]. constructor; [done|].
      eapply Forall_impl; [exact Hall|]. intros z Hyz. by apply (Htrans x y z).
Qed.

Lemma sort_sorted {A} (cmp : A → A → Z) (l : list A) :
  Total (before cmp) → Transitive (before cmp) → StronglySorted (before cmp) (sort cmp l).
Proof.
  intros Htotal Htrans. induction l as [|x l IH]; simpl; [constructor|].
  by apply sort_insert_sorted.
Qed.

(** Array.prototype.sort leaves the key of a highest-priority session
    first. *)
Lemma sorted_head_least (sessions : Sessions) (first : string) (rest : list string) :
  sort (sorter sessions) (keys sessions) = first :: rest →
  first ∈ keys sessions ∧
  ∀ k, k ∈ keys sessions →
       priority (presence_of sessions first) ≤ priority (presence_of sessions k).
Proof.
  intros Hsort.
  pose proof (sort_Permutation (sorter sessions) (keys sessions)) as Hperm.
  pose proof (sort_sorted (sorter sessions) (keys sessions)
                (sorter_total sessions) (sorter_trans sessions)) as Hsorted.
  rewrite Hsort in Hperm, Hsorted.
  split.
  - rewrite <- Hperm. left.
  - intros k Hk. rewrite <- Hperm in Hk.
    apply StronglySorted_inv in Hsorted as [_ Hall].
    apply elem_of_cons in Hk as [->|Hk]; [lia|].
    rewrite Forall_forall in Hall. apply before_sorter. by apply Hall.
Qed.

Lemma sort_nil_inv (sessions : Sessions) :
  sort (sorter sessions) (keys sessions) = [] → sessions = [].
Proof.
  intros Hsort.
  pose proof (sort_Permutation (sorter sessions) (keys sessions)) as Hperm.
  rewrite Hsort in Hperm.
  symmetry in Hperm. apply Permutation_nil_r in Hperm.
  destruct sessions; [done | discriminate].
Qed.

End PresenceProperties.

(** C3 (as amended).  For every map of sessions whose connection ids are all
    non-empty strings, [resolvePresence] returns the presence value of one of
    the sessions, and its index in the order chat, available, away, dnd, xa,
    unavailable is at most that of every session's presence value; a value
    outside that order has index 1000, after every listed value; the empty
    map resolves to "unavailable". *)
Theorem resolvePresence_highest_priority (sessions : Presentable.Sessions) :
  (∀ k, k ∈ Presentable.keys sessions → k ≠ "") →
  (∀ k s, Presentable.get k sessions = Some s →
          Endpoint.priority (Endpoint.resolvePresence sessions)
          ≤ Endpoint.priority (Presentable.presence s))
  ∧ (sessions ≠ [] →
     ∃ k s, Presentable.get k sessions = Some s
            ∧ Endpoint.resolvePresence sessions = Presentable.presence s)
  ∧ (∀ p q, p ∉ Endpoint.options → q ∈ Endpoint.options →
            Endpoint.priority p = 1000 ∧ Endpoint.priority q < Endpoint.priority p)
  ∧ Endpoint.resolvePresence [] = "unavailable".
Proof.
  intros Hkeys. split_and!.
  - intros k s Hget. unfold Endpoint.resolvePresence.
    destruct (Js.sort _ _) as [|first rest] eqn:Hsort.
    { apply sort_nil_inv in Hsort. subst. discriminate. }
    apply sorted_head_least in Hsort as [Hin Hleast].
    assert (Js.truthy first = true) as -> by (apply truthy_ne; auto).
    assert (k ∈ Presentable.keys sessions) as Hk by (apply get_keys; eauto).
    specialize (Hleast k Hk). unfold Endpoint.presence_of at 2 in Hleast.
    by rewrite Hget in Hleast.
  - intros Hne. unfold Endpoint.resolvePresence.
    destruct (Js.sort _ _) as [|first rest] eqn:Hsort.
    { by apply sort_nil_inv in Hsort. }
    apply sorted_head_least in Hsort as [Hin _].
    assert (Js.truthy first = true) as -> by (apply truthy_ne; auto).
    apply get_keys in Hin as [s Hs]. exists first, s. split; [done|].
    unfold Endpoint.presence_of. by rewrite Hs.
  - intros p q Hp Hq.
    destruct (priority_range p) as [[? _]|[_ ->]]; [done|].
    destruct (priority_range q) as [[_ ?]|[? _]]; [lia | done].
  - reflexivity.
Qed.

(** The statement above applied to three sessions, one of them with a
    presence value outside the fixed order. *)
Lemma resolvePresence_highest_priority_witness :
  let sessions := [("a", Presentable.mkSession "a" "away");
                   ("b", Presentable.mkSession "b" "chat");
                   ("c", Presentable.mkSession "c" "busy")] in
  Endpoint.resolvePresence sessions = "chat"
  ∧ ∀ k s, Presentable.get k sessions = Some s →
           Endpoint.priority (Endpoint.resolvePresence sessions)
           ≤ Endpoint.priority (Presentable.presence s).
Proof.
  intros sessions. split; [reflexivity|].
  apply (resolvePresence_highest_priority sessions).
  intros k Hk. unfold sessions, Presentable.keys in Hk. simpl in Hk.
  rewrite !elem_of_cons, elem_of_nil in Hk.
  destruct Hk as [->|[->|[->|[]]]]; discriminate.
Defined.

(** C3 as stated fails on a map whose only session is stored under the empty
    connection id: [connectionIds[0]] is then falsy, the result is
    "unavailable" (index 5), and the session's own value "chat" has index 0. *)
Lemma resolvePresence_empty_connectionId :
  let sessions := [("", Presentable.mkSession "" "chat")] in
  Presentable.get "" sessions = Some (Presentable.mkSession "" "chat")
  ∧ Endpoint.resolvePresence sessions = "unavailable"
  ∧ ¬ (Endpoint.priority (Endpoint.resolvePresence sessions)
       ≤ Endpoint.priority (Presentable.presence (Presentable.mkSession "" "chat"))).
Proof.
  split_and!; [reflexivity | reflexivity |].
  vm_compute. intros H. by apply H.
Qed.

(** C4, the code at the failing input.  [sessions] is an Array: for the
    connection id 'length' the assignment [sessions[params.connectionId] = {...}]
    sets the array's length to an object and throws a RangeError, so the
    invocation ends before [fire], with no 'presence' notification published
    and the presentable as it was.  For every other connection id an
    invocation publishes exactly one 'presence' notification, carrying the
    newly resolved value, whatever the previous resolved value was, and two
    invocations with the same parameters publish exactly two. *)
Theorem setPresence_throws_for_length_id
        (params : Presentable.SetPresenceParams) (that : Presentable.t) :
  let connectionId := Js.or_default (Presentable.p_connectionId params) "local" in
  let once := Presentable.setPresence params that in
  let twice := Presentable.setPresence params once.1 in
  if String.eqb connectionId "length"
  then once = (that, Js.Throw (Js.RangeError "Invalid array length"))
       ∧ EventEmitter.published "presence" (Presentable.emitter once.1)
         = EventEmitter.published "presence" (Presentable.emitter that)
  else once.2 = Js.Normal ()
       ∧ EventEmitter.fired (Presentable.emitter once.1)
         = EventEmitter.fired (Presentable.emitter that)
             ++ [EventEmitter.presence_event (Presentable.getPresence once.1)]
       ∧ length (EventEmitter.published "presence" (Presentable.emitter once.1))
         = S (length (EventEmitter.published "presence" (Presentable.emitter that)))
       ∧ twice.2 = Js.Normal ()
       ∧ EventEmitter.fired (Presentable.emitter twice.1)
         = EventEmitter.fired (Presentable.emitter that)
             ++ [EventEmitter.presence_event (Presentable.getPresence once.1);
                 EventEmitter.presence_event (Presentable.getPresence twice.1)]
       ∧ length (EventEmitter.published "presence" (Presentable.emitter twice.1))
         = S (S (length (EventEmitter.published "presence" (Presentable.emitter that)))).
Proof.
  intros connectionId once twice.
  destruct (String.eqb connectionId "length") eqn:Hlength.
  - subst once. unfold Presentable.setPresence, Presentable.set.
    fold connectionId. by rewrite Hlength.
  - assert (∀ x, (Presentable.setPresence params x).2 = Js.Normal ()
                 ∧ EventEmitter.fired (Presentable.emitter (Presentable.setPresence params x).1)
                   = EventEmitter.fired (Presentable.emitter x)
                       ++ [EventEmitter.presence_event
                             (Presentable.getPresence (Presentable.setPresence params x).1)])
      as Hfire.
    { intros x. unfold Presentable.setPresence, Presentable.set.
      fold connectionId. rewrite Hlength.
      destruct (Presentable.get connectionId (Presentable.sessions x)); [done|].
      destruct (String.eqb connectionId "__proto__"); [done|].
      by destruct (Presentable.array_index connectionId). }
    assert (∀ x, length (EventEmitter.published "presence"
                           (Presentable.emitter (Presentable.setPresence params x).1))
                 = S (length (EventEmitter.published "presence" (Presentable.emitter x))))
      as Hcount.
    { intros x. unfold EventEmitter.published.
      rewrite (proj2 (Hfire x)), filter_app, length_app. simpl. lia. }
    destruct (Hfire that) as [Hdone1 Hfired1]. destruct (Hfire once.1) as [Hdone2 Hfired2].
    split_and!; try done.
    + apply Hcount.
    + subst twice. rewrite Hfired2. subst once. rewrite Hfired1. by rewrite <- app_assoc.
    + subst twice once. by rewrite !Hcount.
Qed.

(** The statement above at [setPresence({presence: 'away', connectionId: 'length'})]
    on a new endpoint: a RangeError, and nothing published. *)
Lemma setPresence_throws_for_length_id_witness :
  let params := Presentable.mkParams (Some "away") (Some "length") in
  Presentable.setPresence params Endpoint.new_presentable
  = (Endpoint.new_presentable, Js.Throw (Js.RangeError "Invalid array length"))
  ∧ EventEmitter.published "presence"
      (Presentable.emitter (Presentable.setPresence params Endpoint.new_presentable).1)
    = [].
Proof.
  intros params.
  exact (setPresence_throws_for_length_id params Endpoint.new_presentable).
Defined.

(** ** The active-call collection *)

Section CallProperties.
Import Js User.

Lemma removeCall_loop_spec (params : RemoveCallParams) (n : nat)
      (calls : list Call) (m : bool) :
  (n ≤ length calls)%nat →
  removeCall_loop params n calls m =
    match list_find (λ c, matches params c = true) (take n calls) with
    | Some (k, _) => (take k calls, Normal true)
    | None => (calls, Normal m)
    end.
Proof.
  revert calls m. induction n as [|i IH]; intros calls m Hn.
  - by rewrite take_0.
  - destruct (lookup_lt_is_Some_2 calls i) as [c Hc]; [lia|].
    simpl. rewrite Hc, (take_S_r _ _ _ Hc).
    assert (length (take i calls) = i) as Hlen by (apply length_take_le; lia).
    destruct (matches params c) eqn:Hm.
    + rewrite IH by lia. rewrite take_take, Nat.min_id.
      destruct (list_find _ (take i calls)) as [[k x]|] eqn:Hfind.
      * rewrite (list_find_app_l _ _ _ _ _ Hfind).
        apply list_find_Some in Hfind as [Hk _]. apply lookup_lt_Some in Hk.
        rewrite take_take. do 2 f_equal. lia.
      * rewrite (list_find_app_r _ _ _ Hfind). simpl.
        rewrite decide_True by done. simpl. by rewrite Hlen.
    + rewrite IH by lia.
      destruct (list_find _ (take i calls)) as [[k x]|] eqn:Hfind.
      * by rewrite (list_find_app_l _ _ _ _ _ Hfind).
      * rewrite (list_find_app_r _ _ _ Hfind). simpl.
        rewrite decide_False by congruence. done.
Qed.

(** [indexOf] returns [-1] exactly when no entry is the same object. *)
Lemma indexOf_from_absent (l : list Call) (c : Call) (i : Z) :
  0 ≤ i →
  (indexOf_from same l c i = -1 ↔ ref c ∉ ref <$> l) ∧ -1 ≤ indexOf_from same l c i.
Proof.
  revert i. induction l as [|y l IH]; intros i Hi; simpl.
  - split; [|lia]. split; [intros _; apply not_elem_of_nil | done].
  - change (same y c) with (Nat.eqb (ref y) (ref c)).
    destruct (Nat.eqb_spec (ref y) (ref c)) as [Heq|Hne].
    + split; [|lia]. split; [lia|]. intros Hnot. exfalso. apply Hnot. rewrite Heq. left.
    + destruct (IH (i + 1)) as [IH1 IH2]; [lia|]. split; [|done].
      rewrite IH1, not_elem_of_cons. intuition congruence.
Qed.

Lemma indexOf_absent (l : list Call) (c : Call) :
  indexOf same l c = -1 ↔ ref c ∉ ref <$> l.
Proof. unfold indexOf. by apply indexOf_from_absent. Qed.

(** [addCall] appends the call or leaves the collection as it is. *)
Lemma addCall_calls (params : AddCallParams) (that : User.t) :
  calls (addCall params that) =
    if bool_decide (ref (a_call params) ∈ ref <$> calls that)
    then calls that else calls that ++ [a_call params].
Proof.
  unfold addCall.
  destruct (Z.eqb_spec (indexOf same (calls that) (a_call params)) (-1)) as [Habs|Hpres].
  - apply indexOf_absent in Habs. rewrite bool_decide_eq_false_2 by done.
    by repeat case_match.
  - rewrite bool_decide_eq_true_2; [done|].
    destruct (decide (ref (a_call params) ∈ ref <$> calls that)) as [|Hn]; [done|].
    by apply indexOf_absent in Hn.
Qed.

Lemma addCall_NoDup (params : AddCallParams) (that : User.t) :
  NoDup (ref <$> calls that) → NoDup (ref <$> calls (addCall params that)).
Proof.
  intros Hnd. rewrite addCall_calls. case_bool_decide as Hin; [done|].
  rewrite fmap_app. apply NoDup_app. split_and!; [done | | apply NoDup_singleton].
  intros x Hx Hx'. apply list_elem_of_singleton in Hx'. by subst.
Qed.

(** [removeCall] with a target, in closed form. *)
Lemma removeCall_spec (params : RemoveCallParams) (that : User.t) :
  truthy_opt (r_id params) = true ∨ is_Some (r_call params) →
  removeCall params that =
    match list_find (λ c, matches params c = true) (calls that) with
    | Some (k, _) =>
        (mk (take k (calls that)) (emitter that) (rejected that) (log that), Normal ())
    | None =>
        (mk (calls that) (emitter that) (rejected that)
            (log that ++ [("warn", "No call removed.")]), Normal ())
    end.
Proof.
  intros Htarget. unfold removeCall.
  assert (negb (truthy_opt (r_id params)) && negb (bool_decide (is_Some (r_call params)))
          = false) as ->.
  { destruct Htarget as [->|Hcall]; [done|].
    rewrite (bool_decide_eq_true_2 _ Hcall). apply andb_false_r. }
  rewrite removeCall_loop_spec by done. rewrite firstn_all.
  by destruct (list_find _ (calls that)) as [[k x]|].
Qed.

(** The first match found in [l1 ++ a :: l2] when nothing in [l1] matches
    and [a] does. *)
Lemma list_find_middle (P : Call → Prop) `{!∀ c, Decision (P c)}
      (l1 l2 : list Call) (a : Call) :
  Forall (λ c, ¬ P c) l1 → P a →
  list_find P (l1 ++ a :: l2) = Some (length l1, a).
Proof.
  intros Hl1 Ha. apply list_find_Some. split_and!.
  - by rewrite list_lookup_middle.
  - done.
  - intros j y Hj Hlt. rewrite lookup_app_l in Hj by done.
    rewrite Forall_lookup in Hl1. by apply (Hl1 j).
Qed.

(** [list_find] asks its test of the elements of the list only. *)
Lemma list_find_agree (f g : Call → bool) (l : list Call) :
  Forall (λ c, f c = g c) l →
  list_find (λ c, f c = true) l = list_find (λ c, g c = true) l.
Proof.
  induction 1 as [|c l Hc _ IH]; [done|]. simpl. rewrite Hc, IH.
  by destruct (decide (g c = true)).
Qed.

(** The loop's test and the specification's agree on an entry that has an
    id, and on every entry when the request has one. *)
Lemma matches_located (params : RemoveCallParams) (c : Call) :
  r_id params ≠ None ∨ id c ≠ None → matches params c = located params c.
Proof.
  unfold matches, located. intros Hwith. f_equal.
  destruct (r_id params) as [i|]; [done|].
  apply bool_decide_eq_false_2. by destruct Hwith.
Qed.

End CallProperties.



(** C10.  [removeCall] invoked with neither an id nor a call throws
    [Error("Must specify endpointId of Call to remove or the call itself.")]
    before it reads the collection, which it leaves as it was. *)
Theorem removeCall_requires_target (params : User.RemoveCallParams) (that : User.t) :
  Js.truthy_opt (User.r_id params) = false →
  User.r_call params = None →
  User.removeCall params that =
    (that, Js.Throw (Js.mkError "Must specify endpointId of Call to remove or the call itself.")).
Proof.
  intros Hid Hcall. unfold User.removeCall. rewrite Hid, Hcall.
  rewrite bool_decide_eq_false_2; [done|]. by intros [? ?].
Qed.

Lemma removeCall_requires_target_witness :
  let A := User.mkCall 1 (Some "X") "brightstream.Call" true in
  let that := User.mk [A] EventEmitter.empty [] [] in
  User.removeCall (User.mkRemoveCall None None) that =
    (that, Js.Throw (Js.mkError "Must specify endpointId of Call to remove or the call itself.")).
Proof.
  intros A that.
  apply (removeCall_requires_target (User.mkRemoveCall None None) that); reflexivity.
Defined.

(** C9.  After every sequence of [addCall] invocations on a new user, no two
    entries of the active-call collection are the same call object, and an
    [addCall] of a call already in the collection leaves the collection as
    it is. *)
Theorem addCall_never_duplicates (ps : list User.AddCallParams) :
  NoDup (User.ref <$> User.calls (User.addCalls ps User.new))
  ∧ ∀ p, User.ref (User.a_call p) ∈ User.ref <$> User.calls (User.addCalls ps User.new) →
         User.addCall p (User.addCalls ps User.new) = User.addCalls ps User.new.
Proof.
  split.
  - unfold User.addCalls.
    assert (∀ u, NoDup (User.ref <$> User.calls u) →
                 NoDup (User.ref <$> User.calls (foldl (λ u p, User.addCall p u) u ps)))
      as Hinv.
    { induction ps as [|p ps IH]; intros u Hu; simpl; [done|].
      apply IH. by apply addCall_NoDup. }
    apply Hinv. simpl. apply NoDup_nil_2.
  - intros p Hin. unfold User.addCall.
    destruct (Z.eqb_spec (Js.indexOf User.same (User.calls (User.addCalls ps User.new))
                                     (User.a_call p)) (-1)) as [Habs|]; [|done].
    by apply indexOf_absent in Habs.
Qed.


(** C1 (as amended).  For every call of class brightstream.Call that is not yet
    in the active-call collection, added with a falsy [initiator] while the
    user has no 'call' listener, [addCall] invokes [reject()] on the call and
    publishes no notification; the call was appended to the collection before
    the listener test and is still its last entry when [addCall] returns. *)
Theorem addCall_rejects_unanswerable_call (params : User.AddCallParams) (that : User.t) :
  User.className (User.a_call params) = "brightstream.Call" →
  User.initiator (User.a_call params) = false →
  EventEmitter.hasListeners "call" (User.emitter that) = false →
  User.ref (User.a_call params) ∉ User.ref <$> User.calls that →
  let that' := User.addCall params that in
  User.rejected that' = User.rejected that ++ [User.ref (User.a_call params)]
  ∧ EventEmitter.fired (User.emitter that') = EventEmitter.fired (User.emitter that)
  ∧ EventEmitter.published "call" (User.emitter that')
    = EventEmitter.published "call" (User.emitter that)
  ∧ User.calls that' = User.calls that ++ [User.a_call params].
Proof.
  intros Hclass Hinit Hlisten Hfresh that'. subst that'. unfold User.addCall.
  apply indexOf_absent in Hfresh. rewrite Hfresh, Hclass, Hinit, Hlisten. simpl.
  done.
Qed.

Lemma addCall_rejects_unanswerable_call_witness :
  let call := User.mkCall 7 (Some "call-7") "brightstream.Call" false in
  let that' := User.addCall (User.mkAddCall call (Some "bob")) User.new in
  User.rejected that' = [7%nat]
  ∧ EventEmitter.fired (User.emitter that') = []
  ∧ EventEmitter.published "call" (User.emitter that') = []
  ∧ User.calls that' = [call].
Proof.
  intros call.
  apply (addCall_rejects_unanswerable_call (User.mkAddCall call (Some "bob")) User.new);
    try reflexivity.
  simpl. apply not_elem_of_nil.
Defined.

(** C1 as stated fails: an inbound call added to a new user, who has no 'call'
    listener, is rejected and announced to nobody, yet it is in the
    active-call collection when [addCall] returns. *)
Lemma addCall_keeps_rejected_call :
  let call := User.mkCall 7 (Some "call-7") "brightstream.Call" false in
  let that' := User.addCall (User.mkAddCall call (Some "bob")) User.new in
  EventEmitter.hasListeners "call" (User.emitter User.new) = false
  ∧ User.rejected that' = [7%nat]
  ∧ EventEmitter.published "call" (User.emitter that') = []
  ∧ User.getCalls that' = [call]
  ∧ ¬ (call ∉ User.getCalls that').
Proof.
  split_and!; try reflexivity.
  intros Habsent. apply Habsent. left.
Qed.

(** ** Signalling and direct connections *)

(** C5, the code at the failing input.  [sendSignal] called without a signal
    rejects its deferred with the validation error and, having no [return]
    after the rejection, still hands a request carrying the missing signal to
    the signaling channel. *)
Theorem sendSignal_without_signal_still_sends
        (connectionId : option string) (w : Endpoint.World) :
  let params := Endpoint.mkSendSignal None connectionId in
  (Endpoint.sendSignal params w).1
  = Js.rejected (Js.mkError "Can't send a signal without a 'signal' paramter.")
  ∧ Endpoint.channel (Endpoint.sendSignal params w).2
    = Endpoint.channel w
        ++ [Endpoint.sendSignal_call connectionId None (Endpoint.id (Endpoint.that w))]
  ∧ Endpoint.channel (Endpoint.sendSignal params w).2 ≠ Endpoint.channel w.
Proof.
  simpl. split_and!; try reflexivity.
  intros Heq. apply (f_equal length) in Heq. rewrite length_app in Heq. simpl in Heq. lia.
Qed.

Section DirectConnectionProperties.
Import Js Endpoint.

Lemma getDirectConnection_hit (params : DirectConnectionParams) (w : World)
      (dc : DirectConnection) :
  directConnection (that w) = Some dc →
  getDirectConnection params w = (Some dc, w).
Proof. intros Hdc. unfold getDirectConnection. by rewrite Hdc. Qed.

(** After a call that returned a connection, that connection is the cached
    one. *)
Lemma getDirectConnection_caches (params : DirectConnectionParams) (w : World)
      (dc : DirectConnection) :
  (getDirectConnection params w).1 = Some dc →
  directConnection (that (getDirectConnection params w).2) = Some dc.
Proof.
  unfold getDirectConnection.
  destruct (directConnection (that w)) as [cached|] eqn:Hdc; simpl.
  - by intros [= <-].
  - destruct (truthy_opt (id (that w))); simpl; [|done].
    intros [= <-]. by repeat case_match.
Qed.

(** A call that returned nothing left no connection cached. *)
Lemma getDirectConnection_nothing (params : DirectConnectionParams) (w : World) :
  (getDirectConnection params w).1 = None →
  directConnection (that (getDirectConnection params w).2) = None
  ∧ id (that (getDirectConnection params w).2) = id (that w)
  ∧ truthy_opt (id (that w)) = false.
Proof.
  unfold getDirectConnection.
  destruct (directConnection (that w)) as [cached|] eqn:Hdc; simpl; [done|].
  destruct (truthy_opt (id (that w))); simpl; done.
Qed.

End DirectConnectionProperties.

(** C7.  While an endpoint's [directConnection] is cached, every
    [getDirectConnection] returns that very object and changes nothing: no
    object is constructed, no method of a connection is invoked, nothing is
    published.  Two calls in a row, with no 'close' in between, return the
    same reference, whether the first found the connection cached, created
    it, or returned nothing. *)
Theorem getDirectConnection_idempotent
        (p1 p2 : Endpoint.DirectConnectionParams) (w : Endpoint.World) :
  (∀ dc, Endpoint.directConnection (Endpoint.that w) = Some dc →
         Endpoint.getDirectConnection p1 w = (Some dc, w)
         ∧ Endpoint.getDirectConnection p2 (Endpoint.getDirectConnection p1 w).2
           = (Some dc, w))
  ∧ (Endpoint.getDirectConnection p2 (Endpoint.getDirectConnection p1 w).2).1
    = (Endpoint.getDirectConnection p1 w).1
  ∧ (is_Some (Endpoint.getDirectConnection p1 w).1 →
     (Endpoint.getDirectConnection p2 (Endpoint.getDirectConnection p1 w).2).2
     = (Endpoint.getDirectConnection p1 w).2).
Proof.
  split_and!.
  - intros dc Hdc. rewrite (getDirectConnection_hit p1 w dc Hdc). simpl.
    by rewrite (getDirectConnection_hit p2 w dc Hdc).
  - destruct (Endpoint.getDirectConnection p1 w).1 as [dc|] eqn:Hfirst.
    + apply getDirectConnection_caches in Hfirst.
      by rewrite (getDirectConnection_hit p2 _ dc Hfirst).
    + apply getDirectConnection_nothing in Hfirst as (Hnone & Hid & Hfalsy).
      unfold Endpoint.getDirectConnection at 1. by rewrite Hnone, Hid, Hfalsy.
  - intros [dc Hfirst]. apply getDirectConnection_caches in Hfirst.
    by rewrite (getDirectConnection_hit p2 _ dc Hfirst).
Qed.

(** The statement above on an endpoint "bob" with nothing cached, asked twice
    for an inbound connection while the user has no listener: the first call
    constructs object 0 and rejects it, the second returns the same object and
    constructs nothing. *)
Lemma getDirectConnection_idempotent_witness :
  let w := Endpoint.mkWorld (Endpoint.mk (Some "bob") None) EventEmitter.empty
                            ["stun:example"] 0 [] [] [] in
  let p := Endpoint.mkDCParams (Some false) None in
  (Endpoint.getDirectConnection p w).1
  = Some (Endpoint.mkDC 0 false ["stun:example"])
  ∧ (Endpoint.getDirectConnection p (Endpoint.getDirectConnection p w).2).1
    = (Endpoint.getDirectConnection p w).1
  ∧ Endpoint.next_ref (Endpoint.getDirectConnection p (Endpoint.getDirectConnection p w).2).2
    = 1%nat.
Proof.
  intros w p. split; [reflexivity|]. split.
  - apply (getDirectConnection_idempotent p p w).
  - reflexivity.
Defined.

(** ** Local media *)

Section MediaProperties.
Import Js LocalMedia.

Lemma strip_sourceId_of (c : Constraints) : truthy_opt (sourceId_of (strip c)) = false.
Proof.
  unfold strip, sourceId_of.
  destruct c as [a [[b|[m|] cms ms]|] f]; simpl; try done.
  destruct (truthy_opt (chromeMediaSourceId m)) eqn:Hid; simpl; done.
Qed.

Lemma strip_id (c : Constraints) : truthy_opt (sourceId_of c) = false → strip c = c.
Proof.
  unfold strip, sourceId_of.
  destruct c as [a [[b|[m|] cms ms]|] f]; simpl; try done.
  by intros ->.
Qed.

(** [getStream] finds nothing exactly when every entry has constraints and
    none of them, stripped, equals the constraints looked for. *)
Lemma getStream_miss (tc : option Constraints) (l : list CacheEntry) :
  getStream tc l = Normal None ↔
  Forall (λ e, ∃ sc, e_constraints e = Some sc ∧ Some (strip sc) ≠ tc) l.
Proof.
  induction l as [|e l IH]; simpl.
  - split; [constructor | done].
  - unfold clone, isEqual. destruct (e_constraints e) as [sc|] eqn:Hsc.
    + case_bool_decide as Heq.
      * split; [done|]. intros Hall. apply Forall_cons_1 in Hall as [(sc' & Hsc' & Hne) _].
        congruence.
      * rewrite IH. split.
        -- intros Hall. constructor; [eauto | done].
        -- intros Hall. by apply Forall_cons_1 in Hall as [_ ?].
    + split; [done|]. intros Hall. apply Forall_cons_1 in Hall as [(sc' & Hsc' & _) _].
      congruence.
Qed.

Lemma toRemoveIndex_last (tc : option Constraints) (r : nat) (l : list CacheEntry) :
  Forall (λ e, e_constraints e ≠ tc) l →
  toRemoveIndex tc (l ++ [mkEntry r tc]) = Some (length l).
Proof.
  induction 1 as [|e l Hne _ IH]; simpl; unfold isEqual.
  - by rewrite bool_decide_eq_true_2.
  - rewrite bool_decide_eq_false_2 by done. by rewrite IH.
Qed.

Lemma removeStream_last (tc : option Constraints) (r : nat) (l : list CacheEntry) :
  Forall (λ e, e_constraints e ≠ tc) l →
  removeStream tc (l ++ [mkEntry r tc]) = l.
Proof.
  intros Hall. unfold removeStream. rewrite (toRemoveIndex_last _ _ _ Hall).
  rewrite delete_middle. apply app_nil_r.
Qed.

Lemma toRemoveIndex_first (tc : option Constraints) (l : list CacheEntry) (i : nat) (e : CacheEntry) :
  l !! i = Some e → e_constraints e = tc →
  (∀ j e', (j < i)%nat → l !! j = Some e' → e_constraints e' ≠ tc) →
  toRemoveIndex tc l = Some i.
Proof.
  revert i. induction l as [|x l IH]; intros i Hi He Hbefore; [done|].
  destruct i as [|i]; simpl in *; unfold isEqual.
  - injection Hi as ->. by rewrite bool_decide_eq_true_2.
  - rewrite bool_decide_eq_false_2 by (apply (Hbefore 0%nat x); [lia | done]).
    rewrite (IH i Hi He); [done|].
    intros j e' Hj Hl. apply (Hbefore (S j) e'); [lia | done].
Qed.


Lemma sourceId_of_apply_fake (p : Platform) (c : Constraints) :
  sourceId_of (apply_fake p c) = sourceId_of c.
Proof. unfold apply_fake. by destruct (useFakeMedia p). Qed.

(** What [stop] does to an instance whose stream carries a count. *)
Lemma stop_live (that : t) (w : Respoke) (r : nat) (s : Stream) (n : Z) :
  stream that = Some r → heap w !! r = Some s → numPc s = Some n →
  stop that w =
    (fire EventEmitter.stop_event (with_stream None that),
     let w1 := update r (λ s, set_numPc (num_add (numPc s) (-1)) s) w in
     if Z.eqb n 1
     then with_streams (removeStream (constraints that) (streams w)) (update r set_stopped w1)
     else w1).
Proof.
  intros Hstream Hheap Hnum. unfold stop. rewrite Hstream.
  unfold numPc_of, update at 1. simpl. rewrite lookup_alter_eq, Hheap. simpl. rewrite Hnum.
  simpl. replace (n + -1 =? 0) with (n =? 1); [done|].
  destruct (Z.eqb_spec n 1), (Z.eqb_spec (n + -1) 0); lia || done.
Qed.

(** [onReceiveUserMedia] when the cache has no entry for the instance's
    constraints: the stream gets the count 1 and an entry of its own. *)
Lemma onReceiveUserMedia_miss (r : nat) (that : t) (w : Respoke) :
  getStream (constraints that) (streams w) = Normal None →
  ∃ that' w',
    onReceiveUserMedia r that w = Normal (that', w')
    ∧ stream that' = Some r
    ∧ constraints that' = constraints that
    ∧ streams w' = streams w ++ [mkEntry r (constraints that)]
    ∧ heap w' = alter (add_ended_listener (id that)) r (alter (set_numPc (Some 1)) r (heap w))
    ∧ EventEmitter.fired (emitter that')
      = EventEmitter.fired (emitter that) ++ [EventEmitter.allow_event].
Proof.
  intros Hmiss. unfold onReceiveUserMedia. simpl. rewrite Hmiss. simpl.
  eexists _, _. split; [reflexivity|]. simpl. done.
Qed.


(** The constraints an entry is stored under never equal constraints that
    the cache was searched for in vain, when these carry no source id. *)
Lemma miss_no_equal_entry (c : Constraints) (l : list CacheEntry) :
  sourceId_of c = None →
  getStream (Some c) l = Normal None →
  Forall (λ e, e_constraints e ≠ Some c) l.
Proof.
  intros Hid Hmiss. apply getStream_miss in Hmiss.
  eapply Forall_impl; [exact Hmiss|]. intros e (sc & Hsc & Hne) Heq.
  rewrite Hsc in Heq. injection Heq as ->.
  apply Hne. f_equal. apply strip_id. by rewrite Hid.
Qed.

(** The same cache, searched for the constraints with a source id written
    into them by the chooser's callback. *)
Lemma miss_with_sourceId (a : option Media) (m : Mandatory) (cms ms : option string)
      (f : bool) (chosen : option string) (l : list CacheEntry) :
  let c := mkConstraints a (Some (media_object (Some m) cms ms)) f in
  let cx := mkConstraints a
              (Some (media_object (Some (mkMandatory (m_chromeMediaSource m) chosen)) cms ms))
              f in
  sourceId_of c = None →
  truthy_opt chosen = true →
  getStream (Some c) l = Normal None →
  getStream (Some cx) l = Normal None ∧ Forall (λ e, e_constraints e ≠ Some cx) l.
Proof.
  intros c cx Hid Hchosen Hmiss. apply getStream_miss in Hmiss.
  assert (strip cx = c) as Hstrip.
  { unfold strip, cx. simpl. rewrite Hchosen. destruct m as [mcs mid].
    unfold c, sourceId_of in Hid. simpl in Hid. by subst. }
  split.
  - apply getStream_miss. eapply Forall_impl; [exact Hmiss|].
    intros e (sc & Hsc & Hne). exists sc. split; [done|]. intros [= Heq].
    pose proof (strip_sourceId_of sc) as Hfalsy. rewrite Heq in Hfalsy.
    unfold cx, sourceId_of in Hfalsy. simpl in Hfalsy. congruence.
  - eapply Forall_impl; [exact Hmiss|]. intros e (sc & Hsc & Hne) Heq.
    rewrite Hsc in Heq. injection Heq as ->. apply Hne. by rewrite Hstrip.
Qed.

(** The last step of a capture that found nothing cached. *)
Lemma capture_step (r : nat) (thatX that that1 : t) (w w1 : Respoke) (cx : Constraints) :
  constraints thatX = Some cx →
  id thatX = id that →
  EventEmitter.fired (emitter thatX) = EventEmitter.fired (emitter that) →
  getStream (Some cx) (streams w) = Normal None →
  Forall (λ e, e_constraints e ≠ Some cx) (streams w) →
  onReceiveUserMedia r thatX w = Normal (that1, w1) →
  ∃ cx,
    stream that1 = Some r
    ∧ constraints that1 = Some cx
    ∧ streams w1 = streams w ++ [mkEntry r (Some cx)]
    ∧ Forall (λ e, e_constraints e ≠ Some cx) (streams w)
    ∧ heap w1 = alter (add_ended_listener (id that)) r (alter (set_numPc (Some 1)) r (heap w))
    ∧ EventEmitter.fired (emitter that1)
      = EventEmitter.fired (emitter that) ++ [EventEmitter.allow_event].
Proof.
  intros Hcx Hid Hfired Hmiss Hall Hrun.
  rewrite <- Hcx in Hmiss.
  destruct (onReceiveUserMedia_miss r thatX w Hmiss)
    as (that' & w' & Hrun' & Hs & Hc & Hl & Hh & Hf).
  rewrite Hrun' in Hrun. injection Hrun as <- <-.
  exists cx. rewrite Hs, Hc, Hl, Hh, Hf, Hcx, Hid, Hfired. done.
Qed.

(** Closes a case in which [start()] ended without a capture, by [Hdead]: the
    instance then has no live stream. *)
Ltac no_capture Hdead Hrun Hstream :=
  exfalso; eapply Hdead; [|exact Hrun]; exact Hstream.

(** [start()] answered by a capture, on an instance that was not started and
    whose constraints, free of a source id, have no entry in the cache: the
    captured stream is the instance's, with an entry of its own at the end of
    the cache, under constraints no other entry is stored under. *)
Lemma start_and_capture_fresh (a : Answers) (that that1 : t) (w w1 : Respoke)
      (c : Constraints) :
  stream that = None →
  constraints that = Some c →
  sourceId_of c = None →
  getStream (Some (apply_fake (platform w) c)) (streams w) = Normal None →
  start_and_capture a that w = Normal (that1, w1) →
  is_Some (stream that1) →
  ∃ cx,
    stream that1 = Some (captured a)
    ∧ constraints that1 = Some cx
    ∧ streams w1 = streams w ++ [mkEntry (captured a) (Some cx)]
    ∧ Forall (λ e, e_constraints e ≠ Some cx) (streams w)
    ∧ heap w1 = alter (add_ended_listener (id that)) (captured a)
                      (alter (set_numPc (Some 1)) (captured a) (heap w))
    ∧ EventEmitter.fired (emitter that1)
      = EventEmitter.fired (emitter that) ++ [EventEmitter.allow_event].
Proof.
  intros Hstream Hc Hid Hmiss Hrun Hlive.
  assert (sourceId_of (apply_fake (platform w) c) = None) as Hid'
    by (by rewrite sourceId_of_apply_fake).
  assert (∀ x : t, stream x = None →
                   @Normal (t * Respoke) (x, w) = Normal (that1, w1) → False) as Hdead.
  { intros x Hx [= <- <-]. rewrite Hx in Hlive. by destruct Hlive. }

  unfold start_and_capture, start in Hrun.
  destruct (temporary that).
  { no_capture Hdead Hrun Hstream. }
  unfold requestMedia in Hrun. rewrite Hc in Hrun. simpl in Hrun.
  rewrite Hmiss in Hrun. simpl in Hrun.
  set (c' := apply_fake (platform w) c) in *.
  pose proof (miss_no_equal_entry c' (streams w) Hid' Hmiss) as Hall.
  destruct (requestingScreenShare c') as [[|]|err]; simpl in Hrun; [| |done].
  - destruct (isNwjs (platform w) || _); simpl in Hrun.
    + unfold on_desktop_media in Hrun.
      destruct (truthy_opt (chosen_sourceId a)) eqn:Hchosen; simpl in Hrun.
      * destruct c' as [au [[b|[m|] cms ms]|] f] eqn:Hc'; simpl in Hrun; try done.
        destruct (miss_with_sourceId au m cms ms f (chosen_sourceId a) (streams w)
                    Hid' Hchosen Hmiss) as [Hmiss' Hall'].
        eapply (capture_step _ _ that); [| | |exact Hmiss'|exact Hall'|exact Hrun]; done.
      * no_capture Hdead Hrun Hstream.
    + destruct (needsFirefoxExtension (platform w) && _); simpl in Hrun.
      * eapply (capture_step _ _ that); [| | |exact Hmiss|exact Hall|exact Hrun]; done.
      * no_capture Hdead Hrun Hstream.
  - eapply (capture_step _ _ that); [| | |exact Hmiss|exact Hall|exact Hrun]; done.
Qed.

(** What [onReceiveUserMedia] does to the instance on both of its paths. *)
Lemma onReceiveUserMedia_frame (r : nat) (x x' : t) (w w' : Respoke) :
  onReceiveUserMedia r x w = Normal (x', w') →
  stream x' = Some r
  ∧ constraints x' = constraints x
  ∧ timers x' = filter (λ handle, handle ≠ allowTimer x) (timers x)
  ∧ platform w' = platform w
  ∧ id x' = id x
  ∧ deferred x' = resolve (deferred x)
  ∧ EventEmitter.fired (emitter x')
    = EventEmitter.fired (emitter x) ++ [EventEmitter.allow_event]
  ∧ allowTimer x' = allowTimer x
  ∧ timer_seq x' = timer_seq x.
Proof.
  unfold onReceiveUserMedia. simpl.
  destruct (getStream (constraints x) (streams w)) as [[a|]|e]; simpl; [| |done];
    intros [= <- <-]; done.
Qed.

(** [getStream], entry by entry. *)
Lemma getStream_cons (tc : option Constraints) (e : CacheEntry) (l : list CacheEntry) :
  getStream tc (e :: l)
  = match e_constraints e with
    | None => Throw (TypeError "sConstraints.video")
    | Some sc =>
        if bool_decide (Some (strip sc) = tc) then Normal (Some (e_stream e))
        else getStream tc l
    end.
Proof. done. Qed.

Lemma getStream_app_miss (tc : option Constraints) (l k : list CacheEntry) :
  getStream tc l = Normal None → getStream tc (l ++ k) = getStream tc k.
Proof.
  induction l as [|e l IH]; [done|]. rewrite <- app_comm_cons, !getStream_cons.
  destruct (e_constraints e) as [sc|]; [|done]. by case_bool_decide.
Qed.

(** [start()] on constraints that are not cached and ask for no screen
    share hands the request to the media engine. *)
Lemma start_and_capture_plain (a : Answers) (that : t) (w : Respoke) (c : Constraints) :
  temporary that = false →
  constraints that = Some c →
  getStream (Some (apply_fake (platform w) c)) (streams w) = Normal None →
  requestingScreenShare (apply_fake (platform w) c) = Normal false →
  start_and_capture a that w
  = onReceiveUserMedia (captured a)
      (setTimeout (with_constraints (Some (apply_fake (platform w) c)) that)) w.
Proof.
  intros Htemp Hc Hmiss Hscreen. unfold start_and_capture, start. rewrite Htemp.
  unfold requestMedia. rewrite Hc. simpl. rewrite Hmiss. simpl. by rewrite Hscreen.
Qed.

(** [start()] on constraints that are cached reuses the cached stream. *)
Lemma start_and_capture_cached (a : Answers) (that : t) (w : Respoke) (c : Constraints)
      (r : nat) :
  temporary that = false →
  constraints that = Some c →
  getStream (Some (apply_fake (platform w) c)) (streams w) = Normal (Some r) →
  start_and_capture a that w
  = onReceiveUserMedia r (with_constraints (Some (apply_fake (platform w) c)) that) w.
Proof.
  intros Htemp Hc Hhit. unfold start_and_capture, start. rewrite Htemp.
  unfold requestMedia. rewrite Hc. simpl. rewrite Hhit. simpl.
  by destruct (onReceiveUserMedia _ _ _) as [[x' w']|e].
Qed.

(** [onReceiveUserMedia] when the cache has an entry for the instance's
    constraints: the cached stream's count goes up by one. *)
Lemma onReceiveUserMedia_hit (r cached : nat) (that : t) (w : Respoke) :
  getStream (constraints that) (streams w) = Normal (Some cached) →
  ∃ that' w',
    onReceiveUserMedia r that w = Normal (that', w')
    ∧ stream that' = Some r
    ∧ constraints that' = constraints that
    ∧ streams w' = streams w
    ∧ platform w' = platform w
    ∧ heap w' = alter (add_ended_listener (id that)) cached
                      (alter (λ s, set_numPc (num_add (numPc s) 1) s) cached (heap w)).
Proof.
  intros Hhit. unfold onReceiveUserMedia. simpl. rewrite Hhit. simpl.
  eexists _, _. split; [reflexivity|]. done.
Qed.

(** [removeStream] of constraints that no entry is stored under. *)
Lemma removeStream_absent (tc : option Constraints) (l : list CacheEntry) :
  Forall (λ e, e_constraints e ≠ tc) l → removeStream tc l = l.
Proof.
  intros Hall. unfold removeStream.
  replace (toRemoveIndex tc l) with (@None nat); [done|].
  induction Hall as [|e l He _ IH]; [done|]. simpl. unfold isEqual.
  rewrite bool_decide_eq_false_2 by done. by rewrite <- IH.
Qed.

End MediaProperties.

Section StaleEntryProperties.
Import Js LocalMedia.

(** [start()] of a screen share on a platform with a source chooser, the
    chooser answering with a source id: the request goes to the media engine
    with the id written into the instance's constraints. *)
Lemma start_and_capture_chosen (a : Answers) (that : t) (w : Respoke)
      (au : option Media) (m : Mandatory) (cms ms : option string) (f : bool) :
  let c := mkConstraints au (Some (media_object (Some m) cms ms)) f in
  let cx := mkConstraints au
              (Some (media_object (Some (mkMandatory (m_chromeMediaSource m)
                                                     (chosen_sourceId a))) cms ms))
              (fake (apply_fake (platform w) c)) in
  temporary that = false →
  constraints that = Some c →
  getStream (Some (apply_fake (platform w) c)) (streams w) = Normal None →
  requestingScreenShare (apply_fake (platform w) c) = Normal true →
  isNwjs (platform w)
  || needsChromeExtension (platform w) && hasChromeExtension (platform w) = true →
  truthy_opt (chosen_sourceId a) = true →
  start_and_capture a that w
  = onReceiveUserMedia (captured a)
      (with_constraints (Some cx)
         (setTimeout (with_constraints (Some (apply_fake (platform w) c)) that))) w.
Proof.
  intros c cx Htemp Hc Hmiss Hscreen Hchooser Hchosen.
  unfold start_and_capture, start. rewrite Htemp.
  unfold requestMedia. rewrite Hc. simpl. rewrite Hmiss. simpl. rewrite Hscreen. simpl.
  rewrite Hchooser. simpl. unfold on_desktop_media. rewrite Hchosen. simpl.
  unfold cx, c, apply_fake. by destruct (useFakeMedia (platform w)).
Qed.

End StaleEntryProperties.

(** C6, the code at the failing input.  Two instances ask for the same screen
    share on a platform with a source chooser.  The first is captured
    through the chooser and cached under its constraints with the chosen
    source id written into them; the second finds that entry, since
    [getStream] deletes the id from its copy before it compares, and shares
    the stream.  When the second instance is the last to stop, the count
    reaches 0 and the capture is stopped, but [removeStream] compares the
    stored constraints as they are with the instance's, which have no id,
    and removes nothing: the entry of the stopped stream stays in the cache,
    where the specification has it removed, and a later [start()] with these
    constraints is handed the stopped stream. *)
Theorem stop_leaves_stopped_stream_cached
        (ans ans' : LocalMedia.Answers) (a b : LocalMedia.t) (w : LocalMedia.Respoke)
        (au : option LocalMedia.Media) (m : LocalMedia.Mandatory) (cms ms : option string)
        (f : bool) (s : LocalMedia.Stream) :
  let c := LocalMedia.mkConstraints au (Some (LocalMedia.media_object (Some m) cms ms)) f in
  let c' := LocalMedia.apply_fake (LocalMedia.platform w) c in
  let cx := LocalMedia.mkConstraints au
              (Some (LocalMedia.media_object
                       (Some (LocalMedia.mkMandatory (LocalMedia.m_chromeMediaSource m)
                                                     (LocalMedia.chosen_sourceId ans)))
                       cms ms))
              (LocalMedia.fake c') in
  let r := LocalMedia.captured ans in
  LocalMedia.temporary a = false →
  LocalMedia.temporary b = false →
  LocalMedia.constraints a = Some c →
  LocalMedia.constraints b = Some c →
  LocalMedia.sourceId_of c = None →
  LocalMedia.requestingScreenShare c' = Js.Normal true →
  LocalMedia.isNwjs (LocalMedia.platform w)
  || LocalMedia.needsChromeExtension (LocalMedia.platform w)
     && LocalMedia.hasChromeExtension (LocalMedia.platform w) = true →
  Js.truthy_opt (LocalMedia.chosen_sourceId ans) = true →
  LocalMedia.getStream (Some c') (LocalMedia.streams w) = Js.Normal None →
  LocalMedia.heap w !! r = Some s →
  ∃ a1 w1 b1 w2,
    LocalMedia.start_and_capture ans a w = Js.Normal (a1, w1)
    ∧ LocalMedia.start_and_capture ans' b w1 = Js.Normal (b1, w2)
    ∧ LocalMedia.stream a1 = Some r
    ∧ LocalMedia.stream b1 = Some r
    ∧ LocalMedia.numPc_of w2 r = Some 2
    ∧ let w3 := (LocalMedia.stop a1 w2).2 in
      let w4 := (LocalMedia.stop b1 w3).2 in
      LocalMedia.numPc_of w3 r = Some 1
      ∧ LocalMedia.numPc_of w4 r = Some 0
      ∧ LocalMedia.is_stopped w4 r = true
      ∧ LocalMedia.stream (LocalMedia.stop b1 w3).1 = None
      ∧ LocalMedia.streams w4 = LocalMedia.streams w ++ [LocalMedia.mkEntry r (Some cx)]
      ∧ LocalMedia.getStream (Some c') (LocalMedia.streams w4) = Js.Normal (Some r).
Proof.
  intros c c' cx r Hta Htb Hca Hcb Hid Hscreen Hchooser Hchosen Hmiss Hheap.
  assert (c' = LocalMedia.mkConstraints au
                 (Some (LocalMedia.media_object (Some m) cms ms)) (LocalMedia.fake c'))
    as Hshape.
  { unfold c', LocalMedia.apply_fake, c. by destruct (LocalMedia.useFakeMedia _). }
  assert (LocalMedia.sourceId_of c' = None) as Hid'
    by (by unfold c'; rewrite sourceId_of_apply_fake).
  pose proof (miss_no_equal_entry c' (LocalMedia.streams w) Hid' Hmiss) as Hall.
  assert (LocalMedia.strip cx = c') as Hstrip.
  { transitivity (LocalMedia.mkConstraints au
                    (Some (LocalMedia.media_object (Some m) cms ms)) (LocalMedia.fake c'));
      [|by rewrite <- Hshape].
    unfold LocalMedia.strip, cx. simpl. rewrite Hchosen.
    unfold c, LocalMedia.sourceId_of in Hid. simpl in Hid. destruct m as [source sid].
    simpl in Hid |- *. by rewrite Hid. }
  assert (cx ≠ c') as Hcx.
  { intros Heq. pose proof (strip_sourceId_of cx) as Hfalsy.
    rewrite Hstrip, <- Heq in Hfalsy. unfold cx, LocalMedia.sourceId_of in Hfalsy.
    simpl in Hfalsy. congruence. }
  assert (LocalMedia.getStream (Some cx) (LocalMedia.streams w) = Js.Normal None) as Hmissx.
  { apply getStream_miss. apply getStream_miss in Hmiss.
    eapply Forall_impl; [exact Hmiss|]. intros e (sc & Hsc & Hne). exists sc.
    split; [done|]. intros [= Heq]. pose proof (strip_sourceId_of sc) as Hfalsy.
    rewrite Heq in Hfalsy. unfold cx, LocalMedia.sourceId_of in Hfalsy.
    simpl in Hfalsy. congruence. }
  (* the first start, through the chooser *)
  set (a0 := LocalMedia.with_constraints (Some cx)
               (LocalMedia.setTimeout (LocalMedia.with_constraints (Some c') a))).
  destruct (onReceiveUserMedia_miss r a0 w Hmissx)
    as (a1 & w1 & Hrun1 & Hsa1 & Hca1 & Hl1 & Hh1 & _).
  pose proof (onReceiveUserMedia_frame r a0 a1 w w1 Hrun1) as (_ & _ & _ & Hp1 & _).
  simpl in Hca1, Hl1.
  (* the second start finds the entry *)
  assert (LocalMedia.getStream (Some c') (LocalMedia.streams w1) = Js.Normal (Some r))
    as Hhit.
  { rewrite Hl1, (getStream_app_miss _ _ _ Hmiss), getStream_cons. simpl.
    rewrite Hstrip. by rewrite bool_decide_eq_true_2. }
  set (b0 := LocalMedia.with_constraints (Some c') b).
  destruct (onReceiveUserMedia_hit r r b0 w1 Hhit)
    as (b1 & w2 & Hrun2 & Hsb1 & Hcb1 & Hl2 & Hp2 & Hh2).
  simpl in Hcb1.
  assert (LocalMedia.heap w1 !! r
          = Some (LocalMedia.add_ended_listener (LocalMedia.id a0)
                    (LocalMedia.set_numPc (Some 1) s))) as Hs1.
  { by rewrite Hh1, !lookup_alter_eq, Hheap. }
  assert (LocalMedia.heap w2 !! r
          = Some (LocalMedia.add_ended_listener (LocalMedia.id b0)
                    (LocalMedia.set_numPc (Some 2)
                       (LocalMedia.add_ended_listener (LocalMedia.id a0)
                          (LocalMedia.set_numPc (Some 1) s))))) as Hs2.
  { by rewrite Hh2, !lookup_alter_eq, Hs1. }
  exists a1, w1, b1, w2. split_and!.
  - rewrite (start_and_capture_chosen ans a w au m cms ms f); done.
  - rewrite (start_and_capture_cached ans' b w1 c r); rewrite ?Hp1; done.
  - done.
  - done.
  - unfold LocalMedia.numPc_of. by rewrite Hs2.
  - (* the two stops *)
    pose proof (stop_live a1 w2 r _ 2 Hsa1 Hs2 eq_refl) as Hstop1. simpl in Hstop1.
    rewrite Hstop1. cbn [snd].
    set (w3 := LocalMedia.update r _ w2) in *.
    assert (LocalMedia.heap w3 !! r
            = Some (LocalMedia.set_numPc (Some 1)
                      (LocalMedia.add_ended_listener (LocalMedia.id b0)
                         (LocalMedia.set_numPc (Some 2)
                            (LocalMedia.add_ended_listener (LocalMedia.id a0)
                               (LocalMedia.set_numPc (Some 1) s)))))) as Hs3.
    { unfold w3, LocalMedia.update, LocalMedia.with_heap. cbn [LocalMedia.heap].
      by rewrite lookup_alter_eq, Hs2. }
    assert (LocalMedia.streams w3 = LocalMedia.streams w1) as Hl3 by done.
    pose proof (stop_live b1 w3 r _ 1 Hsb1 Hs3 eq_refl) as Hstop2. simpl in Hstop2.
    rewrite Hstop2. cbn [fst snd].
    assert (LocalMedia.removeStream (Some c') (LocalMedia.streams w3)
            = LocalMedia.streams w ++ [LocalMedia.mkEntry r (Some cx)]) as Hkept.
    { rewrite Hl3, Hl1. apply removeStream_absent. apply Forall_app. split; [done|].
      apply Forall_singleton. simpl. congruence. }
    split_and!.
    + unfold LocalMedia.numPc_of. by rewrite Hs3.
    + unfold LocalMedia.numPc_of, LocalMedia.update, LocalMedia.with_heap,
        LocalMedia.with_streams. cbn [LocalMedia.heap].
      by rewrite !lookup_alter_eq, Hs3.
    + unfold LocalMedia.is_stopped, LocalMedia.update, LocalMedia.with_heap,
        LocalMedia.with_streams. cbn [LocalMedia.heap].
      by rewrite !lookup_alter_eq, Hs3.
    + done.
    + unfold LocalMedia.with_streams. cbn [LocalMedia.streams]. rewrite Hcb1.
      change (LocalMedia.removeStream (Some c') (LocalMedia.streams w3)
              = LocalMedia.streams w ++ [LocalMedia.mkEntry r (Some cx)]).
      exact Hkept.
    + unfold LocalMedia.with_streams. cbn [LocalMedia.streams]. rewrite Hcb1.
      change (LocalMedia.getStream (Some c')
                (LocalMedia.removeStream (Some c') (LocalMedia.streams w3))
              = Js.Normal (Some r)).
      by rewrite Hkept, <- Hl1.
Qed.

(** The statement above for two instances asking for the desktop on nw.js,
    the chooser answering "screen:0": after both have stopped, the cache
    still holds the entry of the stopped stream 0. *)
Lemma stop_leaves_stopped_stream_cached_witness :
  let screen := LocalMedia.mkConstraints (Some (LocalMedia.media_flag false))
                  (Some (LocalMedia.media_object
                           (Some (LocalMedia.mkMandatory (Some "desktop") None)) None None))
                  false in
  let chosen := LocalMedia.mkConstraints (Some (LocalMedia.media_flag false))
                  (Some (LocalMedia.media_object
                           (Some (LocalMedia.mkMandatory (Some "desktop") (Some "screen:0")))
                           None None))
                  false in
  let w := LocalMedia.mkRespoke
             {[ 0%nat := LocalMedia.mkStream None [] [LocalMedia.mkTrack true] false [] ]} []
             (LocalMedia.mkPlatform false true false false false false) in
  let answers := LocalMedia.mkAnswers (Some "screen:0") "" 0 in
  ∃ A wA B wB,
    LocalMedia.start_and_capture answers (LocalMedia.new "A" (Some screen)) w
    = Js.Normal (A, wA)
    ∧ LocalMedia.start_and_capture answers (LocalMedia.new "B" (Some screen)) wA
      = Js.Normal (B, wB)
    ∧ LocalMedia.numPc_of wB 0 = Some 2
    ∧ let w1 := (LocalMedia.stop A wB).2 in
      let w2 := (LocalMedia.stop B w1).2 in
      LocalMedia.numPc_of w2 0 = Some 0
      ∧ LocalMedia.is_stopped w2 0 = true
      ∧ LocalMedia.streams w2 = [LocalMedia.mkEntry 0 (Some chosen)]
      ∧ LocalMedia.getStream (Some screen) (LocalMedia.streams w2) = Js.Normal (Some 0%nat).
Proof.
  intros screen chosen w answers.
  destruct (stop_leaves_stopped_stream_cached answers answers
              (LocalMedia.new "A" (Some screen)) (LocalMedia.new "B" (Some screen)) w
              (Some (LocalMedia.media_flag false)) (LocalMedia.mkMandatory (Some "desktop") None)
              None None false
              (LocalMedia.mkStream None [] [LocalMedia.mkTrack true] false [])
              eq_refl eq_refl eq_refl eq_refl eq_refl eq_refl eq_refl eq_refl eq_refl eq_refl)
    as (A & wA & B & wB & H1 & H2 & _ & _ & H3 & _ & H4 & H5 & _ & H6 & H7).
  exists A, wA, B, wB. split_and!; done.
Defined.

(** X30.  [stop()] on an instance without a stream changes nothing.  On an
    instance whose stream carries a numeric count, it lowers the count kept
    on the stream by one, clears the instance's stream reference and
    publishes one 'stop' notification; when the count reaches 0 it also
    stops the stream and applies [removeStream] to the instance's
    constraints, which removes the stream's own entry when that entry is
    stored under these constraints and no earlier entry is; otherwise it
    leaves the cache and the stream as they are.  For a sole holder, an
    instance that was not started and whose constraints carry no source id
    and have no cache entry, [start()] answered by a capture, through the
    chooser or not, and followed by [stop()] leaves the cache as it was
    before, with the stream stopped and its count 0. *)
Theorem stop_decrements_and_releases (that : LocalMedia.t) (w : LocalMedia.Respoke) :
  (LocalMedia.stream that = None → LocalMedia.stop that w = (that, w))
  ∧ (∀ r s n,
       LocalMedia.stream that = Some r →
       LocalMedia.heap w !! r = Some s →
       LocalMedia.numPc s = Some n →
       let that' := (LocalMedia.stop that w).1 in
       let w' := (LocalMedia.stop that w).2 in
       LocalMedia.numPc_of w' r = Some (n - 1)
       ∧ LocalMedia.stream that' = None
       ∧ EventEmitter.fired (LocalMedia.emitter that')
         = EventEmitter.fired (LocalMedia.emitter that) ++ [EventEmitter.stop_event]
       ∧ (n = 1 →
          LocalMedia.is_stopped w' r = true
          ∧ LocalMedia.streams w'
            = LocalMedia.removeStream (LocalMedia.constraints that) (LocalMedia.streams w)
          ∧ ∀ i, LocalMedia.streams w !! i
                 = Some (LocalMedia.mkEntry r (LocalMedia.constraints that)) →
                 (∀ j e, (j < i)%nat → LocalMedia.streams w !! j = Some e →
                         LocalMedia.e_constraints e ≠ LocalMedia.constraints that) →
                 LocalMedia.streams w' = delete i (LocalMedia.streams w))
       ∧ (n ≠ 1 →
          LocalMedia.streams w' = LocalMedia.streams w
          ∧ LocalMedia.is_stopped w' r = LocalMedia.is_stopped w r))
  ∧ (∀ a c s0 that1 w1,
       LocalMedia.stream that = None →
       LocalMedia.constraints that = Some c →
       LocalMedia.sourceId_of c = None →
       LocalMedia.getStream (Some (LocalMedia.apply_fake (LocalMedia.platform w) c))
                            (LocalMedia.streams w) = Js.Normal None →
       LocalMedia.heap w !! LocalMedia.captured a = Some s0 →
       LocalMedia.start_and_capture a that w = Js.Normal (that1, w1) →
       is_Some (LocalMedia.stream that1) →
       let w2 := (LocalMedia.stop that1 w1).2 in
       LocalMedia.streams w2 = LocalMedia.streams w
       ∧ LocalMedia.getStream (Some (LocalMedia.apply_fake (LocalMedia.platform w) c))
                              (LocalMedia.streams w2) = Js.Normal None
       ∧ LocalMedia.stream (LocalMedia.stop that1 w1).1 = None
       ∧ LocalMedia.numPc_of w2 (LocalMedia.captured a) = Some 0
       ∧ LocalMedia.is_stopped w2 (LocalMedia.captured a) = true).
Proof.
  split_and!.
  - intros Hs. unfold LocalMedia.stop. by rewrite Hs.
  - intros r s n Hs Hh Hn that' w'. subst that' w'.
    rewrite (stop_live that w r s n Hs Hh Hn). simpl.
    assert (LocalMedia.numPc_of
              (LocalMedia.update r
                 (λ s, LocalMedia.set_numPc (Js.num_add (LocalMedia.numPc s) (-1)) s) w) r
            = Some (n - 1)) as Hdec.
    { unfold LocalMedia.numPc_of, LocalMedia.update. simpl.
      rewrite lookup_alter_eq, Hh. simpl. by rewrite Hn. }
    split_and!; try done.
    + destruct (Z.eqb_spec n 1); [|done].
      unfold LocalMedia.numPc_of, LocalMedia.update in *. simpl in *.
      rewrite lookup_alter_eq. by destruct (alter _ r (LocalMedia.heap w) !! r).
    + intros ->. simpl. split_and!; try done.
      * unfold LocalMedia.is_stopped, LocalMedia.update. simpl.
        rewrite !lookup_alter_eq, Hh. done.
      * intros i Hi Hbefore. unfold LocalMedia.removeStream.
        by rewrite (toRemoveIndex_first (LocalMedia.constraints that) _ i _ Hi eq_refl Hbefore).
    + intros Hne. destruct (Z.eqb_spec n 1); [done|]. split; [done|].
      unfold LocalMedia.is_stopped, LocalMedia.update. simpl.
      rewrite lookup_alter_eq, Hh. done.
  - intros a c s0 that1 w1 Hs Hc Hid Hmiss Hh Hrun Hlive w2. subst w2.
    destruct (start_and_capture_fresh a that that1 w w1 c Hs Hc Hid Hmiss Hrun Hlive)
      as (cx & Hs1 & Hc1 & Hl1 & Hall & Hh1 & _).
    assert (LocalMedia.heap w1 !! LocalMedia.captured a
            = Some (LocalMedia.add_ended_listener (LocalMedia.id that)
                      (LocalMedia.set_numPc (Some 1) s0))) as Hh1'.
    { rewrite Hh1, !lookup_alter_eq, Hh. done. }
    rewrite (stop_live that1 w1 _ _ 1 Hs1 Hh1' eq_refl). simpl.
    rewrite Hc1, Hl1, (removeStream_last _ _ _ Hall).
    split_and!; try done.
    + unfold LocalMedia.numPc_of, LocalMedia.update. simpl.
      rewrite !lookup_alter_eq, Hh1'. done.
    + unfold LocalMedia.is_stopped, LocalMedia.update. simpl.
      rewrite !lookup_alter_eq, Hh1'. done.
Qed.

(** The statement above on a new instance asking for audio and video, the
    cache being empty: after [start()], the capture and [stop()] the cache is
    empty again and the captured stream is stopped with count 0. *)
Lemma stop_decrements_and_releases_witness :
  let c := LocalMedia.mkConstraints (Some (LocalMedia.media_flag true))
                                    (Some (LocalMedia.media_flag true)) false in
  let captured := LocalMedia.mkStream None [LocalMedia.mkTrack true]
                                      [LocalMedia.mkTrack true] false [] in
  let w := LocalMedia.mkRespoke {[ 0%nat := captured ]} []
             (LocalMedia.mkPlatform false false false false false false) in
  let that := LocalMedia.new "A" (Some c) in
  ∃ that1 w1,
    LocalMedia.start_and_capture (LocalMedia.mkAnswers None "" 0) that w
    = Js.Normal (that1, w1)
    ∧ LocalMedia.stream that1 = Some 0%nat
    ∧ LocalMedia.streams (LocalMedia.stop that1 w1).2 = []
    ∧ LocalMedia.numPc_of (LocalMedia.stop that1 w1).2 0 = Some 0
    ∧ LocalMedia.is_stopped (LocalMedia.stop that1 w1).2 0 = true.
Proof.
  intros c captured w that.
  eexists _, _. split; [reflexivity|]. split; [reflexivity|].
  destruct (stop_decrements_and_releases that w) as (_ & _ & Hfresh).
  destruct (Hfresh (LocalMedia.mkAnswers None "" 0) c captured _ _
                   eq_refl eq_refl eq_refl eq_refl eq_refl eq_refl
                   (ex_intro _ 0%nat eq_refl)) as (H1 & _ & _ & H4 & H5).
  split_and!; [exact H1 | exact H4 | exact H5].
Defined.

Section MuteProperties.
Import Js LocalMedia.

Lemma getVideoTracks_update (r : nat) (f : list Track → list Track) (w : Respoke) :
  getVideoTracks (update r (λ s, set_videoTracks (f (videoTracks s)) s) w) r
  = match heap w !! r with
    | Some s => f (videoTracks s)
    | None => []
    end.
Proof.
  unfold getVideoTracks, update. simpl. rewrite lookup_alter_eq.
  by destruct (heap w !! r).
Qed.

Lemma all_disabled_eachTrack_false (tracks : list Track) :
  tracks ≠ [] → all_disabled (eachTrack false tracks) = Some true.
Proof.
  destruct tracks as [|x tracks]; [done|]. intros _. simpl. f_equal.
  induction tracks as [|y tracks IH]; [done|]. simpl. exact IH.
Qed.

(** On a live stream that has video tracks, a second [muteVideo()] changes
    nothing and publishes nothing. *)
Lemma muteVideo_twice_with_tracks (that : t) (w : Respoke) (r : nat) (s : Stream) :
  stream that = Some r → heap w !! r = Some s → videoTracks s ≠ [] →
  ∃ that1 w1,
    muteVideo that w = Normal (that1, w1)
    ∧ isVideoMuted that1 w1 = Some true
    ∧ muteVideo that1 w1 = Normal (that1, w1).
Proof.
  intros Hs Hh Htracks.
  destruct (truthy_bool (isVideoMuted that w)) eqn:Hmuted.
  - exists that, w. unfold muteVideo. rewrite Hmuted. split_and!; try done.
    unfold truthy_bool in Hmuted. by destruct (isVideoMuted that w) as [[|]|].
  - eexists _, _. unfold muteVideo at 1. rewrite Hmuted, Hs. split; [reflexivity|].
    assert (isVideoMuted (fire (EventEmitter.mute_event "video" true) that)
              (update r (λ s, set_videoTracks (eachTrack false (videoTracks s)) s) w)
            = Some true) as Hnow.
    { unfold isVideoMuted. simpl. rewrite Hs.
      rewrite (getVideoTracks_update r (eachTrack false)), Hh.
      by apply all_disabled_eachTrack_false. }
    split; [exact Hnow|]. unfold muteVideo. by rewrite Hnow.
Qed.

End MuteProperties.

(** C8, the code at the failing input.  On a live stream without video
    tracks [isVideoMuted()] is [undefined], so [muteVideo()] never takes its
    early return: every call publishes a 'mute' notification
    [{type: 'video', muted: true}], and two calls publish two. *)
Theorem muteVideo_without_video_tracks_fires_each_time
        (that : LocalMedia.t) (w : LocalMedia.Respoke) (r : nat) :
  LocalMedia.stream that = Some r →
  LocalMedia.getVideoTracks w r = [] →
  let mute := EventEmitter.mute_event "video" true in
  LocalMedia.isVideoMuted that w = None
  ∧ ∃ that1 w1 that2 w2,
      LocalMedia.muteVideo that w = Js.Normal (that1, w1)
      ∧ LocalMedia.muteVideo that1 w1 = Js.Normal (that2, w2)
      ∧ EventEmitter.fired (LocalMedia.emitter that2)
        = EventEmitter.fired (LocalMedia.emitter that) ++ [mute; mute].
Proof.
  intros Hs Htracks mute.
  assert (∀ x w', LocalMedia.stream x = Some r → LocalMedia.getVideoTracks w' r = [] →
                  LocalMedia.isVideoMuted x w' = None) as Hundef.
  { intros x w' Hx Hw'. unfold LocalMedia.isVideoMuted. by rewrite Hx, Hw'. }
  split; [by apply Hundef|].
  set (w1 := LocalMedia.update r
               (λ s, LocalMedia.set_videoTracks
                       (LocalMedia.eachTrack false (LocalMedia.videoTracks s)) s) w).
  assert (LocalMedia.getVideoTracks w1 r = []) as Htracks1.
  { unfold w1. rewrite (getVideoTracks_update r (LocalMedia.eachTrack false)).
    unfold LocalMedia.getVideoTracks in Htracks.
    destruct (LocalMedia.heap w !! r) as [s|]; [|done]. simpl in Htracks.
    by rewrite Htracks. }
  exists (LocalMedia.fire mute that), w1,
         (LocalMedia.fire mute (LocalMedia.fire mute that)),
         (LocalMedia.update r
            (λ s, LocalMedia.set_videoTracks
                    (LocalMedia.eachTrack false (LocalMedia.videoTracks s)) s) w1).
  split_and!.
  - unfold LocalMedia.muteVideo. by rewrite (Hundef that w Hs Htracks), Hs.
  - unfold LocalMedia.muteVideo.
    rewrite (Hundef (LocalMedia.fire mute that) w1 Hs Htracks1).
    change (LocalMedia.stream (LocalMedia.fire mute that)) with (LocalMedia.stream that).
    by rewrite Hs.
  - simpl. by rewrite <- app_assoc.
Qed.

(** The statement above on an audio-only capture. *)
Lemma muteVideo_without_video_tracks_witness :
  let c := LocalMedia.mkConstraints (Some (LocalMedia.media_flag true))
                                    (Some (LocalMedia.media_flag false)) false in
  let audio_only := LocalMedia.mkStream (Some 1) [LocalMedia.mkTrack true] [] false ["A"] in
  let w := LocalMedia.mkRespoke {[ 0%nat := audio_only ]} [LocalMedia.mkEntry 0 (Some c)]
             (LocalMedia.mkPlatform false false false false false false) in
  let that := LocalMedia.with_stream (Some 0%nat) (LocalMedia.new "A" (Some c)) in
  let mute := EventEmitter.mute_event "video" true in
  LocalMedia.isVideoMuted that w = None
  ∧ ∃ that1 w1 that2 w2,
      LocalMedia.muteVideo that w = Js.Normal (that1, w1)
      ∧ LocalMedia.muteVideo that1 w1 = Js.Normal (that2, w2)
      ∧ EventEmitter.fired (LocalMedia.emitter that2) = [] ++ [mute; mute].
Proof.
  intros c audio_only w that mute.
  apply (muteVideo_without_video_tracks_fires_each_time that w 0%nat); reflexivity.
Defined.

(** ** Further properties: presence *)

Section SessionProperties.
Import Js Presentable.

Lemma or_default_truthy (o : option string) (d : string) :
  d ≠ "" → or_default o d ≠ "".
Proof.
  intros Hd. unfold or_default. destruct o as [s|]; [|done].
  destruct (truthy s) eqn:Hs; [|done]. by apply truthy_ne.
Qed.

(** An array index is the one string that its number prints as. *)
Lemma array_index_inj (a b : string) (n : N) :
  array_index a = Some n → array_index b = Some n → a = b.
Proof.
  unfold array_index. intros Ha Hb.
  destruct (DecimalString.NilZero.uint_of_string a) as [da|]; [|done].
  destruct (DecimalString.NilZero.uint_of_string b) as [db|]; [|done].
  simpl in Ha, Hb.
  destruct (String.eqb_spec
              (DecimalString.NilZero.string_of_uint (N.to_uint (N.of_uint da))) a)
    as [Hpa|]; [|done].
  destruct (String.eqb_spec
              (DecimalString.NilZero.string_of_uint (N.to_uint (N.of_uint db))) b)
    as [Hpb|]; [|done].
  simpl in Ha, Hb.
  destruct (N.of_uint da <? 4294967295)%N; [|done].
  destruct (N.of_uint db <? 4294967295)%N; [|done].
  injection Ha as Ha. injection Hb as Hb. congruence.
Qed.

(** *** Assignment to an own property *)

Lemma keys_overwrite (k : string) (v : Session) (o : Sessions) :
  keys (overwrite k v o) = keys o.
Proof.
  unfold keys. induction o as [|[k' v'] o IH]; csimpl; [done|].
  destruct (String.eqb_spec k' k) as [->|Hne]; csimpl; [done|]. by rewrite IH.
Qed.

Lemma get_overwrite_eq (k : string) (v : Session) (o : Sessions) :
  is_Some (get k o) → get k (overwrite k v o) = Some v.
Proof.
  induction o as [|[k' v'] o IH]; simpl; [by intros [? ?]|].
  destruct (String.eqb_spec k' k) as [->|Hne]; simpl.
  - by rewrite String.eqb_refl.
  - by destruct (String.eqb_spec k' k).
Qed.

Lemma get_overwrite_ne (k k' : string) (v : Session) (o : Sessions) :
  k ≠ k' → get k' (overwrite k v o) = get k' o.
Proof.
  intros Hne. induction o as [|[k0 v0] o IH]; simpl; [done|].
  destruct (String.eqb_spec k0 k) as [->|Hne0]; simpl.
  - by destruct (String.eqb_spec k k').
  - by rewrite IH.
Qed.

(** *** A new array index *)

Lemma keys_insert_index (n : N) (k : string) (v : Session) (o : Sessions) :
  keys (insert_index n k v o) ≡ₚ k :: keys o.
Proof.
  unfold keys. induction o as [|[k' v'] o IH]; csimpl; [done|].
  destruct (array_index k') as [n'|]; [|done].
  destruct (n' <? n)%N; csimpl; [|done]. rewrite IH. apply Permutation_swap.
Qed.

Lemma get_insert_index_eq (n : N) (k : string) (v : Session) (o : Sessions) :
  get k o = None → get k (insert_index n k v o) = Some v.
Proof.
  induction o as [|[k' v'] o IH]; simpl.
  - by rewrite String.eqb_refl.
  - destruct (String.eqb_spec k' k) as [->|Hne]; [done|]. intros Hnone.
    destruct (array_index k') as [n'|]; [destruct (n' <? n)%N|]; simpl;
      rewrite ?String.eqb_refl; try done.
    destruct (String.eqb_spec k' k); [done | by apply IH].
Qed.

Lemma get_insert_index_ne (n : N) (k k' : string) (v : Session) (o : Sessions) :
  k ≠ k' → get k' (insert_index n k v o) = get k' o.
Proof.
  intros Hne. induction o as [|[k0 v0] o IH]; simpl.
  - by destruct (String.eqb_spec k k').
  - destruct (array_index k0) as [n0|]; [destruct (n0 <? n)%N|]; simpl;
      rewrite ?IH; try done; by destruct (String.eqb_spec k k').
Qed.

Lemma insert_index_sorted (n : N) (k : string) (v : Session) (o : Sessions) :
  array_index k = Some n → k ∉ keys o →
  StronglySorted UserPresence.key_before (keys o) →
  StronglySorted UserPresence.key_before (keys (insert_index n k v o)).
Proof.
  intros Hk. unfold keys. induction o as [|[k' v'] o IH]; csimpl; intros Hnew Hsorted.
  - by repeat constructor.
  - apply not_elem_of_cons in Hnew as [Hne Hnew].
    apply StronglySorted_inv in Hsorted as [Hsorted Hall].
    assert (∀ x, x ∈ o.*1 → UserPresence.key_before k' x) as Hall'
      by (by apply Forall_forall).
    destruct (array_index k') as [n'|] eqn:Hk'.
    + destruct (N.ltb_spec n' n) as [Hlt|Hge]; csimpl.
      * constructor; [by apply IH|]. apply Forall_forall. intros x Hx.
        fold (keys (insert_index n k v o)) in Hx. rewrite keys_insert_index in Hx.
        apply elem_of_cons in Hx as [->|Hx]; [|by apply Hall'].
        unfold UserPresence.key_before. by rewrite Hk', Hk.
      * assert (n ≠ n') as Hnn'.
        { intros <-. apply Hne. by apply (array_index_inj k k' n). }
        constructor; [by constructor|]. apply Forall_forall. intros x Hx.
        apply elem_of_cons in Hx as [->|Hx].
        { unfold UserPresence.key_before. rewrite Hk, Hk'. lia. }
        specialize (Hall' x Hx). unfold UserPresence.key_before in Hall' |- *.
        rewrite Hk' in Hall'. rewrite Hk. destruct (array_index x); [lia | done].
    + csimpl. constructor; [by constructor|]. apply Forall_forall. intros x Hx.
      unfold UserPresence.key_before. rewrite Hk.
      apply elem_of_cons in Hx as [->|Hx]; [by rewrite Hk'|].
      specialize (Hall' x Hx). unfold UserPresence.key_before in Hall'.
      rewrite Hk' in Hall'. by destruct (array_index x).
Qed.

(** *** A new key that is not an array index *)

Lemma get_snoc_eq (k : string) (v : Session) (o : Sessions) :
  get k o = None → get k (o ++ [(k, v)]) = Some v.
Proof.
  induction o as [|[k' v'] o IH]; simpl.
  - by rewrite String.eqb_refl.
  - by destruct (String.eqb_spec k' k).
Qed.

Lemma get_snoc_ne (k k' : string) (v : Session) (o : Sessions) :
  k ≠ k' → get k' (o ++ [(k, v)]) = get k' o.
Proof.
  intros Hne. induction o as [|[k0 v0] o IH]; simpl.
  - by destruct (String.eqb_spec k k').
  - by rewrite IH.
Qed.

Lemma snoc_sorted (k : string) (v : Session) (o : Sessions) :
  array_index k = None →
  StronglySorted UserPresence.key_before (keys o) →
  StronglySorted UserPresence.key_before (keys (o ++ [(k, v)])).
Proof.
  intros Hk. unfold keys. induction o as [|[k' v'] o IH]; csimpl; intros Hsorted.
  - by repeat constructor.
  - apply StronglySorted_inv in Hsorted as [Hsorted Hall].
    constructor; [by apply IH|]. rewrite fmap_app. apply Forall_app. split; [done|].
    apply Forall_singleton. unfold UserPresence.key_before. cbn [fst]. rewrite Hk.
    by destruct (array_index k').
Qed.

(** *** [sessions[k] = v] *)

(** The outcomes of the assignment. *)
Lemma set_cases (k : string) (v : Session) (o : Sessions) :
  (k = "length" ∧ set k v o = Throw (RangeError "Invalid array length"))
  ∨ (k ≠ "length" ∧ is_Some (get k o) ∧ set k v o = Normal (overwrite k v o))
  ∨ (k = "__proto__" ∧ get k o = None ∧ set k v o = Normal o)
  ∨ (k ≠ "length" ∧ k ≠ "__proto__" ∧ get k o = None
     ∧ ∃ o', set k v o = Normal o' ∧ keys o' ≡ₚ k :: keys o
             ∧ get k o' = Some v ∧ (∀ k', k ≠ k' → get k' o' = get k' o)
             ∧ (StronglySorted UserPresence.key_before (keys o) →
                StronglySorted UserPresence.key_before (keys o'))).
Proof.
  unfold set. destruct (String.eqb_spec k "length") as [->|Hlength]; [by left|].
  right. destruct (get k o) as [s|] eqn:Hget; [left; eauto|].
  right. destruct (String.eqb_spec k "__proto__") as [->|Hproto]; [by left|].
  right. split_and!; try done.
  assert (k ∉ keys o) as Hnew.
  { intros Hin. apply get_keys in Hin as [? ?]. congruence. }
  destruct (array_index k) as [n|] eqn:Hk; eexists; (split; [reflexivity|]); split_and!.
  - apply keys_insert_index.
  - by apply get_insert_index_eq.
  - intros k' Hne. by apply get_insert_index_ne.
  - by apply insert_index_sorted.
  - unfold keys. rewrite fmap_app. simpl. by rewrite Permutation_app_comm.
  - by apply get_snoc_eq.
  - intros k' Hne. by apply get_snoc_ne.
  - by apply snoc_sorted.
Qed.

Lemma setPresence_well_formed (params : SetPresenceParams) (that : Presentable.t) :
  UserPresence.well_formed (sessions that) →
  UserPresence.well_formed (sessions (setPresence params that).1).
Proof.
  intros (Hnd & Hsorted & Hne & Hid). unfold setPresence.
  set (k := or_default (p_connectionId params) "local").
  set (p := or_default (p_presence params) "available").
  assert (k ≠ "") as Hk by (by apply or_default_truthy).
  destruct (set_cases k (mkSession k p) (sessions that))
    as [[_ ->]|[(_ & Hown & ->)|[(_ & _ & ->)|(_ & _ & Hnone & o' & -> & Hkeys & Hget & Hother & Hs)]]];
    simpl; [done| |done|].
  - split_and!; rewrite ?keys_overwrite; try done.
    intros k' s Hs. destruct (decide (k = k')) as [<-|Hkk'].
    + rewrite get_overwrite_eq in Hs by done. by injection Hs as <-.
    + rewrite get_overwrite_ne in Hs by done. by apply Hid.
  - assert (k ∉ keys (sessions that)) as Hnew.
    { intros Hin. apply get_keys in Hin as [? ?]. congruence. }
    split_and!.
    + rewrite Hkeys. by constructor.
    + by apply Hs.
    + intros k' Hk'. rewrite Hkeys in Hk'.
      apply elem_of_cons in Hk' as [->|?]; [done | by apply Hne].
    + intros k' s Hs'. destruct (decide (k = k')) as [<-|Hkk'].
      * rewrite Hget in Hs'. by injection Hs' as <-.
      * rewrite Hother in Hs' by done. by apply Hid.
Qed.

Lemma setPresences_well_formed (ps : list SetPresenceParams) (that : Presentable.t) :
  UserPresence.well_formed (sessions that) →
  UserPresence.well_formed (sessions (UserPresence.setPresences ps that)).
Proof.
  revert that. induction ps as [|p ps IH]; intros that Hwf; simpl; [done|].
  apply IH. by apply setPresence_well_formed.
Qed.

(** On an endpoint the resolved presence is always [resolvePresence] of the
    sessions on record. *)
Lemma setPresence_resolved (params : SetPresenceParams) (that : Presentable.t) :
  Presentable.resolvePresence that = Some Endpoint.resolvePresence →
  resolved that = Endpoint.resolvePresence (sessions that) →
  let that' := (setPresence params that).1 in
  Presentable.resolvePresence that' = Some Endpoint.resolvePresence
  ∧ resolved that' = Endpoint.resolvePresence (sessions that').
Proof.
  intros Hres Hinv. unfold setPresence.
  destruct (set _ _ _) as [o'|e]; simpl; [|done]. by rewrite Hres.
Qed.

Lemma setPresences_resolved (ps : list SetPresenceParams) (that : Presentable.t) :
  Presentable.resolvePresence that = Some Endpoint.resolvePresence →
  resolved that = Endpoint.resolvePresence (sessions that) →
  resolved (UserPresence.setPresences ps that)
  = Endpoint.resolvePresence (sessions (UserPresence.setPresences ps that)).
Proof.
  revert that. induction ps as [|p ps IH]; intros that Hres Hinv; simpl; [done|].
  destruct (setPresence_resolved p that Hres Hinv) as [Hres' Hinv']. by apply IH.
Qed.

(** The session whose key sorts first is a highest-priority one. *)
Lemma resolvePresence_least (o : Sessions) (k : string) (s : Session) :
  (∀ k, k ∈ keys o → k ≠ "") →
  get k o = Some s →
  Endpoint.priority (Endpoint.resolvePresence o) ≤ Endpoint.priority (presence s).
Proof.
  intros Hkeys Hget. unfold Endpoint.resolvePresence.
  destruct (Js.sort _ _) as [|first rest] eqn:Hsort.
  { apply sort_nil_inv in Hsort. subst. discriminate. }
  apply sorted_head_least in Hsort as [Hin Hleast].
  assert (truthy first = true) as -> by (apply truthy_ne; auto).
  assert (k ∈ keys o) as Hk by (apply get_keys; eauto).
  specialize (Hleast k Hk). unfold Endpoint.presence_of at 2 in Hleast.
  by rewrite Hget in Hleast.
Qed.

End SessionProperties.

(** X1.  [setPresence] files the session under the connection id, or under
    'local' when the id is missing or empty, with the presence, or
    'available' when the presence is missing or empty.  For the id 'length'
    the invocation throws a RangeError and changes nothing.  For every other
    id it returns and every other id keeps its session.  The id '__proto__',
    when it is not an own property, gets no property: the sessions stay as
    they are.  In every remaining case looking the id up afterwards gives
    the new session, and the number of sessions grows by one exactly when
    the id was new.  The keys stay in the order of [Object.keys], array
    indices first and ascending. *)
Theorem setPresence_stores_session
        (params : Presentable.SetPresenceParams) (that : Presentable.t) :
  let k := Js.or_default (Presentable.p_connectionId params) "local" in
  let p := Js.or_default (Presentable.p_presence params) "available" in
  let before := Presentable.sessions that in
  let after := Presentable.sessions (Presentable.setPresence params that).1 in
  k ≠ "" ∧ p ≠ ""
  ∧ (k = "length" →
     Presentable.setPresence params that
     = (that, Js.Throw (Js.RangeError "Invalid array length")))
  ∧ (k ≠ "length" →
     (Presentable.setPresence params that).2 = Js.Normal ()
     ∧ ∀ k', k' ≠ k → Presentable.get k' after = Presentable.get k' before)
  ∧ (k = "__proto__" → Presentable.get k before = None → after = before)
  ∧ (k ≠ "length" → k ≠ "__proto__" ∨ is_Some (Presentable.get k before) →
     Presentable.get k after = Some (Presentable.mkSession k p)
     ∧ length after
       = if bool_decide (k ∈ Presentable.keys before)
         then length before else S (length before))
  ∧ (StronglySorted UserPresence.key_before (Presentable.keys before) →
     StronglySorted UserPresence.key_before (Presentable.keys after)).
Proof.
  intros k p before after. subst after. unfold Presentable.setPresence. fold k p before.
  assert (∀ o o' : Presentable.Sessions,
            Presentable.keys o' ≡ₚ k :: Presentable.keys o → length o' = S (length o))
    as Hlength.
  { intros o o' Hkeys. apply Permutation_length in Hkeys. unfold Presentable.keys in Hkeys.
    simpl in Hkeys. by rewrite !length_fmap in Hkeys. }
  split; [by apply or_default_truthy|]. split; [by apply or_default_truthy|].
  clearbody k p.
  destruct (set_cases k (Presentable.mkSession k p) before)
    as [[Hk ->]|[(Hk & Hown & ->)|[(Hk & Hnone & ->)
       |(Hk & Hproto & Hnone & o' & -> & Hkeys & Hget & Hother & Hsorted)]]]; simpl.
  - split_and!; try done; intros; congruence.
  - split_and!; try done; try (intros; congruence).
    + intros _. split; [done|]. intros k' Hne. by apply get_overwrite_ne.
    + intros _ Hnone. rewrite Hnone in Hown. by destruct Hown.
    + intros _ _. split; [by apply get_overwrite_eq|].
      rewrite bool_decide_eq_true_2 by (by apply get_keys).
      pose proof (keys_overwrite k (Presentable.mkSession k p) before) as Hkeys.
      apply (f_equal length) in Hkeys. unfold Presentable.keys in Hkeys.
      by rewrite !length_fmap in Hkeys.
    + by rewrite keys_overwrite.
  - split_and!; try done; try (intros; congruence).
    intros _ [Hne|[? Hown]]; [done | congruence].
  - split_and!; try done; try (intros; congruence).
    { intros _. split; [done|]. intros k' Hne. by apply Hother. }
    intros _ _. split; [done|].
    rewrite bool_decide_eq_false_2; [by apply (Hlength before)|].
    intros Hin. apply get_keys in Hin as [? ?]. congruence.
Qed.

(** X2.  After any sequence of [setPresence] invocations on a new endpoint,
    whether they returned or threw, the resolved presence is
    [resolvePresence] of the sessions on record and ranks at least as high as
    the presence of every one of them; when one of the sessions has a
    presence of the fixed order, so has the resolved presence.  The sessions
    are listed in the order of [Object.keys], one per connection id and none
    under the empty id. *)
Theorem endpoint_presence_is_highest (ps : list Presentable.SetPresenceParams) :
  let that := UserPresence.setPresences ps Endpoint.new_presentable in
  Presentable.getPresence that = Endpoint.resolvePresence (Presentable.sessions that)
  ∧ UserPresence.well_formed (Presentable.sessions that)
  ∧ (∀ k s, Presentable.get k (Presentable.sessions that) = Some s →
            Endpoint.priority (Presentable.getPresence that)
            ≤ Endpoint.priority (Presentable.presence s))
  ∧ ((∃ k s, Presentable.get k (Presentable.sessions that) = Some s
             ∧ Presentable.presence s ∈ Endpoint.options) →
     Presentable.getPresence that ∈ Endpoint.options).
Proof.
  intros that.
  assert (UserPresence.well_formed (Presentable.sessions that)) as Hwf.
  { apply setPresences_well_formed. split_and!; [apply NoDup_nil_2 | constructor | | done].
    intros k Hk. by apply elem_of_nil in Hk. }
  assert (Presentable.getPresence that
          = Endpoint.resolvePresence (Presentable.sessions that)) as Hres
    by (by apply setPresences_resolved).
  destruct Hwf as (Hnd & Hsorted & Hne & Hid).
  split_and!; try done.
  - intros k s Hs. rewrite Hres. by apply (resolvePresence_least _ k).
  - intros (k & s & Hs & Hknown). rewrite Hres.
    pose proof (resolvePresence_least _ k s Hne Hs) as Hle.
    destruct (priority_range (Presentable.presence s)) as [(_ & _ & Hs5)|[? _]]; [|done].
    destruct (priority_range (Endpoint.resolvePresence (Presentable.sessions that)))
      as [[? _]|[_ H1000]]; [done | lia].
Qed.

(** X3.  A user has no [resolvePresence]: [User.setPresence] hands the
    presence, or 'available' when it is missing or empty, to the signaling
    channel and changes the user only in the success handler; [setOnline]
    issues the same request.  Once the channel reports success the user's
    presence is the presence that was sent, published in one 'presence'
    notification; for the connection id 'length' the handler throws a
    RangeError instead and the user is as it was. *)
Theorem user_presence_follows_transport
        (params : Presentable.SetPresenceParams) (sent : list string)
        (that : Presentable.t) :
  Presentable.resolvePresence that = None →
  let p := Js.or_default (Presentable.p_presence params) "available" in
  let k := Js.or_default (Presentable.p_connectionId params) "local" in
  let request := UserPresence.setPresence params sent in
  let handled := UserPresence.on_presence_sent request.1 that in
  request.2 = sent ++ [p]
  ∧ UserPresence.setOnline params sent = request
  ∧ if String.eqb k "length"
    then handled = (that, Js.Throw (Js.RangeError "Invalid array length"))
    else handled.2 = Js.Normal ()
         ∧ Presentable.getPresence handled.1 = p
         ∧ EventEmitter.fired (Presentable.emitter handled.1)
           = EventEmitter.fired (Presentable.emitter that) ++ [EventEmitter.presence_event p].
Proof.
  intros Hnone p k request handled.
  assert (Js.or_default (Some p) "available" = p) as Hp.
  { unfold Js.or_default. destruct (Js.truthy p) eqn:Htruthy; [done|].
    assert (p ≠ "") as Hne by (by apply or_default_truthy).
    apply truthy_ne in Hne. congruence. }
  split; [done|]. split.
  { unfold UserPresence.setOnline, request, UserPresence.setPresence.
    cbn [Presentable.p_presence Presentable.p_connectionId]. fold p. by rewrite Hp. }
  subst handled request.
  unfold UserPresence.on_presence_sent, UserPresence.setPresence, Presentable.setPresence.
  cbn [fst Presentable.p_presence Presentable.p_connectionId]. fold p k. rewrite Hp, Hnone.
  destruct (set_cases k (Presentable.mkSession k p) (Presentable.sessions that))
    as [[Hk ->]|[(Hk & Hown & ->)|[(Hk & Hnone' & ->)|(Hk & Hproto & _ & o' & -> & _)]]].
  - by rewrite Hk.
  - by destruct (String.eqb_spec k "length").
  - by rewrite Hk.
  - by destruct (String.eqb_spec k "length").
Qed.

Lemma user_presence_follows_transport_witness :
  let that := Presentable.new None in
  let request := UserPresence.setPresence (Presentable.mkParams (Some "away") None) [] in
  let handled := UserPresence.on_presence_sent request.1 that in
  request.2 = ["away"]
  ∧ handled.2 = Js.Normal ()
  ∧ Presentable.getPresence handled.1 = "away"
  ∧ EventEmitter.fired (Presentable.emitter handled.1) = [EventEmitter.presence_event "away"].
Proof.
  intros that request handled.
  destruct (user_presence_follows_transport (Presentable.mkParams (Some "away") None) []
              that eq_refl) as (H1 & _ & H2).
  split; [exact H1 | exact H2].
Defined.

(** ** Further properties: signalling and direct connections *)

(** X4.  [sendSignal] hands exactly one request to the signaling channel.
    With a signal, its promise is pending when the method returns and then
    settles as the channel's promise does; without one, its promise is
    rejected with the validation error and stays so whatever the channel
    answers. *)
Theorem sendSignal_settles_once
        (params : Endpoint.SendSignalParams) (w : Endpoint.World)
        (outcome : option Js.Error) :
  let deferred := (Endpoint.sendSignal params w).1 in
  let invalid := Js.rejected (Js.mkError "Can't send a signal without a 'signal' paramter.") in
  Endpoint.channel (Endpoint.sendSignal params w).2
  = Endpoint.channel w
      ++ [Endpoint.sendSignal_call (Endpoint.s_connectionId params) (Endpoint.s_signal params)
                                   (Endpoint.id (Endpoint.that w))]
  ∧ (if Endpoint.signal_truthy (Endpoint.s_signal params)
     then deferred = Js.pending
          ∧ Endpoint.sendSignal_done outcome deferred
            = match outcome with None => Js.fulfilled | Some err => Js.rejected err end
     else deferred = invalid ∧ Endpoint.sendSignal_done outcome deferred = invalid).
Proof.
  intros deferred invalid. subst deferred invalid. unfold Endpoint.sendSignal. simpl.
  split; [done|].
  destruct (Endpoint.signal_truthy (Endpoint.s_signal params)); simpl.
  - split; [done|]. by destruct outcome.
  - split; [done|]. by destruct outcome.
Qed.

(** X5.  [getDirectConnection] on an endpoint without an id and without a
    cached connection returns nothing and logs the error: no connection is
    constructed or cached, no method of a connection is invoked and nothing
    is published to the user. *)
Theorem getDirectConnection_requires_id
        (params : Endpoint.DirectConnectionParams) (w : Endpoint.World) :
  Endpoint.directConnection (Endpoint.that w) = None →
  Js.truthy_opt (Endpoint.id (Endpoint.that w)) = false →
  let w' := (Endpoint.getDirectConnection params w).2 in
  (Endpoint.getDirectConnection params w).1 = None
  ∧ Endpoint.that w' = Endpoint.that w
  ∧ Endpoint.next_ref w' = Endpoint.next_ref w
  ∧ Endpoint.dc_ops w' = Endpoint.dc_ops w
  ∧ Endpoint.user w' = Endpoint.user w
  ∧ Endpoint.channel w' = Endpoint.channel w
  ∧ Endpoint.log w'
    = Endpoint.log w ++ [("error", "Can't start a direct connection without endpoint ID!")].
Proof.
  intros Hnone Hid w'. subst w'. unfold Endpoint.getDirectConnection.
  rewrite Hnone, Hid. simpl. done.
Qed.

Lemma getDirectConnection_requires_id_witness :
  let w := Endpoint.mkWorld (Endpoint.mk None None) EventEmitter.empty [] 3 [] [] [] in
  let p := Endpoint.mkDCParams None None in
  (Endpoint.getDirectConnection p w).1 = None
  ∧ Endpoint.next_ref (Endpoint.getDirectConnection p w).2 = 3%nat
  ∧ Endpoint.dc_ops (Endpoint.getDirectConnection p w).2 = [].
Proof.
  intros w p.
  destruct (getDirectConnection_requires_id p w eq_refl eq_refl)
    as (H1 & _ & H3 & H4 & _).
  split_and!; [exact H1 | exact H3 | exact H4].
Defined.

(** X6.  [getDirectConnection] on an endpoint with an id and nothing cached
    constructs one connection, caches it and registers the 'close' listener
    last.  As initiator (the default) it accepts the connection and
    publishes nothing; otherwise it publishes one 'direct-connection'
    notification to the user and rejects the connection exactly when the
    user has no listener for it; the rejected connection stays cached. *)
Theorem getDirectConnection_constructs
        (params : Endpoint.DirectConnectionParams) (w : Endpoint.World) :
  Endpoint.directConnection (Endpoint.that w) = None →
  Js.truthy_opt (Endpoint.id (Endpoint.that w)) = true →
  let initiator := default true (Endpoint.d_initiator params) in
  let dc := Endpoint.mkDC (Endpoint.next_ref w) initiator
              (default (Endpoint.default_servers w) (Endpoint.d_servers params)) in
  let r := Endpoint.next_ref w in
  let w' := (Endpoint.getDirectConnection params w).2 in
  (Endpoint.getDirectConnection params w).1 = Some dc
  ∧ Endpoint.directConnection (Endpoint.that w') = Some dc
  ∧ Endpoint.next_ref w' = S r
  ∧ (if initiator
     then Endpoint.dc_ops w'
          = Endpoint.dc_ops w ++ [(r, Endpoint.dc_accept); (r, Endpoint.dc_listen_close)]
          ∧ Endpoint.user w' = Endpoint.user w
     else EventEmitter.fired (Endpoint.user w')
          = EventEmitter.fired (Endpoint.user w)
              ++ [EventEmitter.direct_connection_event r (Endpoint.id (Endpoint.that w))]
          ∧ Endpoint.dc_ops w'
            = Endpoint.dc_ops w
                ++ (if EventEmitter.hasListeners "direct-connection" (Endpoint.user w)
                    then [] else [(r, Endpoint.dc_reject)])
                ++ [(r, Endpoint.dc_listen_close)]).
Proof.
  intros Hnone Hid initiator dc r w'. subst w'. unfold Endpoint.getDirectConnection.
  rewrite Hnone, Hid. simpl. fold initiator. fold dc.
  destruct initiator; simpl.
  - rewrite <- app_assoc. done.
  - unfold EventEmitter.hasListeners. simpl.
    destruct (bool_decide _); simpl; split_and!; try done.
    by rewrite <- app_assoc.
Qed.

Lemma getDirectConnection_constructs_witness :
  let w := Endpoint.mkWorld (Endpoint.mk (Some "bob") None) EventEmitter.empty
                            ["stun:example"] 0 [] [] [] in
  let p := Endpoint.mkDCParams (Some false) None in
  let w' := (Endpoint.getDirectConnection p w).2 in
  Endpoint.directConnection (Endpoint.that w')
  = Some (Endpoint.mkDC 0 false ["stun:example"])
  ∧ Endpoint.dc_ops w' = [(0%nat, Endpoint.dc_reject); (0%nat, Endpoint.dc_listen_close)].
Proof.
  intros w p w'.
  destruct (getDirectConnection_constructs p w eq_refl eq_refl) as (_ & H2 & _ & _ & H5).
  split; [exact H2 | exact H5].
Defined.

(** X7.  The 'close' listener releases the cached reference: it invokes
    [ignore()] on the connection and clears the endpoint's
    [directConnection]; the next [getDirectConnection] then constructs a new
    connection, an object other than the closed one.  Run with nothing
    cached, the listener throws a TypeError. *)
Theorem close_then_getDirectConnection
        (params : Endpoint.DirectConnectionParams) (w : Endpoint.World)
        (dc : Endpoint.DirectConnection) :
  Endpoint.directConnection (Endpoint.that w) = Some dc →
  Js.truthy_opt (Endpoint.id (Endpoint.that w)) = true →
  (Endpoint.dc_ref dc < Endpoint.next_ref w)%nat →
  ∃ closed,
    Endpoint.on_close w = Js.Normal closed
    ∧ Endpoint.directConnection (Endpoint.that closed) = None
    ∧ Endpoint.dc_ops closed = Endpoint.dc_ops w ++ [(Endpoint.dc_ref dc, Endpoint.dc_ignore)]
    ∧ Endpoint.on_close closed = Js.Throw (Js.TypeError "that.directConnection.ignore")
    ∧ ∃ dc', (Endpoint.getDirectConnection params closed).1 = Some dc'
             ∧ Endpoint.dc_ref dc' = Endpoint.next_ref w
             ∧ Endpoint.dc_ref dc' ≠ Endpoint.dc_ref dc.
Proof.
  intros Hdc Hid Hlt. unfold Endpoint.on_close at 1. rewrite Hdc.
  eexists. split; [reflexivity|]. simpl. split_and!; try done.
  unfold Endpoint.getDirectConnection. simpl. rewrite Hid. simpl.
  eexists. split; [reflexivity|]. simpl. split; [done | lia].
Qed.

Lemma close_then_getDirectConnection_witness :
  let dc := Endpoint.mkDC 0 true [] in
  let w := Endpoint.mkWorld (Endpoint.mk (Some "bob") (Some dc)) EventEmitter.empty
                            [] 1 [] [] [] in
  ∃ closed,
    Endpoint.on_close w = Js.Normal closed
    ∧ Endpoint.directConnection (Endpoint.that closed) = None
    ∧ Endpoint.dc_ops closed = [] ++ [(0%nat, Endpoint.dc_ignore)]
    ∧ Endpoint.on_close closed = Js.Throw (Js.TypeError "that.directConnection.ignore")
    ∧ ∃ dc', (Endpoint.getDirectConnection (Endpoint.mkDCParams None None) closed).1
             = Some dc'
             ∧ Endpoint.dc_ref dc' = 1%nat
             ∧ Endpoint.dc_ref dc' ≠ 0%nat.
Proof.
  intros dc w.
  apply (close_then_getDirectConnection (Endpoint.mkDCParams None None) w dc);
    [reflexivity | reflexivity | simpl; lia].
Defined.

(** ** Further properties: the active-call collection *)

(** X8.  [removeCall] with a target leaves no entry that matches it, and
    keeps the entries pairwise distinct; a second [removeCall] with the same
    target finds nothing, leaves the collection as it is and logs
    "No call removed.". *)
Theorem removeCall_removes_every_match (params : User.RemoveCallParams) (that : User.t) :
  Js.truthy_opt (User.r_id params) = true ∨ is_Some (User.r_call params) →
  let once := (User.removeCall params that).1 in
  let twice := (User.removeCall params once).1 in
  Forall (λ c, User.matches params c = false) (User.calls once)
  ∧ (NoDup (User.ref <$> User.calls that) → NoDup (User.ref <$> User.calls once))
  ∧ User.calls twice = User.calls once
  ∧ User.log twice = User.log once ++ [("warn", "No call removed.")].
Proof.
  intros Htarget once twice.
  assert (Forall (λ c, User.matches params c = false) (User.calls once)) as Hnone.
  { subst once. rewrite (removeCall_spec params that Htarget).
    destruct (list_find _ (User.calls that)) as [[k x]|] eqn:Hfind; simpl.
    - apply list_find_Some in Hfind as (_ & _ & Hleast).
      apply Forall_lookup. intros j c Hj.
      apply lookup_take_Some in Hj as [Hj Hlt].
      apply not_true_is_false. by apply (Hleast j c Hj Hlt).
    - apply list_find_None in Hfind. eapply Forall_impl; [exact Hfind|].
      intros c Hc. by apply not_true_is_false. }
  split_and!; [done | | |].
  - intros Hnd. subst once. rewrite (removeCall_spec params that Htarget).
    destruct (list_find _ (User.calls that)) as [[k x]|]; simpl; [|done].
    rewrite fmap_take. exact (sublist_NoDup _ _ Hnd (sublist_take _ _)).
  - subst twice. rewrite (removeCall_spec params once Htarget).
    replace (list_find _ (User.calls once)) with (@None (nat * User.Call)); [done|].
    symmetry. apply list_find_None. eapply Forall_impl; [exact Hnone|].
    intros c Hc. congruence.
  - subst twice. rewrite (removeCall_spec params once Htarget).
    replace (list_find _ (User.calls once)) with (@None (nat * User.Call)); [done|].
    symmetry. apply list_find_None. eapply Forall_impl; [exact Hnone|].
    intros c Hc. congruence.
Qed.

Lemma removeCall_removes_every_match_witness :
  let A := User.mkCall 1 (Some "X") "brightstream.Call" true in
  let B := User.mkCall 2 (Some "Y") "brightstream.Call" true in
  let that := User.mk [A; B] EventEmitter.empty [] [] in
  let params := User.mkRemoveCall (Some "Y") None in
  let once := (User.removeCall params that).1 in
  User.calls once = [A]
  ∧ User.calls (User.removeCall params once).1 = User.calls once
  ∧ User.log (User.removeCall params once).1
    = User.log once ++ [("warn", "No call removed.")].
Proof.
  intros A B that params once. split; [reflexivity|].
  destruct (removeCall_removes_every_match params that) as (_ & _ & H3 & H4).
  { left. reflexivity. }
  split; [exact H3 | exact H4].
Defined.

(** X9.  [addCall] of a call that is not yet in the collection appends it.
    Unless the call is an inbound call of class 'brightstream.Call' that
    nobody listens for, nothing is rejected or logged, and one 'call'
    notification carrying the endpoint and the call is published when the
    class is 'brightstream.Call', none otherwise (a direct connection is
    registered silently). *)
Theorem addCall_announces (params : User.AddCallParams) (that : User.t) :
  User.ref (User.a_call params) ∉ User.ref <$> User.calls that →
  User.className (User.a_call params) ≠ "brightstream.Call"
  ∨ User.initiator (User.a_call params) = true
  ∨ EventEmitter.hasListeners "call" (User.emitter that) = true →
  let that' := User.addCall params that in
  User.calls that' = User.calls that ++ [User.a_call params]
  ∧ User.rejected that' = User.rejected that
  ∧ User.log that' = User.log that
  ∧ EventEmitter.fired (User.emitter that')
    = EventEmitter.fired (User.emitter that)
        ++ (if String.eqb (User.className (User.a_call params)) "brightstream.Call"
            then [EventEmitter.call_event (User.a_endpoint params)
                                          (User.ref (User.a_call params))]
            else []).
Proof.
  intros Hfresh Hcase that'. subst that'. unfold User.addCall.
  apply indexOf_absent in Hfresh. rewrite Hfresh. simpl.
  destruct (String.eqb_spec (User.className (User.a_call params)) "brightstream.Call")
    as [Hclass|Hclass].
  - destruct Hcase as [?|[->| ->]]; [done | |]; simpl.
    + done.
    + rewrite andb_false_r. done.
  - simpl. by rewrite app_nil_r.
Qed.

Lemma addCall_announces_witness :
  let call := User.mkCall 4 (Some "call-4") "brightstream.Call" true in
  let that' := User.addCall (User.mkAddCall call (Some "bob")) User.new in
  User.calls that' = [] ++ [call]
  ∧ User.rejected that' = []
  ∧ User.log that' = []
  ∧ EventEmitter.fired (User.emitter that')
    = [] ++ [EventEmitter.call_event (Some "bob") 4].
Proof.
  intros call.
  apply (addCall_announces (User.mkAddCall call (Some "bob")) User.new).
  - simpl. apply not_elem_of_nil.
  - right. left. reflexivity.
Defined.

(** X10.  [addCall] followed by [removeCall({call})] gives back the
    collection as it was, with no warning, when the call was not in the
    collection and every call in the collection has an id. *)
Theorem addCall_removeCall_roundtrip (params : User.AddCallParams) (that : User.t) :
  User.ref (User.a_call params) ∉ User.ref <$> User.calls that →
  Forall (λ c, User.id c ≠ None) (User.calls that) →
  let added := User.addCall params that in
  let removed := User.removeCall (User.mkRemoveCall None (Some (User.a_call params))) added in
  removed.2 = Js.Normal ()
  ∧ User.calls removed.1 = User.calls that
  ∧ User.log removed.1 = User.log added.
Proof.
  intros Hfresh Hids added removed. subst removed.
  rewrite removeCall_spec by (right; eauto).
  assert (User.calls added = User.calls that ++ [User.a_call params]) as Hcalls.
  { subst added. rewrite addCall_calls. by rewrite bool_decide_eq_false_2. }
  rewrite Hcalls.
  rewrite (list_find_middle _ (User.calls that) [] (User.a_call params)).
  - simpl. by rewrite take_app_length.
  - apply Forall_forall. intros c Hc Hm. unfold User.matches in Hm. simpl in Hm.
    apply orb_true_iff in Hm as [Hm|Hm].
    + apply bool_decide_eq_true in Hm. rewrite Forall_forall in Hids. by apply (Hids c).
    + unfold User.same in Hm. apply Nat.eqb_eq in Hm. apply Hfresh. rewrite <- Hm.
      by apply list_elem_of_fmap_2.
  - unfold User.matches, User.same. simpl. rewrite Nat.eqb_refl. apply orb_true_r.
Qed.

Lemma addCall_removeCall_roundtrip_witness :
  let A := User.mkCall 1 (Some "X") "brightstream.Call" true in
  let B := User.mkCall 2 (Some "Y") "brightstream.Call" true in
  let that := User.mk [A] EventEmitter.empty [] [] in
  let added := User.addCall (User.mkAddCall B (Some "bob")) that in
  let removed := User.removeCall (User.mkRemoveCall None (Some B)) added in
  User.calls added = [A; B]
  ∧ removed.2 = Js.Normal ()
  ∧ User.calls removed.1 = User.calls that
  ∧ User.log removed.1 = User.log added.
Proof.
  intros A B that added removed. split; [reflexivity|].
  apply (addCall_removeCall_roundtrip (User.mkAddCall B (Some "bob")) that).
  - simpl. rewrite list_elem_of_singleton. discriminate.
  - repeat constructor. discriminate.
Defined.

(** X11.  [removeCall({call})] compares every entry's id with the missing
    [params.id]: an entry without an id matches whatever call is given, so
    the collection is cut at the first such entry at the latest, and that
    entry and every entry after it are gone. *)
Theorem removeCall_by_reference_cuts_at_idless_call
        (call : User.Call) (that : User.t) (i : nat) (c : User.Call) :
  User.calls that !! i = Some c →
  User.id c = None →
  let that' := (User.removeCall (User.mkRemoveCall None (Some call)) that).1 in
  (length (User.calls that') ≤ i)%nat
  ∧ User.calls that' `prefix_of` User.calls that
  ∧ User.log that' = User.log that.
Proof.
  intros Hi Hid that'. subst that'.
  rewrite removeCall_spec by (right; eauto).
  assert (User.matches (User.mkRemoveCall None (Some call)) c = true) as Hm.
  { unfold User.matches. simpl. rewrite Hid. by rewrite bool_decide_eq_true_2. }
  destruct (list_find _ (User.calls that)) as [[k x]|] eqn:Hfind; simpl.
  - apply list_find_Some in Hfind as (Hk & _ & Hleast).
    assert (k ≤ i)%nat as Hki.
    { destruct (decide (k ≤ i)%nat); [done|]. exfalso. apply (Hleast i c Hi); [lia | done]. }
    split_and!; [rewrite length_take; lia | apply prefix_take | done].
  - apply list_find_None in Hfind. rewrite Forall_lookup in Hfind.
    by destruct (Hfind i c Hi).
Qed.

Lemma removeCall_by_reference_cuts_at_idless_call_witness :
  let A := User.mkCall 1 None "brightstream.DirectConnection" true in
  let B := User.mkCall 2 (Some "Y") "brightstream.Call" true in
  let that := User.mk [A; B] EventEmitter.empty [] [] in
  let that' := (User.removeCall (User.mkRemoveCall None (Some B)) that).1 in
  User.calls that' = []
  ∧ (length (User.calls that') ≤ 0)%nat.
Proof.
  intros A B that that'. split; [reflexivity|].
  apply (removeCall_by_reference_cuts_at_idless_call B that 0 A); reflexivity.
Defined.

(** X29.  Where the request has an id, or every entry of the collection has
    one, [removeCall] truncates the collection at the first entry that the
    request locates, by id or by reference: that entry and every entry after
    it are removed, the entries before it stay in their order, and no
    warning is logged; when the request locates no entry, the collection is
    unchanged and "No call removed." is logged.  No notification is
    published either way. *)
Theorem removeCall_truncates_at_located (params : User.RemoveCallParams) (that : User.t) :
  Js.truthy_opt (User.r_id params) = true ∨ is_Some (User.r_call params) →
  User.r_id params ≠ None ∨ Forall (λ c, User.id c ≠ None) (User.calls that) →
  let that' := (User.removeCall params that).1 in
  (User.removeCall params that).2 = Js.Normal ()
  ∧ match list_find (λ c, User.located params c = true) (User.calls that) with
    | Some (k, _) =>
        User.calls that' = take k (User.calls that) ∧ User.log that' = User.log that
    | None =>
        User.calls that' = User.calls that
        ∧ User.log that' = User.log that ++ [("warn", "No call removed.")]
    end
  ∧ (∀ i c, User.calls that !! i = Some c → User.located params c = true →
            ∀ j, (i ≤ j)%nat → User.calls that' !! j = None)
  ∧ User.emitter that' = User.emitter that.
Proof.
  intros Htarget Hids that'. subst that'. rewrite removeCall_spec by done.
  rewrite (list_find_agree (User.matches params) (User.located params)).
  2:{ destruct Hids as [Hid|Hall].
      - apply Forall_forall. intros c _. apply matches_located. by left.
      - eapply Forall_impl; [exact Hall|]. intros c Hc. apply matches_located. by right. }
  destruct (list_find _ (User.calls that)) as [[k x]|] eqn:Hfind; simpl.
  - split_and!; try done.
    intros i c Hi Hm j Hj. apply lookup_take_ge.
    apply list_find_Some in Hfind as (_ & _ & Hleast).
    destruct (decide (k ≤ i)%nat) as [|Hlt]; [lia|].
    exfalso. apply (Hleast i c Hi); [lia | done].
  - split_and!; try done.
    intros i c Hi Hm. apply list_find_None in Hfind.
    rewrite Forall_lookup in Hfind. by destruct (Hfind i c Hi).
Qed.

(** The statement above on the collection [A; B; C] with
    [removeCall({id: "Y"})], [B] having the id "Y": [A] stays. *)
Lemma removeCall_truncates_at_located_witness :
  let A := User.mkCall 1 (Some "X") "brightstream.Call" true in
  let B := User.mkCall 2 (Some "Y") "brightstream.Call" true in
  let C := User.mkCall 3 (Some "Z") "brightstream.Call" true in
  let that := User.mk [A; B; C] EventEmitter.empty [] [] in
  let params := User.mkRemoveCall (Some "Y") None in
  User.calls (User.removeCall params that).1 = [A]
  ∧ User.log (User.removeCall params that).1 = []
  ∧ ∀ i c, User.calls that !! i = Some c → User.located params c = true →
           ∀ j, (i ≤ j)%nat → User.calls (User.removeCall params that).1 !! j = None.
Proof.
  intros A B C that params.
  destruct (removeCall_truncates_at_located params that) as (_ & Hcut & Hgone & _).
  - left. reflexivity.
  - left. discriminate.
  - split; [exact (proj1 Hcut)|]. split; [exact (proj2 Hcut) | exact Hgone].
Defined.

(** ** Further properties: placing and finding calls *)

(** X12.  [Endpoint.call] invoked without an argument throws a TypeError at
    its first read of [params.initiator]; on an endpoint without an id it
    returns nothing and logs the error.  In both cases no call is
    constructed, none is added to the user's collection and no method of a
    call is invoked. *)
Theorem call_requires_params_and_id
        (params : option Calling.CallParams) (endpoint call_id : option string)
        (w : Calling.World) :
  params = None ∨ Js.truthy_opt endpoint = false →
  let w' := (Calling.call params endpoint call_id w).1 in
  (Calling.call params endpoint call_id w).2
  = match params with
    | None => Js.Throw (Js.TypeError "params.initiator")
    | Some _ => Js.Normal None
    end
  ∧ Calling.user w' = Calling.user w
  ∧ Calling.next_ref w' = Calling.next_ref w
  ∧ Calling.call_ops w' = Calling.call_ops w
  ∧ Calling.log w'
    = Calling.log w
        ++ match params with
           | None => []
           | Some _ => [("error", "Can't start a call without endpoint ID!")]
           end.
Proof.
  intros Hcase w'. subst w'. unfold Calling.call.
  destruct params as [p|].
  - destruct Hcase as [? | ->]; [done|]. simpl. done.
  - simpl. by rewrite app_nil_r.
Qed.

Lemma call_requires_params_and_id_witness :
  let w := Calling.mkWorld User.new (Calling.mkSettings None []) 0 [] [] [] in
  let p := Some (Calling.mkCallParams None None None) in
  (Calling.call p None (Some "c0") w).2 = Js.Normal None
  ∧ Calling.user (Calling.call p None (Some "c0") w).1 = User.new
  ∧ Calling.next_ref (Calling.call p None (Some "c0") w).1 = 0%nat.
Proof.
  intros w p.
  destruct (call_requires_params_and_id p None (Some "c0") w) as (H1 & H2 & H3 & _).
  { right. reflexivity. }
  split_and!; [exact H1 | exact H2 | exact H3].
Defined.

(** X13.  [Endpoint.call] on an endpoint with an id constructs one call of
    class 'brightstream.Call', initiator unless [params.initiator] says
    otherwise, with the call-specific constraints and servers where given
    and the client's defaults elsewhere; it invokes [answer()] on it exactly
    when it is the initiator, adds it to the user's collection as the last
    entry, registers the 'hangup' listener last and returns it.  As
    initiator the call is announced in one 'call' notification and never
    rejected. *)
Theorem call_registers_the_call
        (p : Calling.CallParams) (endpoint call_id : option string) (w : Calling.World) :
  Js.truthy_opt endpoint = true →
  Forall (λ c, User.ref c < Calling.next_ref w)%nat (User.calls (Calling.user w)) →
  let initiator := default true (Calling.c_initiator p) in
  let c := User.mkCall (Calling.next_ref w) call_id "brightstream.Call" initiator in
  let w' := (Calling.call (Some p) endpoint call_id w).1 in
  (Calling.call (Some p) endpoint call_id w).2 = Js.Normal (Some c)
  ∧ User.calls (Calling.user w') = User.calls (Calling.user w) ++ [c]
  ∧ Calling.next_ref w' = S (Calling.next_ref w)
  ∧ Calling.call_ops w'
    = Calling.call_ops w
        ++ (if initiator then [(User.ref c, Calling.call_answer)] else [])
        ++ [(User.ref c, Calling.call_listen_hangup)]
  ∧ Calling.settings w'
    = Calling.settings w
        ++ [(User.ref c,
             Calling.mkSettings
               (match Calling.c_constraints p with
                | Some own => Some own
                | None => Calling.cs_constraints (Calling.defaults w)
                end)
               (default (Calling.cs_servers (Calling.defaults w)) (Calling.c_servers p)))]
  ∧ (initiator = true →
     User.rejected (Calling.user w') = User.rejected (Calling.user w)
     ∧ EventEmitter.fired (User.emitter (Calling.user w'))
       = EventEmitter.fired (User.emitter (Calling.user w))
           ++ [EventEmitter.call_event endpoint (User.ref c)]).
Proof.
  intros Hid Hrefs initiator c w'. subst w'. unfold Calling.call. rewrite Hid. simpl.
  fold initiator. fold c.
  assert (User.ref c ∉ User.ref <$> User.calls (Calling.user w)) as Hfresh.
  { intros Hin. apply list_elem_of_fmap in Hin as (c' & Hc' & Hin).
    rewrite Forall_forall in Hrefs. specialize (Hrefs c' Hin). simpl in Hc'. lia. }
  split_and!; try done.
  - rewrite addCall_calls. by rewrite bool_decide_eq_false_2.
  - destruct initiator; simpl; by rewrite <- ?app_assoc.
  - intros Hinit. apply indexOf_absent in Hfresh. unfold User.addCall.
    cbn [User.a_call User.a_endpoint]. rewrite Hfresh.
    change (User.className c) with "brightstream.Call".
    change (User.initiator c) with initiator. rewrite Hinit. simpl. done.
Qed.

Lemma call_registers_the_call_witness :
  let w := Calling.mkWorld User.new (Calling.mkSettings None ["stun:example"]) 0 [] [] [] in
  let p := Calling.mkCallParams None None None in
  let c := User.mkCall 0 (Some "c0") "brightstream.Call" true in
  let w' := (Calling.call (Some p) (Some "bob") (Some "c0") w).1 in
  (Calling.call (Some p) (Some "bob") (Some "c0") w).2 = Js.Normal (Some c)
  ∧ User.calls (Calling.user w') = [] ++ [c]
  ∧ Calling.call_ops w'
    = [] ++ [(0%nat, Calling.call_answer)] ++ [(0%nat, Calling.call_listen_hangup)].
Proof.
  intros w p c w'.
  destruct (call_registers_the_call p (Some "bob") (Some "c0") w eq_refl)
    as (H1 & H2 & _ & H4 & _).
  { constructor. }
  split_and!; [exact H1 | exact H2 | exact H4].
Defined.

(** X14.  The 'hangup' listener of a call removes by id, so it cuts the
    user's collection at that call: when the calls before it have other ids,
    the collection ends as the calls that were placed before it, and every
    call placed after it is dropped with it, without a warning.  A call
    whose id is missing or empty is not removed: the listener throws
    "Must specify endpointId of Call to remove or the call itself." and the
    collection stays as it is. *)
Theorem hangup_drops_later_calls
        (a : User.Call) (before later : list User.Call) (w : Calling.World) :
  User.calls (Calling.user w) = before ++ a :: later →
  Forall (λ c, User.id c ≠ User.id a) before →
  let w' := (Calling.hangupListener a w).1 in
  if Js.truthy_opt (User.id a)
  then (Calling.hangupListener a w).2 = Js.Normal ()
       ∧ User.calls (Calling.user w') = before
       ∧ User.log (Calling.user w') = User.log (Calling.user w)
  else (Calling.hangupListener a w).2
       = Js.Throw (Js.mkError "Must specify endpointId of Call to remove or the call itself.")
       ∧ w' = w.
Proof.
  intros Hcalls Hids w'. subst w'. unfold Calling.hangupListener.
  destruct (Js.truthy_opt (User.id a)) eqn:Hid.
  - rewrite removeCall_spec by (left; exact Hid). rewrite Hcalls.
    rewrite (list_find_middle _ before later a).
    + simpl. by rewrite take_app_length.
    + eapply Forall_impl; [exact Hids|]. intros c Hc Hm.
      unfold User.matches in Hm. simpl in Hm. rewrite orb_false_r in Hm.
      by apply bool_decide_eq_true in Hm.
    + unfold User.matches. simpl. by rewrite bool_decide_eq_true_2.
  - unfold User.removeCall. simpl. rewrite Hid. simpl. by destruct w.
Qed.

Lemma hangup_drops_later_calls_witness :
  let A := User.mkCall 1 (Some "X") "brightstream.Call" true in
  let B := User.mkCall 2 (Some "Y") "brightstream.Call" true in
  let C := User.mkCall 3 (Some "Z") "brightstream.Call" true in
  let w := Calling.mkWorld (User.mk [A; B; C] EventEmitter.empty [] [])
                           (Calling.mkSettings None []) 4 [] [] [] in
  (Calling.hangupListener B w).2 = Js.Normal ()
  ∧ User.calls (Calling.user (Calling.hangupListener B w).1) = [A]
  ∧ User.log (Calling.user (Calling.hangupListener B w).1) = [].
Proof.
  intros A B C w.
  apply (hangup_drops_later_calls B [A] [C] w); [reflexivity|].
  repeat constructor. discriminate.
Defined.

(** X15.  [Endpoint.call] followed by the call's 'hangup' gives the user's
    collection back as it was before the call was placed, when the call got
    a non-empty id that no call in the collection has. *)
Theorem call_then_hangup_roundtrip
        (p : Calling.CallParams) (endpoint call_id : option string) (w : Calling.World) :
  Js.truthy_opt endpoint = true →
  Js.truthy_opt call_id = true →
  Forall (λ c, User.ref c < Calling.next_ref w)%nat (User.calls (Calling.user w)) →
  Forall (λ c, User.id c ≠ call_id) (User.calls (Calling.user w)) →
  ∃ c placed,
    Calling.call (Some p) endpoint call_id w = (placed, Js.Normal (Some c))
    ∧ c ∈ User.calls (Calling.user placed)
    ∧ (Calling.hangupListener c placed).2 = Js.Normal ()
    ∧ User.calls (Calling.user (Calling.hangupListener c placed).1)
      = User.calls (Calling.user w).
Proof.
  intros Hid Hcid Hrefs Hids.
  set (c := User.mkCall (Calling.next_ref w) call_id "brightstream.Call"
                        (default true (Calling.c_initiator p))).
  assert (User.ref c ∉ User.ref <$> User.calls (Calling.user w)) as Hfresh.
  { intros Hin. apply list_elem_of_fmap in Hin as (c' & Hc' & Hin).
    rewrite Forall_forall in Hrefs. specialize (Hrefs c' Hin). simpl in Hc'. lia. }
  assert (User.calls (User.addCall (User.mkAddCall c endpoint) (Calling.user w))
          = User.calls (Calling.user w) ++ [c]) as Hcalls.
  { rewrite addCall_calls. by rewrite bool_decide_eq_false_2. }
  eexists c, _. unfold Calling.call. rewrite Hid. simpl. fold c.
  split; [reflexivity|]. simpl.
  split; [rewrite Hcalls; apply elem_of_app; right; left|].
  unfold Calling.hangupListener. simpl.
  rewrite removeCall_spec by (left; exact Hcid). rewrite Hcalls.
  rewrite (list_find_middle _ (User.calls (Calling.user w)) [] c).
  - simpl. by rewrite take_app_length.
  - eapply Forall_impl; [exact Hids|]. intros c' Hc' Hm.
    unfold User.matches in Hm. simpl in Hm. rewrite orb_false_r in Hm.
    by apply bool_decide_eq_true in Hm.
  - unfold User.matches. simpl. by rewrite bool_decide_eq_true_2.
Qed.

Lemma call_then_hangup_roundtrip_witness :
  let A := User.mkCall 0 (Some "c0") "brightstream.Call" true in
  let w := Calling.mkWorld (User.mk [A] EventEmitter.empty [] [])
                           (Calling.mkSettings None []) 1 [] [] [] in
  let p := Calling.mkCallParams None None None in
  ∃ c placed,
    Calling.call (Some p) (Some "bob") (Some "c1") w = (placed, Js.Normal (Some c))
    ∧ c ∈ User.calls (Calling.user placed)
    ∧ (Calling.hangupListener c placed).2 = Js.Normal ()
    ∧ User.calls (Calling.user (Calling.hangupListener c placed).1) = [A].
Proof.
  intros A w p.
  apply (call_then_hangup_roundtrip p (Some "bob") (Some "c1") w); try reflexivity.
  - repeat constructor.
  - repeat constructor. discriminate.
Defined.

Section FindCallProperties.
Import Js Calling.
Context (remote : User.Call → option string) (state : User.Call → Z).

(** The scan, started with any call already chosen. *)
Lemma findCall_foldl (id : option string) (calls : list User.Call) (chosen : option User.Call) :
  foldl (λ call one,
           if bool_decide (remote one = id)
           then if 6 <=? state one then call else Some one
           else call)
        chosen calls
  = match last (filter (λ c, remote c = id ∧ state c < 6) calls) with
    | Some c => Some c
    | None => chosen
    end.
Proof.
  revert chosen. induction calls as [|one calls IH]; intros chosen; [done|].
  simpl. rewrite IH. rewrite filter_cons.
  destruct (decide (remote one = id ∧ state one < 6)) as [[Hr Hs]|Hno].
  - rewrite bool_decide_eq_true_2 by done.
    destruct (Z.leb_spec 6 (state one)); [lia|].
    rewrite last_cons. by destruct (last _).
  - destruct (last _); [done|]. case_bool_decide; [|done].
    destruct (Z.leb_spec 6 (state one)); [done|]. destruct Hno. split; [done | lia].
Qed.

(** Where the last element that passes a test sits. *)
Lemma last_filter_split (P : User.Call → Prop) `{!∀ c, Decision (P c)}
      (l : list User.Call) (c : User.Call) :
  last (filter P l) = Some c →
  P c ∧ ∃ l1 l2, l = l1 ++ c :: l2 ∧ Forall (λ x, ¬ P x) l2.
Proof.
  induction l as [|x l IH]; [done|].
  rewrite filter_cons. destruct (decide (P x)) as [Hx|Hx].
  - rewrite last_cons. destruct (last (filter P l)) as [c'|] eqn:Hlast.
    + intros [= ->]. destruct (IH eq_refl) as (Hc & l1 & l2 & -> & Hl2).
      split; [done|]. by exists (x :: l1), l2.
    + intros [= ->]. split; [done|]. exists [], l. split; [done|].
      apply last_None in Hlast. apply Forall_forall. intros y Hy Hp.
      by apply (filter_nil_not_elem_of P l y).
  - intros Hlast. destruct (IH Hlast) as (Hc & l1 & l2 & -> & Hl2).
    split; [done|]. by exists (x :: l1), l2.
Qed.

End FindCallProperties.

(** X16.  The scan of [User.getCall] returns the last call of the collection
    whose remote endpoint has the id asked for and whose state is below 6
    (neither ended nor failed): every call after the one returned fails the
    test, so of two live calls with the same endpoint the later one is
    found.  It returns nothing exactly when no call passes. *)
Theorem findCall_returns_last_live_call
        (remote : User.Call → option string) (state : User.Call → Z)
        (id : option string) (calls : list User.Call) :
  Calling.findCall remote state id calls
  = last (filter (λ c, remote c = id ∧ state c < 6) calls)
  ∧ (∀ c, Calling.findCall remote state id calls = Some c →
          remote c = id ∧ state c < 6
          ∧ ∃ l1 l2, calls = l1 ++ c :: l2
                     ∧ Forall (λ x, ¬ (remote x = id ∧ state x < 6)) l2)
  ∧ (Calling.findCall remote state id calls = None ↔
     Forall (λ c, ¬ (remote c = id ∧ state c < 6)) calls).
Proof.
  assert (Calling.findCall remote state id calls
          = last (filter (λ c, remote c = id ∧ state c < 6) calls)) as Hfind.
  { unfold Calling.findCall. rewrite findCall_foldl. by destruct (last _). }
  split_and!; [done | |].
  - intros c Hc. rewrite Hfind in Hc.
    apply last_filter_split in Hc as ([Hr Hs] & l1 & l2 & Hl & Hl2). eauto 10.
  - rewrite Hfind, last_None. split.
    + intros Hnil. apply Forall_forall. intros c Hc Hp.
      by apply (filter_nil_not_elem_of _ calls c Hnil).
    + intros Hall. destruct (filter _ calls) as [|x l] eqn:Hf; [done|].
      assert (x ∈ filter (λ c, remote c = id ∧ state c < 6) calls) as Hin
        by (rewrite Hf; left).
      apply list_elem_of_filter in Hin as [Hp Hin].
      rewrite Forall_forall in Hall. by destruct (Hall x Hin).
Qed.

(** X17.  [User.getCall] returns a live call it finds without changing
    anything; finding none, it returns nothing unless [create] is true, and
    then places an inbound call (initiator false) through the endpoint with
    the id asked for: the call is constructed, never answered, added to the
    collection as its last entry and returned; with no 'call' listener it is
    rejected, otherwise announced in one 'call' notification. *)
Theorem getCall_finds_or_creates
        (remote : User.Call → option string) (state : User.Call → Z)
        (params : Calling.GetCallParams) (call_id : option string) (w : Calling.World) :
  (∀ found, Calling.findCall remote state (Calling.g_id params)
                             (User.calls (Calling.user w)) = Some found →
            Calling.getCall remote state params call_id w = (w, Some found))
  ∧ (Calling.findCall remote state (Calling.g_id params) (User.calls (Calling.user w)) = None →
     (Calling.g_create params = false →
      Calling.getCall remote state params call_id w = (w, None))
     ∧ (Calling.g_create params = true →
        Js.truthy_opt (Calling.g_id params) = true →
        Forall (λ c, User.ref c < Calling.next_ref w)%nat (User.calls (Calling.user w)) →
        let c := User.mkCall (Calling.next_ref w) call_id "brightstream.Call" false in
        let w' := (Calling.getCall remote state params call_id w).1 in
        (Calling.getCall remote state params call_id w).2 = Some c
        ∧ User.calls (Calling.user w') = User.calls (Calling.user w) ++ [c]
        ∧ Calling.call_ops w'
          = Calling.call_ops w ++ [(User.ref c, Calling.call_listen_hangup)]
        ∧ if EventEmitter.hasListeners "call" (User.emitter (Calling.user w))
          then User.rejected (Calling.user w') = User.rejected (Calling.user w)
               ∧ EventEmitter.fired (User.emitter (Calling.user w'))
                 = EventEmitter.fired (User.emitter (Calling.user w))
                     ++ [EventEmitter.call_event (Calling.g_id params) (User.ref c)]
          else User.rejected (Calling.user w')
               = User.rejected (Calling.user w) ++ [User.ref c]
               ∧ EventEmitter.fired (User.emitter (Calling.user w'))
                 = EventEmitter.fired (User.emitter (Calling.user w)))).
Proof.
  split.
  - intros found Hfound. unfold Calling.getCall. by rewrite Hfound.
  - intros Hnone. split.
    + intros Hcreate. unfold Calling.getCall. by rewrite Hnone, Hcreate.
    + intros Hcreate Hid Hrefs c w'. subst w'. unfold Calling.getCall.
      rewrite Hnone, Hcreate. unfold Calling.call. rewrite Hid. simpl. fold c.
      assert (User.ref c ∉ User.ref <$> User.calls (Calling.user w)) as Hfresh.
      { intros Hin. apply list_elem_of_fmap in Hin as (c' & Hc' & Hin).
        rewrite Forall_forall in Hrefs. specialize (Hrefs c' Hin). simpl in Hc'. lia. }
      split_and!; try done.
      * rewrite addCall_calls. by rewrite bool_decide_eq_false_2.
      * apply indexOf_absent in Hfresh. unfold User.addCall.
        cbn [User.a_call User.a_endpoint]. rewrite Hfresh.
        change (User.className c) with "brightstream.Call".
        change (User.initiator c) with false. simpl.
        by destruct (EventEmitter.hasListeners "call" (User.emitter (Calling.user w))).
Qed.

Lemma getCall_finds_or_creates_witness :
  let remote := λ c : User.Call, Some "bob" in
  let state := λ c : User.Call, if Nat.eqb (User.ref c) 0 then 6 else 2 in
  let A := User.mkCall 0 (Some "c0") "brightstream.Call" true in
  let B := User.mkCall 1 (Some "c1") "brightstream.Call" true in
  let w := Calling.mkWorld (User.mk [B; A] EventEmitter.empty [] [])
                           (Calling.mkSettings None []) 2 [] [] [] in
  Calling.findCall remote state (Some "bob") [B; A] = Some B
  ∧ Calling.getCall remote state (Calling.mkGetCall (Some "bob") true) (Some "c2") w
    = (w, Some B).
Proof.
  intros remote state A B w. split; [reflexivity|].
  apply (getCall_finds_or_creates remote state (Calling.mkGetCall (Some "bob") true)
           (Some "c2") w).
  reflexivity.
Defined.

(** ** Further properties: the signaling channel *)

Section ChannelProperties.
Import SignalingChannel.

Lemma run_snoc (ms : list Method) (m : Method) (state : t) :
  run (ms ++ [m]) state = invoke (run ms state) m.
Proof. unfold run. by rewrite foldl_app. Qed.

End ChannelProperties.

(** X18.  The state of a signaling channel is that of the last [open] or
    [close] invoked on it, 'new' before the first: the channel is open
    exactly when an [open] was invoked with no [close] or [open] after it.
    [close] is not final, a later [open] opens the channel again; [send]
    never changes the state and is not refused on a channel that is not
    open. *)
Theorem channel_state_is_last_transition (ms : list SignalingChannel.Method) :
  let is_send := λ m, ∃ message, m = SignalingChannel.call_send message in
  let state := SignalingChannel.run ms SignalingChannel.new in
  (SignalingChannel.isOpen state = true ↔
   ∃ ms1 ms2, ms = ms1 ++ SignalingChannel.call_open :: ms2 ∧ Forall is_send ms2)
  ∧ (SignalingChannel.getState state = "closed" ↔
     ∃ ms1 ms2, ms = ms1 ++ SignalingChannel.call_close :: ms2 ∧ Forall is_send ms2)
  ∧ (SignalingChannel.getState state = "new" ↔ Forall is_send ms)
  ∧ ∀ message,
      SignalingChannel.run (ms ++ [SignalingChannel.call_send message]) SignalingChannel.new
      = state.
Proof.
  intros is_send state. subst state.
  induction ms as [|m ms IH] using rev_ind.
  - simpl. split_and!.
    + split; [intros H; discriminate H|]. intros (ms1 & ms2 & Hms & _). by destruct ms1.
    + split; [intros H; discriminate H|]. intros (ms1 & ms2 & Hms & _). by destruct ms1.
    + split; [constructor | done].
    + done.
  - destruct IH as (IHopen & IHclosed & IHnew & _).
    assert (∀ m0 ms1 ms2, (∀ x, m0 ≠ SignalingChannel.call_send x) →
              ms ++ [m] = ms1 ++ m0 :: ms2 → Forall is_send ms2 →
              (ms2 = [] ∧ m = m0 ∧ ms = ms1)
              ∨ (∃ ms2', ms2 = ms2' ++ [m] ∧ ms = ms1 ++ m0 :: ms2' ∧ is_send m)) as Hsplit.
    { intros m0 ms1 ms2 Hm0 Heq Hsend.
      destruct ms2 as [|y ms2 _] using rev_ind.
      - left. apply app_inj_tail in Heq as [-> ->]. done.
      - right. exists ms2. rewrite app_comm_cons, app_assoc in Heq.
        apply app_inj_tail in Heq as [-> ->]. split_and!; [done..|].
        apply Forall_app in Hsend as [_ Hy]. rewrite Forall_singleton in Hy. exact Hy. }
    rewrite !run_snoc. split_and!.
    + destruct m as [| |message]; simpl.
      * split; [|done]. intros _. exists ms, []. split; [done | constructor].
      * split; [intros H; discriminate H|]. intros (ms1 & ms2 & Heq & Hsend).
        destruct (Hsplit SignalingChannel.call_open ms1 ms2 ltac:(done) Heq Hsend)
          as [(_ & ? & _)|(ms2' & _ & _ & [x ?])]; done.
      * unfold SignalingChannel.send. rewrite IHopen. split.
        -- intros (ms1 & ms2 & -> & Hsend).
           exists ms1, (ms2 ++ [SignalingChannel.call_send message]).
           split; [by rewrite <- app_assoc|]. apply Forall_app. split; [done|].
           apply Forall_singleton. by exists message.
        -- intros (ms1 & ms2 & Heq & Hsend).
           destruct (Hsplit SignalingChannel.call_open ms1 ms2 ltac:(done) Heq Hsend)
             as [(_ & ? & _)|(ms2' & -> & -> & _)]; [done|].
           exists ms1, ms2'. split; [done|]. by apply Forall_app in Hsend as [? _].
    + destruct m as [| |message]; simpl.
      * split; [intros H; discriminate H|]. intros (ms1 & ms2 & Heq & Hsend).
        destruct (Hsplit SignalingChannel.call_close ms1 ms2 ltac:(done) Heq Hsend)
          as [(_ & ? & _)|(ms2' & _ & _ & [x ?])]; done.
      * split; [|done]. intros _. exists ms, []. by split.
      * unfold SignalingChannel.send. rewrite IHclosed. split.
        -- intros (ms1 & ms2 & -> & Hsend).
           exists ms1, (ms2 ++ [SignalingChannel.call_send message]).
           split; [by rewrite <- app_assoc|]. apply Forall_app. split; [done|].
           apply Forall_singleton. by exists message.
        -- intros (ms1 & ms2 & Heq & Hsend).
           destruct (Hsplit SignalingChannel.call_close ms1 ms2 ltac:(done) Heq Hsend)
             as [(_ & ? & _)|(ms2' & -> & -> & _)]; [done|].
           exists ms1, ms2'. split; [done|]. by apply Forall_app in Hsend as [? _].
    + rewrite Forall_app, Forall_singleton. destruct m as [| |message]; simpl.
      * split; [done|]. by intros [_ [x ?]].
      * split; [done|]. by intros [_ [x ?]].
      * unfold SignalingChannel.send. rewrite IHnew. split; [|tauto].
        intros ?. split; [done|]. by exists message.
    + intros message. by rewrite !run_snoc.
Qed.

(** ** Further properties: local media *)

(** X19.  [getStream] returns the stream of the first entry whose stored
    constraints, with [video.mandatory.chromeMediaSourceId] deleted, equal
    the constraints asked for; it finds nothing when every entry has
    constraints and none equals them; it throws a TypeError when it reaches
    an entry stored without constraints before any match. *)
Theorem getStream_finds_first_stripped_match
        (tc : option LocalMedia.Constraints) (l : list LocalMedia.CacheEntry) :
  let misses := λ e, ∃ sc, LocalMedia.e_constraints e = Some sc
                           ∧ Some (LocalMedia.strip sc) ≠ tc in
  match LocalMedia.getStream tc l with
  | Js.Normal (Some r) =>
      ∃ l1 e l2 sc, l = l1 ++ e :: l2 ∧ Forall misses l1
                    ∧ LocalMedia.e_constraints e = Some sc
                    ∧ Some (LocalMedia.strip sc) = tc
                    ∧ LocalMedia.e_stream e = r
  | Js.Normal None => Forall misses l
  | Js.Throw err =>
      err = Js.TypeError "sConstraints.video"
      ∧ ∃ l1 e l2, l = l1 ++ e :: l2 ∧ Forall misses l1
                   ∧ LocalMedia.e_constraints e = None
  end.
Proof.
  intros misses. induction l as [|e l IH]; [by constructor|].
  rewrite getStream_cons. destruct (LocalMedia.e_constraints e) as [sc|] eqn:Hsc.
  - case_bool_decide as Heq.
    + exists [], e, l, sc. split_and!; try done.
    + assert (misses e) as He by (exists sc; done).
      destruct (LocalMedia.getStream tc l) as [[r|]|err].
      * destruct IH as (l1 & e' & l2 & sc' & -> & Hl1 & Hrest).
        exists (e :: l1), e', l2, sc'. split; [done|]. split; [by constructor | done].
      * by constructor.
      * destruct IH as (-> & l1 & e' & l2 & -> & Hl1 & Hnone). split; [done|].
        exists (e :: l1), e', l2. split; [done|]. split; [by constructor | done].
  - split; [done|]. exists [], e, l. split_and!; try done.
Qed.

(** X20.  [removeStream] removes one entry, the first whose stored
    constraints equal the given ones as they are, and leaves the cache as it
    is when there is none; the other entries keep their order. *)
Theorem removeStream_removes_first_equal
        (tc : option LocalMedia.Constraints) (l : list LocalMedia.CacheEntry) :
  (Forall (λ e, LocalMedia.e_constraints e ≠ tc) l → LocalMedia.removeStream tc l = l)
  ∧ (∀ l1 e l2,
       l = l1 ++ e :: l2 →
       Forall (λ e, LocalMedia.e_constraints e ≠ tc) l1 →
       LocalMedia.e_constraints e = tc →
       LocalMedia.removeStream tc l = l1 ++ l2).
Proof.
  split.
  - intros Hall. unfold LocalMedia.removeStream.
    replace (LocalMedia.toRemoveIndex tc l) with (@None nat); [done|].
    induction Hall as [|e l He _ IH]; [done|]. simpl. unfold LocalMedia.isEqual.
    rewrite bool_decide_eq_false_2 by done. by rewrite <- IH.
  - intros l1 e l2 -> Hl1 He. unfold LocalMedia.removeStream.
    rewrite (toRemoveIndex_first tc (l1 ++ e :: l2) (length l1) e).
    + apply delete_middle.
    + by rewrite list_lookup_middle.
    + done.
    + intros j e' Hj Hl. rewrite lookup_app_l in Hl by done.
      rewrite Forall_lookup in Hl1. by apply (Hl1 j).
Qed.

(** X21.  [getStream] and [removeStream] disagree on an entry stored under
    constraints that carry a source id: looked up by the constraints without
    the id, the entry's stream is found, since the lookup deletes the id from
    its copy first; removed by the same constraints, the entry stays, since
    the removal compares the stored constraints as they are. *)
Theorem sourceId_entry_found_but_not_removed
        (r : nat) (sc : LocalMedia.Constraints) :
  Js.truthy_opt (LocalMedia.sourceId_of sc) = true →
  let entry := LocalMedia.mkEntry r (Some sc) in
  LocalMedia.getStream (Some (LocalMedia.strip sc)) [entry] = Js.Normal (Some r)
  ∧ LocalMedia.removeStream (Some (LocalMedia.strip sc)) [entry] = [entry]
  ∧ LocalMedia.removeStream (Some sc) [entry] = [].
Proof.
  intros Hid entry. split_and!.
  - simpl. unfold LocalMedia.isEqual. by rewrite bool_decide_eq_true_2.
  - unfold LocalMedia.removeStream. simpl. unfold LocalMedia.isEqual.
    rewrite bool_decide_eq_false_2; [done|]. intros [= Heq].
    pose proof (strip_sourceId_of sc) as Hfalsy. rewrite <- Heq in Hfalsy. congruence.
  - unfold LocalMedia.removeStream. simpl. unfold LocalMedia.isEqual.
    by rewrite bool_decide_eq_true_2.
Qed.

Lemma sourceId_entry_found_but_not_removed_witness :
  let screen := LocalMedia.mkConstraints None
                  (Some (LocalMedia.media_object
                           (Some (LocalMedia.mkMandatory (Some "desktop") (Some "screen:0")))
                           None None)) false in
  let asked := LocalMedia.mkConstraints None
                 (Some (LocalMedia.media_object
                          (Some (LocalMedia.mkMandatory (Some "desktop") None)) None None))
                 false in
  LocalMedia.strip screen = asked
  ∧ LocalMedia.getStream (Some (LocalMedia.strip screen)) [LocalMedia.mkEntry 0 (Some screen)]
    = Js.Normal (Some 0%nat)
  ∧ LocalMedia.removeStream (Some (LocalMedia.strip screen))
      [LocalMedia.mkEntry 0 (Some screen)]
    = [LocalMedia.mkEntry 0 (Some screen)].
Proof.
  intros screen asked. split; [reflexivity|].
  destruct (sourceId_entry_found_but_not_removed 0 screen eq_refl) as (H1 & H2 & _).
  split; [exact H1 | exact H2].
Defined.

(** X22.  [start()] ends without a capture, with the cache, the streams and
    the instance's stream untouched and nothing published, in three cases: a
    temporary instance is rejected with "Temporary local media started!"; an
    instance without constraints with "No constraints."; a screen share on a
    platform without a source chooser with "Screen sharing not implemented on
    this platform yet.".  In the first two cases no timer is touched; in the
    last a new 'requesting-media' timer was set before the test, its handle
    is the one kept, and it stays pending. *)
Theorem start_rejects_without_capture
        (a : LocalMedia.Answers) (that : LocalMedia.t) (w : LocalMedia.Respoke) :
  let rejected_with := λ msg x,
    LocalMedia.deferred x = Js.reject (Js.mkError msg) (LocalMedia.deferred that)
    ∧ LocalMedia.stream x = LocalMedia.stream that
    ∧ LocalMedia.emitter x = LocalMedia.emitter that in
  (LocalMedia.temporary that = true →
   ∃ x, LocalMedia.start_and_capture a that w = Js.Normal (x, w)
        ∧ rejected_with "Temporary local media started!" x
        ∧ LocalMedia.allowTimer x = LocalMedia.allowTimer that
        ∧ LocalMedia.timers x = LocalMedia.timers that)
  ∧ (LocalMedia.temporary that = false → LocalMedia.constraints that = None →
     ∃ x, LocalMedia.start_and_capture a that w = Js.Normal (x, w)
          ∧ rejected_with "No constraints." x
          ∧ LocalMedia.allowTimer x = LocalMedia.allowTimer that
          ∧ LocalMedia.timers x = LocalMedia.timers that)
  ∧ (∀ c,
       LocalMedia.temporary that = false →
       LocalMedia.constraints that = Some c →
       LocalMedia.getStream (Some (LocalMedia.apply_fake (LocalMedia.platform w) c))
                            (LocalMedia.streams w) = Js.Normal None →
       LocalMedia.requestingScreenShare (LocalMedia.apply_fake (LocalMedia.platform w) c)
       = Js.Normal true →
       LocalMedia.isNwjs (LocalMedia.platform w) = false →
       LocalMedia.needsChromeExtension (LocalMedia.platform w)
       && LocalMedia.hasChromeExtension (LocalMedia.platform w) = false →
       LocalMedia.needsFirefoxExtension (LocalMedia.platform w)
       && LocalMedia.hasFirefoxExtension (LocalMedia.platform w) = false →
       ∃ x, LocalMedia.start_and_capture a that w = Js.Normal (x, w)
            ∧ rejected_with "Screen sharing not implemented on this platform yet." x
            ∧ LocalMedia.allowTimer x = S (LocalMedia.timer_seq that)
            ∧ LocalMedia.timers x
              = LocalMedia.timers that ++ [S (LocalMedia.timer_seq that)]).
Proof.
  intros rejected_with. subst rejected_with. split_and!.
  - intros Htemp. unfold LocalMedia.start_and_capture, LocalMedia.start. rewrite Htemp.
    simpl. eexists. split; [reflexivity|]. done.
  - intros Htemp Hnone. unfold LocalMedia.start_and_capture, LocalMedia.start.
    rewrite Htemp. unfold LocalMedia.requestMedia. rewrite Hnone. simpl.
    eexists. split; [reflexivity|]. done.
  - intros c Htemp Hc Hmiss Hscreen Hnw Hchrome Hff.
    unfold LocalMedia.start_and_capture, LocalMedia.start.
    rewrite Htemp. unfold LocalMedia.requestMedia. rewrite Hc. simpl.
    rewrite Hmiss. simpl. rewrite Hscreen. simpl. rewrite Hnw, Hchrome, Hff. simpl.
    eexists. split; [reflexivity|]. done.
Qed.

Lemma start_rejects_without_capture_witness :
  let w := LocalMedia.mkRespoke ∅ []
             (LocalMedia.mkPlatform false false true false false false) in
  let screen := LocalMedia.mkConstraints None
                  (Some (LocalMedia.media_object None None (Some "screen"))) false in
  let that := LocalMedia.new "A" (Some screen) in
  ∃ x, LocalMedia.start_and_capture (LocalMedia.mkAnswers None "" 0) that w
       = Js.Normal (x, w)
       ∧ (LocalMedia.deferred x
          = Js.reject (Js.mkError "Screen sharing not implemented on this platform yet.")
                      (LocalMedia.deferred that)
          ∧ LocalMedia.stream x = LocalMedia.stream that
          ∧ LocalMedia.emitter x = LocalMedia.emitter that)
       ∧ LocalMedia.allowTimer x = 1%nat
       ∧ LocalMedia.timers x = [1%nat].
Proof.
  intros w screen that.
  destruct (start_rejects_without_capture (LocalMedia.mkAnswers None "" 0) that w)
    as (_ & _ & Hscreen).
  apply (Hscreen screen); reflexivity.
Defined.

Section TimerProperties.
Import Js LocalMedia.

(** A [start()] that hands a request to the media engine has set a timer and
    changed nothing else but the [fake] flag of the constraints. *)
Lemma start_gum_request (that x : t) (w w1 : Respoke) (c : Constraints) :
  start that w = Normal (x, w1, gum_request c) →
  w1 = w ∧ x = setTimeout (with_constraints (Some c) that).
Proof.
  unfold start. destruct (temporary that); [done|]. unfold requestMedia.
  destruct (constraints that) as [c0|]; [|done]. simpl.
  destruct (getStream _ _) as [[r|]|e]; simpl; [| |done].
  { by destruct (onReceiveUserMedia _ _ _) as [[x0 w0]|e]. }
  destruct (requestingScreenShare _) as [[|]|e]; simpl; [| |done].
  - destruct (isNwjs _ || _); [done|].
    destruct (needsFirefoxExtension _ && _); [|done]. by intros [= <- <- <-].
  - by intros [= <- <- <-].
Qed.

(** Clearing a timer that is set after all pending ones. *)
Lemma filter_last_handle (l : list nat) (n h : nat) :
  Forall (λ k, k ≤ n)%nat l → (n < h)%nat →
  filter (λ k, k ≠ h) (l ++ [h]) = l
  ∧ filter (λ k, k ≠ S h) (l ++ [h; S h]) = l ++ [h].
Proof.
  intros Hall Hlt.
  assert (∀ g, (n < g)%nat → filter (λ k, k ≠ g) l = l) as Hkeep.
  { intros g Hg. induction Hall as [|k l Hk _ IH]; [done|].
    rewrite filter_cons_True by lia. by rewrite IH. }
  rewrite !filter_app, !Hkeep by lia. split.
  - rewrite filter_cons_False by (by intros Hne; apply Hne). by rewrite app_nil_r.
  - rewrite filter_cons_True by lia. rewrite filter_cons_False by (by intros Hne; apply Hne).
    done.
Qed.

(** A timer expires once. *)
Lemma on_allow_timer_twice (handle : nat) (x : t) :
  on_allow_timer handle (on_allow_timer handle x) = on_allow_timer handle x.
Proof.
  destruct (decide (handle ∈ timers x)) as [Hin|Hout].
  - assert (on_allow_timer handle x
            = fire EventEmitter.requesting_media_event
                   (with_timers (filter (λ h, h ≠ handle) (timers x)) x)) as ->.
    { unfold on_allow_timer. by rewrite bool_decide_eq_true_2. }
    unfold on_allow_timer. simpl. rewrite bool_decide_eq_false_2; [done|].
    intros Hin'. apply list_elem_of_filter in Hin' as [Hne _]. by apply Hne.
  - assert (on_allow_timer handle x = x) as Hsame.
    { unfold on_allow_timer. by rewrite bool_decide_eq_false_2. }
    by rewrite !Hsame.
Qed.

End TimerProperties.

(** X23.  The 'requesting-media' timers.  A [start()] that hands a request
    to the media engine has set a new timer and keeps its handle, over the
    handle kept before, whose timer it has not cleared.  [onReceiveUserMedia]
    clears the timer of the handle kept and no other; [onUserMediaError]
    clears none.  So after a capture the expiry of the timer whose handle is
    kept publishes nothing; after a capture error (reported as "Permission
    denied." for code 1, "Unknown." otherwise) it publishes one
    'requesting-media' notification, and only one; and after [start()],
    [start()] and then a capture, the timer of the first [start()] is still
    pending, and its expiry publishes 'requesting-media' after the 'allow'. *)
Theorem allowTimer_clears_last_timer_only
        (that : LocalMedia.t) (w : LocalMedia.Respoke) :
  (∀ r x' w', LocalMedia.onReceiveUserMedia r that w = Js.Normal (x', w') →
              LocalMedia.timers x'
              = filter (λ handle, handle ≠ LocalMedia.allowTimer that)
                       (LocalMedia.timers that)
              ∧ LocalMedia.on_allow_timer (LocalMedia.allowTimer that) x' = x')
  ∧ (∀ x w1 c code,
       LocalMedia.start that w = Js.Normal (x, w1, LocalMedia.gum_request c) →
       let handle := S (LocalMedia.timer_seq that) in
       let failed := LocalMedia.onUserMediaError code x in
       LocalMedia.allowTimer x = handle
       ∧ LocalMedia.timers x = LocalMedia.timers that ++ [handle]
       ∧ w1 = w
       ∧ LocalMedia.constraints x = Some c
       ∧ LocalMedia.deferred failed
         = Js.reject (Js.mkError ("Error getting user media: "
                                  +:+ (if code =? 1 then "Permission denied." else "Unknown.")))
                     (LocalMedia.deferred that)
       ∧ LocalMedia.timers failed = LocalMedia.timers x
       ∧ EventEmitter.fired (LocalMedia.emitter (LocalMedia.on_allow_timer handle failed))
         = EventEmitter.fired (LocalMedia.emitter that)
             ++ [EventEmitter.requesting_media_event]
       ∧ LocalMedia.on_allow_timer handle (LocalMedia.on_allow_timer handle failed)
         = LocalMedia.on_allow_timer handle failed)
  ∧ (∀ x1 w1 c1 x2 w2 c2 r x3 w3,
       Forall (λ handle, handle ≤ LocalMedia.timer_seq that)%nat (LocalMedia.timers that) →
       LocalMedia.start that w = Js.Normal (x1, w1, LocalMedia.gum_request c1) →
       LocalMedia.start x1 w1 = Js.Normal (x2, w2, LocalMedia.gum_request c2) →
       LocalMedia.onReceiveUserMedia r x2 w2 = Js.Normal (x3, w3) →
       let first := S (LocalMedia.timer_seq that) in
       LocalMedia.allowTimer x1 = first
       ∧ LocalMedia.allowTimer x2 = S first
       ∧ LocalMedia.timers x3 = LocalMedia.timers that ++ [first]
       ∧ EventEmitter.fired (LocalMedia.emitter (LocalMedia.on_allow_timer first x3))
         = EventEmitter.fired (LocalMedia.emitter that)
             ++ [EventEmitter.allow_event; EventEmitter.requesting_media_event]).
Proof.
  split_and!.
  - intros r x' w' Hrun.
    apply onReceiveUserMedia_frame in Hrun as (_ & _ & Htimers & _ & _ & _ & _ & Hkept & _).
    split; [done|]. unfold LocalMedia.on_allow_timer.
    rewrite bool_decide_eq_false_2; [done|]. rewrite Htimers.
    intros Hin. apply list_elem_of_filter in Hin as [Hne _]. by apply Hne.
  - intros x w1 c code Hstart handle failed.
    apply start_gum_request in Hstart as [-> ->]. subst failed.
    split_and!; try done.
    + unfold LocalMedia.on_allow_timer, LocalMedia.onUserMediaError. simpl.
      rewrite bool_decide_eq_true_2 by (apply elem_of_app; right; left). done.
    + apply on_allow_timer_twice.
  - intros x1 w1 c1 x2 w2 c2 r x3 w3 Hfresh Hstart1 Hstart2 Hrun first.
    apply start_gum_request in Hstart1 as [-> ->].
    apply start_gum_request in Hstart2 as [-> ->].
    apply onReceiveUserMedia_frame in Hrun
      as (_ & _ & Htimers & _ & _ & _ & Hfired & _). simpl in Htimers, Hfired.
    rewrite <- app_assoc in Htimers. simpl in Htimers.
    destruct (filter_last_handle (LocalMedia.timers that) (LocalMedia.timer_seq that) first
                Hfresh) as [_ Hlast]; [unfold first; lia|].
    fold first in Htimers. rewrite Hlast in Htimers.
    split_and!; try done.
    unfold LocalMedia.on_allow_timer.
    rewrite bool_decide_eq_true_2 by (rewrite Htimers; apply elem_of_app; right; left).
    simpl. by rewrite Hfired, <- app_assoc.
Qed.

(** The last part on a new instance asking for audio and video on an empty
    cache: two [start()]s and one capture leave timer 1 pending. *)
Lemma allowTimer_clears_last_timer_only_witness :
  let c := LocalMedia.mkConstraints (Some (LocalMedia.media_flag true))
             (Some (LocalMedia.media_flag true)) false in
  let w := LocalMedia.mkRespoke
             {[ 0%nat := LocalMedia.mkStream None [] [LocalMedia.mkTrack true] false [] ]} []
             (LocalMedia.mkPlatform false false false false false false) in
  let that := LocalMedia.new "A" (Some c) in
  ∃ x1 x2 x3 w3,
    LocalMedia.start that w = Js.Normal (x1, w, LocalMedia.gum_request c)
    ∧ LocalMedia.start x1 w = Js.Normal (x2, w, LocalMedia.gum_request c)
    ∧ LocalMedia.onReceiveUserMedia 0 x2 w = Js.Normal (x3, w3)
    ∧ LocalMedia.timers x3 = [1%nat]
    ∧ EventEmitter.fired (LocalMedia.emitter (LocalMedia.on_allow_timer 1 x3))
      = [EventEmitter.allow_event; EventEmitter.requesting_media_event].
Proof.
  intros c w that.
  eexists _, _, _, _. split; [reflexivity|]. split; [reflexivity|].
  split; [reflexivity|].
  destruct (allowTimer_clears_last_timer_only that w) as (_ & _ & Hlast).
  destruct (Hlast _ w c _ w c 0%nat _ _ (Forall_nil_2 _) eq_refl eq_refl eq_refl)
    as (_ & _ & Htimers & Hfired).
  split; [exact Htimers | exact Hfired].
Defined.

Section MuteRoundTripProperties.
Import Js LocalMedia.

Lemma getAudioTracks_update (r : nat) (f : list Track → list Track) (w : Respoke) :
  getAudioTracks (update r (λ s, set_audioTracks (f (audioTracks s)) s) w) r
  = match heap w !! r with
    | Some s => f (audioTracks s)
    | None => []
    end.
Proof.
  unfold getAudioTracks, update. simpl. rewrite lookup_alter_eq.
  by destruct (heap w !! r).
Qed.

Lemma all_disabled_eachTrack (b : bool) (tracks : list Track) :
  tracks ≠ [] → all_disabled (eachTrack b tracks) = Some (negb b).
Proof.
  destruct tracks as [|x tracks]; [done|]. intros _. simpl. f_equal.
  induction tracks as [|y tracks IH]; simpl; [by destruct b|].
  rewrite andb_assoc, andb_diag. exact IH.
Qed.

Lemma eachTrack_twice (b b' : bool) (tracks : list Track) :
  eachTrack b (eachTrack b' tracks) = eachTrack b tracks.
Proof. unfold eachTrack. by rewrite <- list_fmap_compose. Qed.

Lemma eachTrack_length (b : bool) (tracks : list Track) :
  length (eachTrack b tracks) = length tracks.
Proof. apply length_fmap. Qed.

Lemma all_disabled_Some (tracks : list Track) (b : bool) :
  all_disabled tracks = Some b → tracks ≠ [].
Proof. by destruct tracks. Qed.

End MuteRoundTripProperties.

(** X24.  On a stream whose video tracks are not all disabled,
    [muteVideo()] followed by [unmuteVideo()] publishes two 'mute'
    notifications, muted and then unmuted, and leaves every video track
    enabled, also one that was disabled before the mute; the audio tracks,
    the cache and the answer of [hasVideo()] are unchanged throughout, and a
    further [unmuteVideo()] does nothing. *)
Theorem muteVideo_unmuteVideo_enables_all
        (f : Capabilities.Flags) (that : LocalMedia.t) (w : LocalMedia.Respoke) (r : nat) :
  LocalMedia.stream that = Some r →
  LocalMedia.isVideoMuted that w = Some false →
  ∃ that1 w1 that2 w2,
    LocalMedia.muteVideo that w = Js.Normal (that1, w1)
    ∧ LocalMedia.isVideoMuted that1 w1 = Some true
    ∧ Capabilities.hasVideo f that1 w1 = Capabilities.hasVideo f that w
    ∧ LocalMedia.unmuteVideo that1 w1 = Js.Normal (that2, w2)
    ∧ LocalMedia.isVideoMuted that2 w2 = Some false
    ∧ LocalMedia.getVideoTracks w2 r
      = LocalMedia.eachTrack true (LocalMedia.getVideoTracks w r)
    ∧ LocalMedia.getAudioTracks w2 r = LocalMedia.getAudioTracks w r
    ∧ LocalMedia.streams w2 = LocalMedia.streams w
    ∧ EventEmitter.fired (LocalMedia.emitter that2)
      = EventEmitter.fired (LocalMedia.emitter that)
          ++ [EventEmitter.mute_event "video" true; EventEmitter.mute_event "video" false]
    ∧ LocalMedia.unmuteVideo that2 w2 = Js.Normal (that2, w2).
Proof.
  intros Hs Hmuted.
  assert (LocalMedia.getVideoTracks w r ≠ []) as Htracks.
  { unfold LocalMedia.isVideoMuted in Hmuted. rewrite Hs in Hmuted.
    by apply all_disabled_Some in Hmuted. }
  destruct (LocalMedia.heap w !! r) as [s|] eqn:Hh;
    [|by unfold LocalMedia.getVideoTracks in Htracks; rewrite Hh in Htracks].
  assert (LocalMedia.getVideoTracks w r = LocalMedia.videoTracks s) as Hvs
    by (by unfold LocalMedia.getVideoTracks; rewrite Hh).
  rewrite Hvs in Htracks.
  set (that1 := LocalMedia.fire (EventEmitter.mute_event "video" true) that).
  set (w1 := LocalMedia.update r
               (λ s, LocalMedia.set_videoTracks
                       (LocalMedia.eachTrack false (LocalMedia.videoTracks s)) s) w).
  set (that2 := LocalMedia.fire (EventEmitter.mute_event "video" false) that1).
  set (w2 := LocalMedia.update r
               (λ s, LocalMedia.set_videoTracks
                       (LocalMedia.eachTrack true (LocalMedia.videoTracks s)) s) w1).
  assert (LocalMedia.heap w1 !! r
          = Some (LocalMedia.set_videoTracks
                    (LocalMedia.eachTrack false (LocalMedia.videoTracks s)) s)) as Hh1.
  { unfold w1, LocalMedia.update. simpl. by rewrite lookup_alter_eq, Hh. }
  assert (LocalMedia.getVideoTracks w1 r
          = LocalMedia.eachTrack false (LocalMedia.videoTracks s)) as Hv1.
  { unfold w1. by rewrite (getVideoTracks_update r (LocalMedia.eachTrack false)), Hh. }
  assert (LocalMedia.getVideoTracks w2 r
          = LocalMedia.eachTrack true (LocalMedia.videoTracks s)) as Hv2.
  { unfold w2. rewrite (getVideoTracks_update r (LocalMedia.eachTrack true)), Hh1. simpl.
    apply eachTrack_twice. }
  assert (LocalMedia.isVideoMuted that1 w1 = Some true) as Hm1.
  { unfold LocalMedia.isVideoMuted. simpl. rewrite Hs, Hv1.
    by apply (all_disabled_eachTrack false). }
  assert (LocalMedia.isVideoMuted that2 w2 = Some false) as Hm2.
  { unfold LocalMedia.isVideoMuted. simpl. rewrite Hs, Hv2.
    by apply (all_disabled_eachTrack true). }
  exists that1, w1, that2, w2. split_and!.
  - unfold LocalMedia.muteVideo. by rewrite Hmuted, Hs.
  - exact Hm1.
  - unfold Capabilities.hasVideo. simpl. rewrite Hs, Hv1, Hvs.
    by rewrite eachTrack_length.
  - unfold LocalMedia.unmuteVideo. rewrite Hm1. simpl. by rewrite Hs.
  - exact Hm2.
  - by rewrite Hv2, Hvs.
  - unfold LocalMedia.getAudioTracks, w2, LocalMedia.update, LocalMedia.with_heap.
    cbn [LocalMedia.heap]. by rewrite lookup_alter_eq, Hh1, Hh.
  - done.
  - simpl. by rewrite <- app_assoc.
  - unfold LocalMedia.unmuteVideo. by rewrite Hm2.
Qed.

Lemma muteVideo_unmuteVideo_enables_all_witness :
  let s := LocalMedia.mkStream (Some 1) [] [LocalMedia.mkTrack true; LocalMedia.mkTrack false]
                               false [] in
  let w := LocalMedia.mkRespoke {[ 0%nat := s ]} []
             (LocalMedia.mkPlatform false false false false false false) in
  let that := LocalMedia.with_stream (Some 0%nat) (LocalMedia.new "A" None) in
  ∃ that1 w1 that2 w2,
    LocalMedia.muteVideo that w = Js.Normal (that1, w1)
    ∧ LocalMedia.unmuteVideo that1 w1 = Js.Normal (that2, w2)
    ∧ LocalMedia.getVideoTracks w2 0
      = [LocalMedia.mkTrack true; LocalMedia.mkTrack true].
Proof.
  intros s w that.
  destruct (muteVideo_unmuteVideo_enables_all (Capabilities.mkFlags false false false)
              that w 0 eq_refl eq_refl)
    as (that1 & w1 & that2 & w2 & H1 & _ & _ & H2 & _ & H3 & _).
  exists that1, w1, that2, w2. split; [exact H1|]. split; [exact H2|]. exact H3.
Defined.

(** X25.  The same for audio: on a stream whose audio tracks are not all
    disabled, [muteAudio()] followed by [unmuteAudio()] publishes two 'mute'
    notifications of type 'audio' and leaves every audio track enabled; the
    video tracks and the answer of [hasAudio()] are unchanged, and a further
    [muteAudio()] after the first publishes nothing. *)
Theorem muteAudio_unmuteAudio_enables_all
        (f : Capabilities.Flags) (that : LocalMedia.t) (w : LocalMedia.Respoke) (r : nat) :
  LocalMedia.stream that = Some r →
  LocalMedia.isAudioMuted that w = Some false →
  ∃ that1 w1 that2 w2,
    LocalMedia.muteAudio that w = Js.Normal (that1, w1)
    ∧ LocalMedia.isAudioMuted that1 w1 = Some true
    ∧ LocalMedia.muteAudio that1 w1 = Js.Normal (that1, w1)
    ∧ Capabilities.hasAudio f that1 w1 = Capabilities.hasAudio f that w
    ∧ LocalMedia.unmuteAudio that1 w1 = Js.Normal (that2, w2)
    ∧ LocalMedia.isAudioMuted that2 w2 = Some false
    ∧ LocalMedia.getAudioTracks w2 r
      = LocalMedia.eachTrack true (LocalMedia.getAudioTracks w r)
    ∧ LocalMedia.getVideoTracks w2 r = LocalMedia.getVideoTracks w r
    ∧ EventEmitter.fired (LocalMedia.emitter that2)
      = EventEmitter.fired (LocalMedia.emitter that)
          ++ [EventEmitter.mute_event "audio" true; EventEmitter.mute_event "audio" false].
Proof.
  intros Hs Hmuted.
  assert (LocalMedia.getAudioTracks w r ≠ []) as Htracks.
  { unfold LocalMedia.isAudioMuted in Hmuted. rewrite Hs in Hmuted.
    by apply all_disabled_Some in Hmuted. }
  destruct (LocalMedia.heap w !! r) as [s|] eqn:Hh;
    [|by unfold LocalMedia.getAudioTracks in Htracks; rewrite Hh in Htracks].
  assert (LocalMedia.getAudioTracks w r = LocalMedia.audioTracks s) as Hvs
    by (by unfold LocalMedia.getAudioTracks; rewrite Hh).
  rewrite Hvs in Htracks.
  set (that1 := LocalMedia.fire (EventEmitter.mute_event "audio" true) that).
  set (w1 := LocalMedia.update r
               (λ s, LocalMedia.set_audioTracks
                       (LocalMedia.eachTrack false (LocalMedia.audioTracks s)) s) w).
  set (that2 := LocalMedia.fire (EventEmitter.mute_event "audio" false) that1).
  set (w2 := LocalMedia.update r
               (λ s, LocalMedia.set_audioTracks
                       (LocalMedia.eachTrack true (LocalMedia.audioTracks s)) s) w1).
  assert (LocalMedia.heap w1 !! r
          = Some (LocalMedia.set_audioTracks
                    (LocalMedia.eachTrack false (LocalMedia.audioTracks s)) s)) as Hh1.
  { unfold w1, LocalMedia.update. simpl. by rewrite lookup_alter_eq, Hh. }
  assert (LocalMedia.getAudioTracks w1 r
          = LocalMedia.eachTrack false (LocalMedia.audioTracks s)) as Hv1.
  { unfold w1. by rewrite (getAudioTracks_update r (LocalMedia.eachTrack false)), Hh. }
  assert (LocalMedia.getAudioTracks w2 r
          = LocalMedia.eachTrack true (LocalMedia.audioTracks s)) as Hv2.
  { unfold w2. rewrite (getAudioTracks_update r (LocalMedia.eachTrack true)), Hh1. simpl.
    apply eachTrack_twice. }
  assert (LocalMedia.isAudioMuted that1 w1 = Some true) as Hm1.
  { unfold LocalMedia.isAudioMuted. simpl. rewrite Hs, Hv1.
    by apply (all_disabled_eachTrack false). }
  assert (LocalMedia.isAudioMuted that2 w2 = Some false) as Hm2.
  { unfold LocalMedia.isAudioMuted. simpl. rewrite Hs, Hv2.
    by apply (all_disabled_eachTrack true). }
  exists that1, w1, that2, w2. split_and!.
  - unfold LocalMedia.muteAudio. by rewrite Hmuted, Hs.
  - exact Hm1.
  - unfold LocalMedia.muteAudio. by rewrite Hm1.
  - unfold Capabilities.hasAudio. simpl. rewrite Hs, Hv1, Hvs.
    by rewrite eachTrack_length.
  - unfold LocalMedia.unmuteAudio. rewrite Hm1. simpl. by rewrite Hs.
  - exact Hm2.
  - by rewrite Hv2, Hvs.
  - unfold LocalMedia.getVideoTracks, w2, LocalMedia.update, LocalMedia.with_heap.
    cbn [LocalMedia.heap]. by rewrite lookup_alter_eq, Hh1, Hh.
  - simpl. by rewrite <- app_assoc.
Qed.

Lemma muteAudio_unmuteAudio_enables_all_witness :
  let s := LocalMedia.mkStream (Some 1) [LocalMedia.mkTrack true] [] false [] in
  let w := LocalMedia.mkRespoke {[ 0%nat := s ]} []
             (LocalMedia.mkPlatform false false false false false false) in
  let that := LocalMedia.with_stream (Some 0%nat) (LocalMedia.new "A" None) in
  ∃ that1 w1 that2 w2,
    LocalMedia.muteAudio that w = Js.Normal (that1, w1)
    ∧ LocalMedia.muteAudio that1 w1 = Js.Normal (that1, w1)
    ∧ LocalMedia.unmuteAudio that1 w1 = Js.Normal (that2, w2)
    ∧ LocalMedia.getAudioTracks w2 0 = [LocalMedia.mkTrack true].
Proof.
  intros s w that.
  destruct (muteAudio_unmuteAudio_enables_all (Capabilities.mkFlags false false false)
              that w 0 eq_refl eq_refl)
    as (that1 & w1 & that2 & w2 & H1 & _ & H2 & _ & H3 & _ & H4 & _).
  exists that1, w1, that2, w2. split; [exact H1|]. split; [exact H2|].
  split; [exact H3|]. exact H4.
Defined.

(** X26.  On an instance without a stream the mute methods differ:
    [muteVideo()] and [muteAudio()] throw a TypeError, reading a method of
    the missing stream, while [unmuteVideo()], [unmuteAudio()] and [stop()]
    return without a change and without a notification; both muted queries
    answer [undefined]. *)
Theorem without_stream_mute_throws_unmute_returns
        (that : LocalMedia.t) (w : LocalMedia.Respoke) :
  LocalMedia.stream that = None →
  LocalMedia.isVideoMuted that w = None
  ∧ LocalMedia.isAudioMuted that w = None
  ∧ LocalMedia.muteVideo that w = Js.Throw (Js.TypeError "that.stream.getVideoTracks")
  ∧ LocalMedia.muteAudio that w = Js.Throw (Js.TypeError "that.stream.getAudioTracks")
  ∧ LocalMedia.unmuteVideo that w = Js.Normal (that, w)
  ∧ LocalMedia.unmuteAudio that w = Js.Normal (that, w)
  ∧ LocalMedia.stop that w = (that, w)
  ∧ LocalMedia.hasMedia that = false.
Proof.
  intros Hs.
  unfold LocalMedia.muteVideo, LocalMedia.muteAudio, LocalMedia.unmuteVideo,
    LocalMedia.unmuteAudio, LocalMedia.isVideoMuted, LocalMedia.isAudioMuted,
    LocalMedia.stop, LocalMedia.hasMedia.
  by rewrite Hs.
Qed.

Lemma without_stream_mute_throws_unmute_returns_witness :
  let that := LocalMedia.new "A" None in
  let w := LocalMedia.mkRespoke ∅ []
             (LocalMedia.mkPlatform false false false false false false) in
  LocalMedia.muteVideo that w = Js.Throw (Js.TypeError "that.stream.getVideoTracks")
  ∧ LocalMedia.unmuteVideo that w = Js.Normal (that, w).
Proof.
  intros that w.
  destruct (without_stream_mute_throws_unmute_returns that w eq_refl)
    as (_ & _ & H1 & _ & H2 & _).
  split; [exact H1 | exact H2].
Defined.

(** X27.  The capability queries: with a stream they answer from its
    tracks, whatever the flags say, and [hasScreenShare()] then holds only
    if [hasVideo()] does; after [stop()], whether the instance had a stream
    or not, they answer from the flags alone and [hasMedia()] is false. *)
Theorem capabilities_follow_stream_then_flags
        (f : Capabilities.Flags) (that : LocalMedia.t) (w : LocalMedia.Respoke) :
  (∀ r, LocalMedia.stream that = Some r →
        LocalMedia.hasMedia that = true
        ∧ (Capabilities.hasVideo f that w = true ↔ LocalMedia.getVideoTracks w r ≠ [])
        ∧ (Capabilities.hasAudio f that w = true ↔ LocalMedia.getAudioTracks w r ≠ [])
        ∧ (Capabilities.hasScreenShare f that w = true ↔
           Capabilities.hasVideo f that w = true
           ∧ Capabilities.hasScreenShare_requested f = true))
  ∧ (let that' := (LocalMedia.stop that w).1 in
     let w' := (LocalMedia.stop that w).2 in
     LocalMedia.hasMedia that' = false
     ∧ Capabilities.hasVideo f that' w' = Capabilities.sdpHasVideo f
     ∧ Capabilities.hasAudio f that' w' = Capabilities.sdpHasAudio f
     ∧ Capabilities.hasScreenShare f that' w' = Capabilities.hasScreenShare_requested f).
Proof.
  split.
  - intros r Hs.
    unfold LocalMedia.hasMedia, Capabilities.hasVideo, Capabilities.hasAudio,
      Capabilities.hasScreenShare. rewrite Hs. split_and!.
    + by apply bool_decide_eq_true_2.
    + rewrite bool_decide_eq_true. destruct (LocalMedia.getVideoTracks w r); simpl; split;
        (done || lia).
    + rewrite bool_decide_eq_true. destruct (LocalMedia.getAudioTracks w r); simpl; split;
        (done || lia).
    + by rewrite andb_true_iff.
  - assert (LocalMedia.stream (LocalMedia.stop that w).1 = None) as Hs.
    { unfold LocalMedia.stop. by destruct (LocalMedia.stream that) eqn:Hs. }
    simpl. unfold LocalMedia.hasMedia, Capabilities.hasVideo, Capabilities.hasAudio,
      Capabilities.hasScreenShare. by rewrite Hs.
Qed.

(** X28.  Two instances started with equal constraints that carry no
    source id and ask for no screen share, the first on an empty cache slot:
    the first capture gets the cache entry and the count 1; the second
    [start()] issues no capture, takes the cached stream and raises the
    count to 2.  The first [stop()] lowers the count to 1 and leaves the
    stream running and the entry cached; the second lowers it to 0, stops the
    stream and removes the entry, so the cache is as it was before. *)
Theorem shared_stream_released_by_last_stop
        (ans ans' : LocalMedia.Answers) (a b : LocalMedia.t) (w : LocalMedia.Respoke)
        (c : LocalMedia.Constraints) (s : LocalMedia.Stream) :
  LocalMedia.temporary a = false →
  LocalMedia.temporary b = false →
  LocalMedia.constraints a = Some c →
  LocalMedia.constraints b = Some c →
  LocalMedia.sourceId_of c = None →
  LocalMedia.getStream (Some (LocalMedia.apply_fake (LocalMedia.platform w) c))
                       (LocalMedia.streams w) = Js.Normal None →
  LocalMedia.requestingScreenShare (LocalMedia.apply_fake (LocalMedia.platform w) c)
  = Js.Normal false →
  LocalMedia.heap w !! LocalMedia.captured ans = Some s →
  let r := LocalMedia.captured ans in
  ∃ a1 w1 b1 w2,
    LocalMedia.start_and_capture ans a w = Js.Normal (a1, w1)
    ∧ LocalMedia.numPc_of w1 r = Some 1
    ∧ LocalMedia.start_and_capture ans' b w1 = Js.Normal (b1, w2)
    ∧ LocalMedia.stream a1 = Some r
    ∧ LocalMedia.stream b1 = Some r
    ∧ LocalMedia.numPc_of w2 r = Some 2
    ∧ LocalMedia.streams w2 = LocalMedia.streams w1
    ∧ length (LocalMedia.streams w1) = S (length (LocalMedia.streams w))
    ∧ let w3 := (LocalMedia.stop a1 w2).2 in
      let w4 := (LocalMedia.stop b1 w3).2 in
      LocalMedia.numPc_of w3 r = Some 1
      ∧ LocalMedia.is_stopped w3 r = LocalMedia.stopped s
      ∧ LocalMedia.streams w3 = LocalMedia.streams w1
      ∧ LocalMedia.numPc_of w4 r = Some 0
      ∧ LocalMedia.is_stopped w4 r = true
      ∧ LocalMedia.streams w4 = LocalMedia.streams w.
Proof.
  intros Hta Htb Hca Hcb Hid Hmiss Hscreen Hheap r. fold r in Hheap.
  set (c' := LocalMedia.apply_fake (LocalMedia.platform w) c) in *.
  assert (LocalMedia.sourceId_of c' = None) as Hid'
    by (by unfold c'; rewrite sourceId_of_apply_fake).
  pose proof (miss_no_equal_entry c' (LocalMedia.streams w) Hid' Hmiss) as Hall.
  (* the first start *)
  set (a0 := LocalMedia.setTimeout (LocalMedia.with_constraints (Some c') a)).
  destruct (onReceiveUserMedia_miss r a0 w Hmiss)
    as (a1 & w1 & Hrun1 & Hsa1 & Hca1 & Hl1 & Hh1 & _).
  pose proof (onReceiveUserMedia_frame r a0 a1 w w1 Hrun1) as (_ & _ & _ & Hp1 & _).
  simpl in Hca1, Hl1.
  (* the second start *)
  assert (LocalMedia.getStream (Some c') (LocalMedia.streams w1) = Js.Normal (Some r))
    as Hhit.
  { rewrite Hl1, (getStream_app_miss _ _ _ Hmiss), getStream_cons. simpl.
    rewrite strip_id by (by rewrite Hid'). by rewrite bool_decide_eq_true_2. }
  set (b0 := LocalMedia.with_constraints (Some c') b).
  destruct (onReceiveUserMedia_hit r r b0 w1 Hhit)
    as (b1 & w2 & Hrun2 & Hsb1 & Hcb1 & Hl2 & Hp2 & Hh2).
  simpl in Hcb1.
  assert (LocalMedia.heap w1 !! r
          = Some (LocalMedia.add_ended_listener (LocalMedia.id a0)
                    (LocalMedia.set_numPc (Some 1) s))) as Hs1.
  { by rewrite Hh1, !lookup_alter_eq, Hheap. }
  assert (LocalMedia.heap w2 !! r
          = Some (LocalMedia.add_ended_listener (LocalMedia.id b0)
                    (LocalMedia.set_numPc (Some 2)
                       (LocalMedia.add_ended_listener (LocalMedia.id a0)
                          (LocalMedia.set_numPc (Some 1) s))))) as Hs2.
  { by rewrite Hh2, !lookup_alter_eq, Hs1. }
  exists a1, w1, b1, w2. split_and!.
  - rewrite (start_and_capture_plain ans a w c); done.
  - unfold LocalMedia.numPc_of. by rewrite Hs1.
  - rewrite (start_and_capture_cached ans' b w1 c r); rewrite ?Hp1; done.
  - done.
  - done.
  - unfold LocalMedia.numPc_of. by rewrite Hs2.
  - done.
  - rewrite Hl1, length_app. simpl. lia.
  - (* the two stops *)
    pose proof (stop_live a1 w2 r _ 2 Hsa1 Hs2 eq_refl) as Hstop1. simpl in Hstop1.
    rewrite Hstop1. cbn [snd].
    set (w3 := LocalMedia.update r _ w2) in *.
    assert (LocalMedia.heap w3 !! r
            = Some (LocalMedia.set_numPc (Some 1)
                      (LocalMedia.add_ended_listener (LocalMedia.id b0)
                         (LocalMedia.set_numPc (Some 2)
                            (LocalMedia.add_ended_listener (LocalMedia.id a0)
                               (LocalMedia.set_numPc (Some 1) s)))))) as Hs3.
    { unfold w3, LocalMedia.update, LocalMedia.with_heap. cbn [LocalMedia.heap].
      by rewrite lookup_alter_eq, Hs2. }
    assert (LocalMedia.streams w3 = LocalMedia.streams w1) as Hl3 by done.
    pose proof (stop_live b1 w3 r _ 1 Hsb1 Hs3 eq_refl) as Hstop2. simpl in Hstop2.
    rewrite Hstop2. cbn [snd]. split_and!.
    + unfold LocalMedia.numPc_of. by rewrite Hs3.
    + unfold LocalMedia.is_stopped. by rewrite Hs3.
    + done.
    + unfold LocalMedia.numPc_of, LocalMedia.update, LocalMedia.with_heap,
        LocalMedia.with_streams. cbn [LocalMedia.heap].
      by rewrite !lookup_alter_eq, Hs3.
    + unfold LocalMedia.is_stopped, LocalMedia.update, LocalMedia.with_heap,
        LocalMedia.with_streams. cbn [LocalMedia.heap].
      by rewrite !lookup_alter_eq, Hs3.
    + unfold LocalMedia.with_streams. cbn [LocalMedia.streams].
      rewrite Hcb1. change (LocalMedia.removeStream (Some c') (LocalMedia.streams w3)
                            = LocalMedia.streams w).
      rewrite Hl3, Hl1. by apply removeStream_last.
Qed.

Lemma shared_stream_released_by_last_stop_witness :
  let c := LocalMedia.mkConstraints (Some (LocalMedia.media_flag true))
             (Some (LocalMedia.media_flag true)) false in
  let s := LocalMedia.mkStream None [LocalMedia.mkTrack true] [LocalMedia.mkTrack true]
             false [] in
  let w := LocalMedia.mkRespoke {[ 0%nat := s ]} []
             (LocalMedia.mkPlatform false false false false false false) in
  let ans := LocalMedia.mkAnswers None "" 0 in
  ∃ a1 w1 b1 w2,
    LocalMedia.start_and_capture ans (LocalMedia.new "A" (Some c)) w = Js.Normal (a1, w1)
    ∧ LocalMedia.start_and_capture ans (LocalMedia.new "B" (Some c)) w1 = Js.Normal (b1, w2)
    ∧ LocalMedia.numPc_of w2 0 = Some 2
    ∧ LocalMedia.is_stopped (LocalMedia.stop a1 w2).2 0 = false
    ∧ LocalMedia.is_stopped (LocalMedia.stop b1 (LocalMedia.stop a1 w2).2).2 0 = true
    ∧ LocalMedia.streams (LocalMedia.stop b1 (LocalMedia.stop a1 w2).2).2 = [].
Proof.
  intros c s w ans.
  destruct (shared_stream_released_by_last_stop ans ans
              (LocalMedia.new "A" (Some c)) (LocalMedia.new "B" (Some c)) w c s
              eq_refl eq_refl eq_refl eq_refl eq_refl eq_refl eq_refl eq_refl)
    as (a1 & w1 & b1 & w2 & H1 & _ & H2 & _ & _ & H3 & _ & _ & _ & H4 & _ & _ & H5 & H6).
  exists a1, w1, b1, w2. split_and!; done.
Defined.
